(** * MergeTreeDataWriter: the insert-path writer of the merge tree engine

    A shallow embedding of [src/Storages/MergeTree/MergeTreeDataWriter.cpp]:
    [buildScatterSelector], [updateTTL], [TemporaryPart::finalize],
    [splitBlockIntoParts], [mergeBlock], [writeTempPart],
    [writeProjectionPartImpl] and the three projection writers that call it,
    [writeProjectionPart], [writeTempProjectionPart] and
    [writeInMemoryProjectionPart].

    Conventions.
    - A column is the list of its values; a value ([Field]) is an integer.
      A block is the list of its named columns.
    - A C++ exception is [Throw code]; reading memory the program never
      wrote, or indexing outside an array, is [Undefined].
    - Process-wide mutable state (the insert counter, the profile events, the
      disk) is the record [World], threaded through the writer.
    - Collaborators declared outside the file (the hash of a partition tuple,
      the calendar table, the merging algorithms, the storage policy) are
      section variables or fields of the records that stand for the objects
      the writer receives.
    - Left out, as nothing stated here depends on them: the types of the
      columns and with them [deduceTypesOfObjectColumns], the part UUID, the
      directory sync guard, the compression codec, the skip indices handed to
      the serializer and the transaction. *)

From Stdlib Require Import ZArith List String Sorted Permutation Lia Bool.
From stdpp Require Import base gmap strings list fin_maps pretty.

Local Open Scope Z_scope.
Local Open Scope nat_scope.

(** ** Values, columns, blocks *)

Definition Field := Z.
Definition Row := list Field.
Definition IColumn := list Field.
Definition Names := list string.

Record ColumnWithTypeAndName := mkColumn {
  column : IColumn;
  name : string
}.

Definition Block := list ColumnWithTypeAndName.

(** [Block::operator bool]: a block is null when it has no columns. *)
Definition is_null (block : Block) : bool :=
  match block with [] => true | _ => false end.

(** [Block::rows]: the size of the first column, 0 when there is none. *)
Definition rows (block : Block) : nat :=
  match block with [] => 0 | c :: _ => length (column c) end.

(** [Block::bytes]: the sum of the columns' byte sizes; a value takes 8 bytes. *)
Definition byteSize (c : IColumn) : nat := 8 * length c.
Definition bytes (block : Block) : nat :=
  fold_right (fun c acc => byteSize (column c) + acc) 0 block.

Definition getNames (block : Block) : Names := map name block.
Definition getColumns (block : Block) : list IColumn := map column block.

Definition cloneEmpty (block : Block) : Block :=
  map (fun c => mkColumn [] (name c)) block.

(** [Block::cloneWithColumns]: same names, the given columns by position. *)
Fixpoint cloneWithColumns (block : Block) (columns : list IColumn) : Block :=
  match block, columns with
  | c :: block', col :: columns' => mkColumn col (name c) :: cloneWithColumns block' columns'
  | _, _ => []
  end.

Fixpoint getByName (block : Block) (n : string) : option ColumnWithTypeAndName :=
  match block with
  | [] => None
  | c :: block' => if String.eqb (name c) n then Some c else getByName block' n
  end.

(** Row [i] of a list of columns, and the rows of a block. *)
Definition row_at (columns : list IColumn) (i : nat) : Row :=
  map (fun c => nth i c 0%Z) columns.

Definition block_rows (block : Block) : list Row :=
  map (row_at (getColumns block)) (seq 0 (rows block)).

(** Every column of a block has as many values as the first one. *)
Definition block_wf (block : Block) : Prop :=
  Forall (fun c => length (column c) = rows block) block.

(** ** Outcomes *)

Inductive ErrorCode :=
| LOGICAL_ERROR
| TOO_MANY_PARTS
| SIZES_OF_COLUMNS_DOESNT_MATCH
| NOT_FOUND_COLUMN_IN_BLOCK
| NOT_ENOUGH_SPACE
| OTHER_ERROR (code : nat).

Inductive Result (A : Type) : Type :=
| Ok (a : A)
| Throw (e : ErrorCode)
| Undefined.
Arguments Ok {A} a.
Arguments Throw {A} e.
Arguments Undefined {A}.

Definition bindR {A B} (m : Result A) (k : A -> Result B) : Result B :=
  match m with
  | Ok a => k a
  | Throw e => Throw e
  | Undefined => Undefined
  end.

Declare Scope result_scope.
Delimit Scope result_scope with result.
Notation "'let?' x := m 'in' k" := (bindR m (fun x => k))
  (at level 10, x pattern, m at level 100, k at level 200) : result_scope.
Local Open Scope result_scope.

Fixpoint mapR {A B} (f : A -> Result B) (l : list A) : Result (list B) :=
  match l with
  | [] => Ok []
  | a :: l' => let? b := f a in let? bs := mapR f l' in Ok (b :: bs)
  end.

(** ** Partition scatterer *)

Section Scatter.

(** [hash128(i, columns.size(), columns)] digests the values of row [i] of the
    key columns into a 128-bit key; the function is declared in
    Interpreters/AggregationCommon.h. *)
Variable hash128 : Row -> Z.

(** The locals of [buildScatterSelector].  A slot of [selector] that was
    allocated and not yet written is [None]. *)
Record ScatterState := mkScatter {
  partitions_map : gmap Z nat;
  partition_num_to_first_row : list nat;
  selector : list (option nat);
  partitions_count : nat
}.

Definition scatter_init : ScatterState := mkScatter ∅ [] [] 0.

Definition set_selector (i v : nat) (st : ScatterState) : ScatterState :=
  mkScatter (partitions_map st) (partition_num_to_first_row st)
            (<[i := Some v]> (selector st)) (partitions_count st).

(** One iteration of the row loop, for row [i]. *)
Definition scatter_row (columns : list IColumn) (max_parts num_rows : nat)
    (i : nat) (st : ScatterState) : Result ScatterState :=
  let key := hash128 (row_at columns i) in
  match partitions_map st !! key with
  | Some mapped =>
      (* inserted = false *)
      Ok (if 1 <? partitions_count st then set_selector i mapped st else st)
  | None =>
      (* inserted = true *)
      if negb (max_parts =? 0) && (max_parts <=? partitions_count st)
      then Throw TOO_MANY_PARTS
      else
        let mapped := partitions_count st in
        let count := S (partitions_count st) in
        let sel :=
          if count =? 2
          then replicate i (Some 0) ++ replicate (num_rows - i) None
          else selector st in
        let st' := mkScatter (<[key := mapped]> (partitions_map st))
                             (partition_num_to_first_row st ++ [i]) sel count in
        Ok (if 1 <? count then set_selector i mapped st' else st')
  end.

Fixpoint scatter_loop (columns : list IColumn) (max_parts num_rows : nat)
    (todo : list nat) (st : ScatterState) : Result ScatterState :=
  match todo with
  | [] => Ok st
  | i :: todo' =>
      let? st' := scatter_row columns max_parts num_rows i st in
      scatter_loop columns max_parts num_rows todo' st'
  end.

(** [columns[0]] on an empty vector is undefined behaviour. *)
Definition buildScatterSelector (columns : list IColumn) (max_parts : nat)
    : Result ScatterState :=
  match columns with
  | [] => Undefined
  | c0 :: _ =>
      let num_rows := length c0 in
      scatter_loop columns max_parts num_rows (seq 0 num_rows) scatter_init
  end.

(** Modelled from the spec: [IColumn::scatter] is declared in Columns/IColumn.h;
    the spec has it send row [i] of the column to the output column
    [selector[i]], rows keeping their order.  A selector of another size is an
    error; a selector slot that is unwritten or names no output column is
    undefined behaviour. *)
Definition indices_of (p : nat) (sel : list nat) : list nat :=
  List.filter (fun i => nth i sel 0 =? p) (seq 0 (length sel)).

Definition scatter (num_columns : nat) (selector : list (option nat)) (col : IColumn)
    : Result (list IColumn) :=
  if negb (length col =? length selector) then Throw SIZES_OF_COLUMNS_DOESNT_MATCH
  else
    match mapM id selector with
    | None => Undefined
    | Some sel =>
        if forallb (fun s => s <? num_columns) sel
        then Ok (map (fun p => map (fun i => nth i col 0%Z) (indices_of p sel))
                     (seq 0 num_columns))
        else Undefined
    end.

(** The part of the metadata snapshot that [splitBlockIntoParts] reads.
    [check] is [StorageInMemoryMetadata::check]: [None] when the block
    conforms, the error otherwise.  The partition key is the list of its
    expressions, each a function of a row of the block. *)
Record PartitionMetadata := mkPartitionMetadata {
  check : Block -> option ErrorCode;
  partition_key_exprs : list (Row -> Field)
}.

Definition hasPartitionKey (m : PartitionMetadata) : bool :=
  match partition_key_exprs m with [] => false | _ => true end.

(** The partition tuple of a row. *)
Definition partition_tuple (m : PartitionMetadata) (r : Row) : Row :=
  map (fun e => e r) (partition_key_exprs m).

(** [MergeTreePartition::executePartitionByExpression] followed by the lookup
    of the key columns by name: one column per key expression, its values the
    expression evaluated on every row of the block. *)
Definition executePartitionByExpression (m : PartitionMetadata) (block_copy : Block)
    : list IColumn :=
  map (fun e => map e (block_rows block_copy)) (partition_key_exprs m).

Record BlockWithPartition := mkBlockWithPartition {
  bwp_block : Block;
  bwp_partition : Row
}.

Definition splitBlockIntoParts (block : Block) (max_parts : nat) (m : PartitionMetadata)
    : Result (list BlockWithPartition) :=
  if is_null block || (rows block =? 0) then Ok []
  else
    match check m block with
    | Some e => Throw e
    | None =>
        if negb (hasPartitionKey m) then Ok [mkBlockWithPartition block []]
        else
          let partition_columns := executePartitionByExpression m block in
          let? st := buildScatterSelector partition_columns max_parts in
          let first_row := partition_num_to_first_row st in
          let partitions_count := length first_row in
          let get_partition := fun num => row_at partition_columns (nth num first_row 0) in
          if partitions_count =? 1
          then Ok [mkBlockWithPartition block (get_partition 0)]
          else
            let? scattered :=
              mapR (fun c => scatter partitions_count (selector st) (column c)) block in
            Ok (map (fun i =>
                       mkBlockWithPartition
                         (cloneWithColumns block (map (fun cols => nth i cols []) scattered))
                         (get_partition i))
                    (seq 0 partitions_count))
    end.

End Scatter.

(** ** TTL accumulator *)

(** Modelled from the spec: [MergeTreeDataPartTTLInfo] is declared in
    MergeTreeDataPartTTLInfo.h.  The spec gives it the two timestamps and the
    fold [min = min(min, v)], [max = max(max, v)]; a fresh value holds zeros. *)
Record MergeTreeDataPartTTLInfo := mkTTLInfo {
  ttl_min : Z;
  ttl_max : Z
}.

Definition TTLInfo_default : MergeTreeDataPartTTLInfo := mkTTLInfo 0 0.

Definition TTLInfo_update (info : MergeTreeDataPartTTLInfo) (time : Z)
    : MergeTreeDataPartTTLInfo :=
  mkTTLInfo (Z.min (ttl_min info) time) (Z.max (ttl_max info) time).

(** [IMergeTreeDataPart::TTLInfos]: one entry per TTL category, and the
    part-wide minimum and maximum of the rows categories. *)
Record TTLInfos := mkTTLInfos {
  columns_ttl : gmap string MergeTreeDataPartTTLInfo;
  table_ttl : MergeTreeDataPartTTLInfo;
  part_min_ttl : Z;
  part_max_ttl : Z;
  rows_where_ttl : gmap string MergeTreeDataPartTTLInfo;
  moves_ttl : gmap string MergeTreeDataPartTTLInfo;
  recompression_ttl : gmap string MergeTreeDataPartTTLInfo;
  group_by_ttl : gmap string MergeTreeDataPartTTLInfo
}.

Definition TTLInfos_default : TTLInfos :=
  mkTTLInfos ∅ TTLInfo_default 0 0 ∅ ∅ ∅ ∅.

(** Modelled from the spec: [TTLInfos::updatePartMinMaxTTL] is declared in
    MergeTreeDataPartTTLInfo.h; it folds an interval into the part-wide
    rows-TTL minimum and maximum. *)
Definition updatePartMinMaxTTL (infos : TTLInfos) (time_min time_max : Z) : TTLInfos :=
  mkTTLInfos (columns_ttl infos) (table_ttl infos)
             (Z.min (part_min_ttl infos) time_min) (Z.max (part_max_ttl infos) time_max)
             (rows_where_ttl infos) (moves_ttl infos) (recompression_ttl infos)
             (group_by_ttl infos).

(** The second and third arguments of [updateTTL] alias: [ttl_info] is a
    reference to a member of some [TTLInfos].  A [TTLSlot] names the member. *)
Inductive TTLSlot :=
| slot_table_ttl
| slot_group_by_ttl (result_column : string)
| slot_rows_where_ttl (result_column : string)
| slot_columns_ttl (column_name : string)
| slot_recompression_ttl (result_column : string)
| slot_moves_ttl (result_column : string).

#[global] Instance TTLSlot_eq_dec : EqDecision TTLSlot.
Proof. solve_decision. Defined.

(** [map[key]] of a [std::map]: the entry, default-constructed when absent. *)
Definition map_at (m : gmap string MergeTreeDataPartTTLInfo) (k : string)
    : MergeTreeDataPartTTLInfo :=
  default TTLInfo_default (m !! k).

Definition get_slot (infos : TTLInfos) (s : TTLSlot) : MergeTreeDataPartTTLInfo :=
  match s with
  | slot_table_ttl => table_ttl infos
  | slot_group_by_ttl k => map_at (group_by_ttl infos) k
  | slot_rows_where_ttl k => map_at (rows_where_ttl infos) k
  | slot_columns_ttl k => map_at (columns_ttl infos) k
  | slot_recompression_ttl k => map_at (recompression_ttl infos) k
  | slot_moves_ttl k => map_at (moves_ttl infos) k
  end.

Definition set_slot (infos : TTLInfos) (s : TTLSlot) (v : MergeTreeDataPartTTLInfo)
    : TTLInfos :=
  match s with
  | slot_table_ttl =>
      mkTTLInfos (columns_ttl infos) v (part_min_ttl infos) (part_max_ttl infos)
                 (rows_where_ttl infos) (moves_ttl infos) (recompression_ttl infos)
                 (group_by_ttl infos)
  | slot_group_by_ttl k =>
      mkTTLInfos (columns_ttl infos) (table_ttl infos) (part_min_ttl infos) (part_max_ttl infos)
                 (rows_where_ttl infos) (moves_ttl infos) (recompression_ttl infos)
                 (<[k := v]> (group_by_ttl infos))
  | slot_rows_where_ttl k =>
      mkTTLInfos (columns_ttl infos) (table_ttl infos) (part_min_ttl infos) (part_max_ttl infos)
                 (<[k := v]> (rows_where_ttl infos)) (moves_ttl infos) (recompression_ttl infos)
                 (group_by_ttl infos)
  | slot_columns_ttl k =>
      mkTTLInfos (<[k := v]> (columns_ttl infos)) (table_ttl infos) (part_min_ttl infos)
                 (part_max_ttl infos) (rows_where_ttl infos) (moves_ttl infos)
                 (recompression_ttl infos) (group_by_ttl infos)
  | slot_recompression_ttl k =>
      mkTTLInfos (columns_ttl infos) (table_ttl infos) (part_min_ttl infos) (part_max_ttl infos)
                 (rows_where_ttl infos) (moves_ttl infos) (<[k := v]> (recompression_ttl infos))
                 (group_by_ttl infos)
  | slot_moves_ttl k =>
      mkTTLInfos (columns_ttl infos) (table_ttl infos) (part_min_ttl infos) (part_max_ttl infos)
                 (rows_where_ttl infos) (<[k := v]> (moves_ttl infos)) (recompression_ttl infos)
                 (group_by_ttl infos)
  end.

(** The dynamic type of the column a TTL expression evaluates to, as
    [typeid_cast] sees it.  A [ColumnConst] wraps a data column of one value. *)
Inductive TTLColumn :=
| ColumnUInt16 (data : list Z)
| ColumnUInt32 (data : list Z)
| ColumnConst (data_column : TTLColumn) (size : nat)
| ColumnOfOtherType.

(** [ColumnConst::getValue<T>]: the value of the wrapped data column. *)
Definition getValue (data_column : TTLColumn) : Z :=
  match data_column with
  | ColumnUInt16 data | ColumnUInt32 data => nth 0 data 0%Z
  | _ => 0%Z
  end.

(** A TTL entry: [expression] is
    [ITTLAlgorithm::executeExpressionAndGetColumn(expression, block, result_column)]. *)
Record TTLDescription := mkTTLDescription {
  result_column : string;
  expression : Block -> TTLColumn
}.

(** The process-wide calendar table [DateLUT::instance()]. *)
Record DateLUTImpl := mkDateLUT {
  fromDayNum : Z -> Z;
  toNumYYYYMM : Z -> Z
}.

(** [DayNum] is a 16-bit unsigned day number. *)
Definition DayNum (v : Z) : Z := (v mod 65536)%Z.

Definition updateTTL (date_lut : DateLUTImpl) (ttl_entry : TTLDescription)
    (ttl_infos : TTLInfos) (ttl_info : TTLSlot) (block : Block)
    (update_part_min_max_ttls : bool) : Result TTLInfos :=
  let ttl_column := expression ttl_entry block in
  let info := get_slot ttl_infos ttl_info in
  let? info' :=
    match ttl_column with
    | ColumnUInt16 data =>
        Ok (fold_left (fun acc val => TTLInfo_update acc (fromDayNum date_lut (DayNum val)))
                      data info)
    | ColumnUInt32 data =>
        Ok (fold_left (fun acc val => TTLInfo_update acc val) data info)
    | ColumnConst data_column _ =>
        match data_column with
        | ColumnUInt16 _ =>
            Ok (TTLInfo_update info (fromDayNum date_lut (DayNum (getValue data_column))))
        | ColumnUInt32 _ => Ok (TTLInfo_update info (getValue data_column))
        | _ => Throw LOGICAL_ERROR
        end
    | ColumnOfOtherType => Throw LOGICAL_ERROR
    end in
  let ttl_infos' := set_slot ttl_infos ttl_info info' in
  Ok (if update_part_min_max_ttls
      then updatePartMinMaxTTL ttl_infos' (ttl_min info') (ttl_max info')
      else ttl_infos').

(** ** Sort planner *)

Record SortColumnDescription := mkSortColumn {
  column_name : string;
  direction : Z;
  nulls_direction : Z
}.

Definition SortDescription := list SortColumnDescription.

(** [IColumn::Permutation]: output position to input row. *)
Definition Permutation_t := list nat.

(** The columns a sort description names, with their directions. *)
Fixpoint sort_columns_of (block : Block) (description : SortDescription)
    : Result (list (IColumn * Z)) :=
  match description with
  | [] => Ok []
  | d :: description' =>
      match getByName block (column_name d) with
      | None => Throw NOT_FOUND_COLUMN_IN_BLOCK
      | Some c =>
          let? rest := sort_columns_of block description' in
          Ok ((column c, direction d) :: rest)
      end
  end.

(** Rows [a] and [b] compared column by column, each in its direction. *)
Fixpoint compare_rows (columns : list (IColumn * Z)) (a b : nat) : comparison :=
  match columns with
  | [] => Eq
  | (c, dir) :: columns' =>
      let x := nth a c 0%Z in
      let y := nth b c 0%Z in
      match (if (0 <? dir)%Z then Z.compare x y else Z.compare y x) with
      | Eq => compare_rows columns' a b
      | res => res
      end
  end.

Definition less (columns : list (IColumn * Z)) (a b : nat) : bool :=
  match compare_rows columns a b with Lt => true | _ => false end.

(** Modelled from the spec: [isAlreadySorted] is declared in
    Interpreters/sortBlock.h; the spec has it test the order by a single
    linear pass: no row is less than the row before it. *)
Definition isAlreadySorted (block : Block) (description : SortDescription) : Result bool :=
  let? columns := sort_columns_of block description in
  Ok (forallb (fun i => negb (less columns (S i) i)) (seq 0 (rows block - 1))).

(** Modelled from the spec: [stableGetPermutation] is declared in
    Interpreters/sortBlock.h; the spec has it compute a stable permutation
    that puts the rows in non-decreasing order.  Rows are inserted in input
    order, each behind the rows that are not greater. *)
Fixpoint insert_row (columns : list (IColumn * Z)) (i : nat) (sorted : Permutation_t)
    : Permutation_t :=
  match sorted with
  | [] => [i]
  | j :: sorted' =>
      if less columns i j then i :: j :: sorted'
      else j :: insert_row columns i sorted'
  end.

Definition stable_sort_rows (columns : list (IColumn * Z)) (n : nat) : Permutation_t :=
  fold_left (fun sorted i => insert_row columns i sorted) (seq 0 n) [].

Definition stableGetPermutation (block : Block) (description : SortDescription)
    : Result Permutation_t :=
  let? columns := sort_columns_of block description in
  Ok (stable_sort_rows columns (rows block)).

(** The rows a serializer emits for [writeWithPermutation(block, permutation)]:
    the rows of the block, in the order of the permutation when there is one. *)
Definition permuted_rows (block : Block) (permutation : option Permutation_t) : list Row :=
  match permutation with
  | None => block_rows block
  | Some perm => map (row_at (getColumns block)) perm
  end.

(** The input positions in emission order. *)
Definition emission_order (block : Block) (permutation : option Permutation_t) : list nat :=
  match permutation with
  | None => seq 0 (rows block)
  | Some perm => perm
  end.

(** ** Single-block reducer *)

Inductive MergingMode :=
| Ordinary
| Collapsing
| Summing
| Aggregating
| Replacing
| Graphite
| VersionedCollapsing.

Record MergingParams := mkMergingParams {
  mode : MergingMode;
  sign_column : string;
  columns_to_sum : Names;
  version_column : string;
  graphite_params : list (string * Z)
}.

(** A default-constructed [MergingParams]. *)
Definition MergingParams_default : MergingParams :=
  mkMergingParams Ordinary "" [] "" [].

Record Chunk := mkChunk {
  chunk_columns : list IColumn;
  chunk_num_rows : nat
}.

Record Input := mkInput {
  input_chunk : Chunk;
  input_permutation : option Permutation_t
}.

(** [IMergingAlgorithm::Status]; [required_source] is -1 when no input is asked for. *)
Record Status := mkStatus {
  status_chunk : Chunk;
  is_finished : bool;
  required_source : Z
}.

(** The interface [IMergingAlgorithm]: an object with a state, [initialize]
    and the merge step. *)
Record IMergingAlgorithm := mkAlgorithm {
  alg_state : Type;
  alg_new : alg_state;
  initialize : alg_state -> list Input -> alg_state;
  merge : alg_state -> Status * alg_state
}.

(** The constructors of the merging algorithms, declared in
    Processors/Merges/Algorithms; the arguments are those of the source. *)
Record MergingAlgorithms := mkAlgorithms {
  ReplacingSortedAlgorithm :
    Block -> nat -> SortDescription -> string -> nat -> IMergingAlgorithm;
  CollapsingSortedAlgorithm :
    Block -> nat -> SortDescription -> string -> bool -> nat -> IMergingAlgorithm;
  SummingSortedAlgorithm :
    Block -> nat -> SortDescription -> Names -> Names -> nat -> IMergingAlgorithm;
  AggregatingSortedAlgorithm :
    Block -> nat -> SortDescription -> nat -> IMergingAlgorithm;
  VersionedCollapsingAlgorithm :
    Block -> nat -> SortDescription -> string -> nat -> IMergingAlgorithm;
  GraphiteRollupSortedAlgorithm :
    Block -> nat -> SortDescription -> nat -> list (string * Z) -> Z -> IMergingAlgorithm
}.

(** ** The process-wide state *)

Inductive ProfileEvent :=
| MergeTreeDataWriterBlocks
| MergeTreeDataWriterBlocksAlreadySorted
| MergeTreeDataWriterRows
| MergeTreeDataWriterUncompressedBytes
| MergeTreeDataWriterCompressedBytes
| MergeTreeDataProjectionWriterBlocks
| MergeTreeDataProjectionWriterBlocksAlreadySorted
| MergeTreeDataProjectionWriterRows
| MergeTreeDataProjectionWriterUncompressedBytes
| MergeTreeDataProjectionWriterCompressedBytes.

#[global] Instance ProfileEvent_eq_dec : EqDecision ProfileEvent.
Proof. solve_decision. Defined.

(** [insert_increment] is the counter of [MergeTreeData]; [disk] the paths
    that exist; [clock] what [time(nullptr)] returns; [merge_steps] counts the
    calls of [IMergingAlgorithm::merge] (a ghost counter). *)
Record World := mkWorld {
  insert_increment : Z;
  profile_events : ProfileEvent -> nat;
  disk : gset string;
  clock : Z;
  merge_steps : nat
}.

(** A computation of the writer: it reads and updates the world and returns,
    throws or is undefined; the effects made before a throw stay. *)
Definition W (A : Type) : Type := World -> Result A * World.

Definition retW {A} (a : A) : W A := fun w => (Ok a, w).
Definition throwW {A} (e : ErrorCode) : W A := fun w => (Throw e, w).
Definition undefinedW {A} : W A := fun w => (Undefined, w).
Definition liftW {A} (r : Result A) : W A := fun w => (r, w).

Definition bindW {A B} (m : W A) (k : A -> W B) : W B :=
  fun w =>
    match m w with
    | (Ok a, w') => k a w'
    | (Throw e, w') => (Throw e, w')
    | (Undefined, w') => (Undefined, w')
    end.

Declare Scope writer_scope.
Delimit Scope writer_scope with writer.
Notation "'do' x <- m ; k" := (bindW m (fun x => k))
  (at level 10, x pattern, m at level 100, k at level 200) : writer_scope.
Local Open Scope writer_scope.

(** [ProfileEvents::increment(event, amount)]. *)
Definition increment (event : ProfileEvent) (amount : nat) : W unit :=
  fun w =>
    (Ok tt,
     mkWorld (insert_increment w)
             (fun e => if decide (e = event) then profile_events w e + amount
                       else profile_events w e)
             (disk w) (clock w) (merge_steps w)).

(** Modelled from the spec: [data.insert_increment.get()] is declared in
    Common/SimpleIncrement.h; the spec has it a monotonically increasing
    counter: every call advances it by one and returns the new value. *)
Definition insert_increment_get : W Z :=
  fun w =>
    (Ok (insert_increment w + 1)%Z,
     mkWorld (insert_increment w + 1)%Z (profile_events w) (disk w) (clock w)
             (merge_steps w)).

Definition time_now : W Z := fun w => (Ok (clock w), w).

Definition tick_merge : W unit :=
  fun w =>
    (Ok tt,
     mkWorld (insert_increment w) (profile_events w) (disk w) (clock w)
             (S (merge_steps w))).

Definition set_disk (f : gset string -> gset string) : W unit :=
  fun w =>
    (Ok tt,
     mkWorld (insert_increment w) (profile_events w) (f (disk w)) (clock w)
             (merge_steps w)).

Definition disk_exists (path : string) : W bool :=
  fun w => (Ok (bool_decide (path ∈ disk w)), w).

(** [removeRecursive]: the directory and everything below it goes. *)
Definition removeRecursive (path : string) : W unit :=
  set_disk (fun d => filter (fun p => negb (String.prefix path p) = true) d).

Definition createDirectories (path : string) : W unit :=
  set_disk (fun d => {[ path ]} ∪ d).

Section Reducer.

Variable algorithms : MergingAlgorithms.

(** The lambda [get_merging_algorithm] of [mergeBlock]. *)
Definition get_merging_algorithm (block : Block) (block_size : nat)
    (sort_description : SortDescription) (partition_key_columns : Names)
    (merging_params : MergingParams) (now : Z) : option IMergingAlgorithm :=
  match mode merging_params with
  | Ordinary => None
  | Replacing =>
      Some (ReplacingSortedAlgorithm algorithms block 1 sort_description
              (version_column merging_params) (block_size + 1))
  | Collapsing =>
      Some (CollapsingSortedAlgorithm algorithms block 1 sort_description
              (sign_column merging_params) false (block_size + 1))
  | Summing =>
      Some (SummingSortedAlgorithm algorithms block 1 sort_description
              (columns_to_sum merging_params) partition_key_columns (block_size + 1))
  | Aggregating =>
      Some (AggregatingSortedAlgorithm algorithms block 1 sort_description (block_size + 1))
  | VersionedCollapsing =>
      Some (VersionedCollapsingAlgorithm algorithms block 1 sort_description
              (sign_column merging_params) (block_size + 1))
  | Graphite =>
      Some (GraphiteRollupSortedAlgorithm algorithms block 1 sort_description
              (block_size + 1) (graphite_params merging_params) now)
  end.

(** [mergeBlock] returns the block; the reference parameter [permutation] is
    returned with it. *)
Definition mergeBlock (block : Block) (sort_description : SortDescription)
    (partition_key_columns : Names) (permutation : option Permutation_t)
    (merging_params : MergingParams) : W (Block * option Permutation_t) :=
  let block_size := rows block in
  do now <- time_now;
  match get_merging_algorithm block block_size sort_description partition_key_columns
          merging_params now with
  | None => retW (block, permutation)
  | Some merging_algorithm =>
      let chunk := mkChunk (getColumns block) block_size in
      let input := mkInput chunk permutation in
      let inputs := [input] in
      let s0 := initialize merging_algorithm (alg_new merging_algorithm) inputs in
      do _ <- tick_merge;
      let '(status, s1) := merge merging_algorithm s0 in
      if negb (required_source status =? 0)%Z then throwW LOGICAL_ERROR
      else
        do _ <- tick_merge;
        let '(status, _) := merge merging_algorithm s1 in
        if negb (is_finished status) then throwW LOGICAL_ERROR
        else retW (cloneWithColumns block (chunk_columns (status_chunk status)), None)
  end.

End Reducer.

(** ** Parts *)

Inductive MergeTreeDataPartType := Wide | Compact | InMemory.

Record MergeTreePartInfo := mkPartInfo {
  partition_id : string;
  min_block : Z;
  max_block : Z;
  level : nat
}.

(** A closed interval of a hyper-rectangle. *)
Record Range := mkRange {
  range_left : Field;
  range_right : Field
}.

Record MinMaxIndex := mkMinMaxIndex {
  hyperrectangle : list Range;
  initialized : bool
}.

(** [IColumn::getExtremes]: the least and the greatest value of a column,
    zeros for a column without values. *)
Definition getExtremes (c : IColumn) : Range :=
  match c with
  | [] => mkRange 0%Z 0%Z
  | x :: c' => mkRange (fold_left Z.min c' x) (fold_left Z.max c' x)
  end.

(** Modelled from the spec: [MinMaxIndex::update] is declared in
    IMergeTreeDataPart.h; on a fresh index the spec has it compute, per named
    column, the inclusive interval of the values of the block. *)
Definition MinMaxIndex_update (block : Block) (column_names : Names) : Result MinMaxIndex :=
  let? ranges :=
    mapR (fun n => match getByName block n with
                   | None => Throw NOT_FOUND_COLUMN_IN_BLOCK
                   | Some c => Ok (getExtremes (column c))
                   end) column_names in
  Ok (mkMinMaxIndex ranges true).

(** What a [MergedBlockOutputStream] was given: the directory of its part,
    the columns to serialise, and the argument of [writeWithPermutation]. *)
Record Stream := mkStream {
  stream_path : string;
  stream_columns : Names;
  written_block : Block;
  written_permutation : option Permutation_t;
  fsync_after_insert_flag : bool
}.

(** The rows a stream serialises, in order. *)
Definition emitted_rows (s : Stream) : list Row :=
  permuted_rows (written_block s) (written_permutation s).

Record ProjectionPart := mkProjectionPart {
  pp_name : string;
  pp_type : MergeTreeDataPartType;
  pp_info : MergeTreePartInfo;
  pp_path : string;
  pp_is_temp : bool;
  pp_columns : Names
}.

Record DataPart := mkDataPart {
  part_name : string;
  part_type : MergeTreeDataPartType;
  part_info : MergeTreePartInfo;
  part_path : string;
  part_columns : Names;
  rows_count : nat;
  partition : Row;
  minmax_idx : MinMaxIndex;
  is_temp : bool;
  ttl_infos : TTLInfos;
  projection_parts : list (string * ProjectionPart)
}.

(** [TemporaryPart], for a part descriptor of type [P]. *)
Record TemporaryPart (P : Type) := mkTemporaryPart {
  part : option P;
  builder : option string;
  streams : list Stream;
  temporary_directory_lock : option string
}.
Arguments mkTemporaryPart {P} _ _ _ _.
Arguments part {P} _.
Arguments builder {P} _.
Arguments streams {P} _.
Arguments temporary_directory_lock {P} _.

(** [TemporaryPart::finalize]: the finalizer of every stream is finished, in
    the order of [streams].  [finish] is [Finalizer::finish] of
    MergedBlockOutputStream.h, which may throw; a throw ends the loop. *)
Fixpoint finish_streams (finish : Stream -> W unit) (streams : list Stream) : W unit :=
  match streams with
  | [] => retW tt
  | stream :: streams' => do _ <- finish stream; finish_streams finish streams'
  end.

Definition finalize {P : Type} (finish : Stream -> W unit) (temp_part : TemporaryPart P)
    : W unit :=
  finish_streams finish (streams temp_part).

(** ** Schema, table and settings, as the writer reads them *)

Inductive ProjectionType := Normal | Aggregate.

(** A projection with the fields of its child metadata. *)
Record ProjectionDescription := mkProjection {
  projection_name : string;
  projection_type : ProjectionType;
  calculate : Block -> Block;
  projection_physical_columns : Names;
  projection_sorting_key_columns : Names;
  projection_hasSecondaryIndices : bool;
  projection_key_expression : Block -> Block
}.

Record StorageMetadata := mkMetadata {
  partition_metadata : PartitionMetadata;
  partition_key_column_names : Names;
  minmax_column_names : Names;
  physical_columns : Names;
  sorting_key_columns : Names;
  hasSecondaryIndices : bool;
  sorting_key_and_skip_indices_expression : Block -> Block;
  rows_ttl : option TTLDescription;
  group_by_ttls : list TTLDescription;
  rows_where_ttls : list TTLDescription;
  column_ttls : list (string * TTLDescription);
  recompression_ttls : list TTLDescription;
  move_ttls : list TTLDescription;
  projections : list ProjectionDescription
}.

(** [reserve] is [reserveSpacePreferringTTLRules]: the path of the volume
    reserved on, or [None] when no space can be reserved; [reserveSpace] is the
    check on the volume of a parent part. *)
Record MergeTreeData := mkData {
  format_version : nat;
  minmax_idx_date_column_pos : nat;
  merging_params : MergingParams;
  relative_data_path : string;
  choosePartType : nat -> nat -> MergeTreeDataPartType;
  choosePartTypeOnDisk : nat -> nat -> MergeTreeDataPartType;
  reserve : nat -> TTLInfos -> Z -> option string;
  reserveSpace : nat -> string -> bool;
  fsync_after_insert : bool
}.

Record Context := mkContext {
  optimize_on_insert : bool
}.

(** What the writer calls and this file does not define. *)
Record Collaborators := mkCollaborators {
  date_lut : DateLUTImpl;
  algorithms : MergingAlgorithms;
  MERGE_TREE_DATA_MIN_FORMAT_VERSION_WITH_CUSTOM_PARTITIONING : nat;
  getID : Row -> string;
  getPartNameV0 : MergeTreePartInfo -> Z -> Z -> string;
  getPartName : MergeTreePartInfo -> string;
  serialized_files : MergeTreeDataPartType -> string -> Block -> gset string;
  getBytesOnDisk : MergeTreeDataPartType -> string -> Block -> nat
}.

Definition isStoredOnDisk (t : MergeTreeDataPartType) : bool :=
  match t with InMemory => false | _ => true end.

Definition filter_names (all : Names) (present : Names) : Names :=
  List.filter (fun n => existsb (String.eqb n) present) all.

Definition TMP_PREFIX : string := "tmp_insert_".

(** ** Write orchestrator *)

Section Writer.

Variable env : Collaborators.

Definition make_sort_description (sort_columns : Names) : SortDescription :=
  map (fun n => mkSortColumn n 1 1) sort_columns.

(** The lines under the comment [/// Sort], which [writeTempPart] and
    [writeProjectionPartImpl] both have; they differ in the profile event. *)
Definition sort_block (already_sorted : ProfileEvent) (block : Block)
    (sort_description : SortDescription) : W (option Permutation_t) :=
  match sort_description with
  | [] => retW None
  | _ =>
      do sorted <- liftW (isAlreadySorted block sort_description);
      if negb sorted
      then do perm <- liftW (stableGetPermutation block sort_description);
           retW (Some perm)
      else do _ <- increment already_sorted 1;
           retW None
  end.

(** The directory of a part is made afresh. *)
Definition prepare_directory (path : string) : W unit :=
  do present <- disk_exists path;
  do _ <- (if present then removeRecursive path else retW tt);
  createDirectories path.

Definition writeProjectionPartImpl (part_name : string) (part_type : MergeTreeDataPartType)
    (relative_path : string) (data_part_storage_builder : string) (is_temp : bool)
    (parent_part : DataPart) (data : MergeTreeData) (block : Block)
    (projection : ProjectionDescription) : W (TemporaryPart ProjectionPart) :=
  let new_part_info := mkPartInfo "all" 0 0 0 in
  let projection_part_storage := part_path parent_part +:+ "/" +:+ relative_path in
  let projection_part_storage_builder :=
    data_part_storage_builder +:+ "/" +:+ relative_path in
  let columns := filter_names (projection_physical_columns projection) (getNames block) in
  let new_data_part :=
    mkProjectionPart part_name part_type new_part_info projection_part_storage is_temp
                     columns in
  do _ <- (if isStoredOnDisk part_type
           then prepare_directory projection_part_storage
           else retW tt);
  let block :=
    if negb (bool_decide (projection_sorting_key_columns projection = []))
       || projection_hasSecondaryIndices projection
    then projection_key_expression projection block
    else block in
  let sort_description :=
    make_sort_description (projection_sorting_key_columns projection) in
  do _ <- increment MergeTreeDataProjectionWriterBlocks 1;
  do perm_ptr <-
    sort_block MergeTreeDataProjectionWriterBlocksAlreadySorted block sort_description;
  do (block, perm_ptr) <-
    match projection_type projection with
    | Aggregate =>
        let projection_merging_params :=
          mkMergingParams Aggregating (sign_column MergingParams_default)
            (columns_to_sum MergingParams_default) (version_column MergingParams_default)
            (graphite_params MergingParams_default) in
        mergeBlock (algorithms env) block sort_description [] perm_ptr
                   projection_merging_params
    | Normal => retW (block, perm_ptr)
    end;
  let out := mkStream projection_part_storage columns block perm_ptr false in
  do _ <- set_disk (fun d => serialized_files env part_type projection_part_storage block ∪ d);
  do _ <- increment MergeTreeDataProjectionWriterRows (rows block);
  do _ <- increment MergeTreeDataProjectionWriterUncompressedBytes (bytes block);
  do _ <- increment MergeTreeDataProjectionWriterCompressedBytes
            (getBytesOnDisk env part_type projection_part_storage block);
  retW (mkTemporaryPart (Some new_data_part) (Some projection_part_storage_builder)
                        [out] None).

Definition writeProjectionPart (data : MergeTreeData) (block : Block)
    (projection : ProjectionDescription) (data_part_storage_builder : string)
    (parent_part : DataPart) : W (TemporaryPart ProjectionPart) :=
  let part_name := projection_name projection in
  do part_type <-
    match part_type parent_part with
    | InMemory => retW InMemory
    | _ =>
        let expected_size := bytes block in
        if reserveSpace data expected_size data_part_storage_builder
        then retW (choosePartTypeOnDisk data expected_size (rows block))
        else throwW NOT_ENOUGH_SPACE
    end;
  writeProjectionPartImpl part_name part_type (part_name +:+ ".proj")
    data_part_storage_builder false parent_part data block projection.

(** The writer of the parts of a projection materialisation, which merges
    them in stages.  [fmt::format("{}_{}", projection.name, block_num)] has
    the block number in decimal. *)
Definition writeTempProjectionPart (data : MergeTreeData) (block : Block)
    (projection : ProjectionDescription) (data_part_storage_builder : string)
    (parent_part : DataPart) (block_num : nat) : W (TemporaryPart ProjectionPart) :=
  let part_name := projection_name projection +:+ "_" +:+ pretty block_num in
  do part_type <-
    match part_type parent_part with
    | InMemory => retW InMemory
    | _ =>
        let expected_size := bytes block in
        if reserveSpace data expected_size data_part_storage_builder
        then retW (choosePartTypeOnDisk data expected_size (rows block))
        else throwW NOT_ENOUGH_SPACE
    end;
  writeProjectionPartImpl part_name part_type (part_name +:+ ".tmp_proj")
    data_part_storage_builder true parent_part data block projection.

Definition writeInMemoryProjectionPart (data : MergeTreeData) (block : Block)
    (projection : ProjectionDescription) (data_part_storage_builder : string)
    (parent_part : DataPart) : W (TemporaryPart ProjectionPart) :=
  writeProjectionPartImpl (projection_name projection) InMemory
    (projection_name projection +:+ ".proj")
    data_part_storage_builder false parent_part data block projection.

(** The loops over the TTL entries of one category. *)
Fixpoint updateTTLs (entries : list (TTLSlot * TTLDescription)) (ttl_infos : TTLInfos)
    (block : Block) (update_part_min_max_ttls : bool) : Result TTLInfos :=
  match entries with
  | [] => Ok ttl_infos
  | (slot, ttl_entry) :: entries' =>
      let? ttl_infos' :=
        updateTTL (date_lut env) ttl_entry ttl_infos slot block update_part_min_max_ttls in
      updateTTLs entries' ttl_infos' block update_part_min_max_ttls
  end.

Definition by_result_column (slot : string -> TTLSlot) (entries : list TTLDescription)
    : list (TTLSlot * TTLDescription) :=
  map (fun e => (slot (result_column e), e)) entries.

(** Modelled from the spec: [TTLInfos::update] is declared in
    MergeTreeDataPartTTLInfo.h.  The writer calls it with the move TTL infos
    alone; their entries join the entries of the part, and the spec has move
    TTLs leave the part-wide summary as it is. *)
Definition TTLInfos_update (infos move_ttl_infos : TTLInfos) : TTLInfos :=
  mkTTLInfos (columns_ttl infos) (table_ttl infos) (part_min_ttl infos) (part_max_ttl infos)
             (rows_where_ttl infos)
             (union_with (fun a b => Some (mkTTLInfo (Z.min (ttl_min a) (ttl_min b))
                                                     (Z.max (ttl_max a) (ttl_max b))))
                         (moves_ttl infos) (moves_ttl move_ttl_infos))
             (recompression_ttl infos) (group_by_ttl infos).

(** The TTL entries that are written into the part, in the order of the source. *)
Definition part_ttl_stage (metadata_snapshot : StorageMetadata) (block : Block)
    (move_ttl_infos : TTLInfos) : Result TTLInfos :=
  let? infos :=
    match rows_ttl metadata_snapshot with
    | Some ttl_entry =>
        updateTTL (date_lut env) ttl_entry TTLInfos_default slot_table_ttl block true
    | None => Ok TTLInfos_default
    end in
  let? infos :=
    updateTTLs (by_result_column slot_group_by_ttl (group_by_ttls metadata_snapshot))
               infos block true in
  let? infos :=
    updateTTLs (by_result_column slot_rows_where_ttl (rows_where_ttls metadata_snapshot))
               infos block true in
  let? infos :=
    updateTTLs (map (fun '(n, e) => (slot_columns_ttl n, e)) (column_ttls metadata_snapshot))
               infos block true in
  let? infos :=
    updateTTLs (by_result_column slot_recompression_ttl
                  (recompression_ttls metadata_snapshot))
               infos block false in
  Ok (TTLInfos_update infos move_ttl_infos).

(** The loop over the projections of the table. *)
Fixpoint write_projections (data : MergeTreeData) (data_part_storage_builder : string)
    (new_data_part : DataPart) (block : Block) (todo : list ProjectionDescription)
    (done : list (string * ProjectionPart) * list Stream)
    : W (list (string * ProjectionPart) * list Stream) :=
  match todo with
  | [] => retW done
  | projection :: todo' =>
      let projection_block := calculate projection block in
      if negb (rows projection_block =? 0)
      then
        do proj_temp_part <-
          writeProjectionPart data projection_block projection data_part_storage_builder
                              new_data_part;
        let parts :=
          match part proj_temp_part with
          | Some p => fst done ++ [(projection_name projection, p)]
          | None => fst done
          end in
        write_projections data data_part_storage_builder new_data_part block todo'
                          (parts, snd done ++ streams proj_temp_part)
      else
        write_projections data data_part_storage_builder new_data_part block todo' done
  end.

Definition hasSortingKey (metadata_snapshot : StorageMetadata) : bool :=
  negb (bool_decide (sorting_key_columns metadata_snapshot = [])).

(** What [writeTempPart] holds when it reaches the test of the expected size:
    its locals after the lines up to the call of [mergeBlock]. *)
Record PreparedPart := mkPrepared {
  prepared_columns : Names;
  prepared_minmax_idx : MinMaxIndex;
  prepared_partition : Row;
  prepared_part_info : MergeTreePartInfo;
  prepared_part_name : string;
  prepared_block : Block;
  prepared_perm_ptr : option Permutation_t
}.

(** [writeTempPart], from its first line to the call of [mergeBlock]. *)
Definition writeTempPart_prepare (data : MergeTreeData)
    (block_with_partition : BlockWithPartition) (metadata_snapshot : StorageMetadata)
    (context : Context) : W PreparedPart :=
  let block := bwp_block block_with_partition in
  let columns := filter_names (physical_columns metadata_snapshot) (getNames block) in
  do temp_index <- insert_increment_get;
  do minmax_idx <-
    liftW (MinMaxIndex_update block (minmax_column_names metadata_snapshot));
  let partition := bwp_partition block_with_partition in
  let new_part_info := mkPartInfo (getID env partition) temp_index temp_index 0 in
  do part_name <-
    (if format_version data <? MERGE_TREE_DATA_MIN_FORMAT_VERSION_WITH_CUSTOM_PARTITIONING env
     then
       match hyperrectangle minmax_idx !! minmax_idx_date_column_pos data with
       | None => undefinedW
       | Some range =>
           let min_date := DayNum (range_left range) in
           let max_date := DayNum (range_right range) in
           let min_month := toNumYYYYMM (date_lut env) min_date in
           let max_month := toNumYYYYMM (date_lut env) max_date in
           if negb (min_month =? max_month)%Z then throwW LOGICAL_ERROR
           else retW (getPartNameV0 env new_part_info min_date max_date)
       end
     else retW (getPartName env new_part_info));
  let block :=
    if hasSortingKey metadata_snapshot || hasSecondaryIndices metadata_snapshot
    then sorting_key_and_skip_indices_expression metadata_snapshot block
    else block in
  let sort_description := make_sort_description (sorting_key_columns metadata_snapshot) in
  do _ <- increment MergeTreeDataWriterBlocks 1;
  do perm_ptr <- sort_block MergeTreeDataWriterBlocksAlreadySorted block sort_description;
  let partition_key_columns := partition_key_column_names metadata_snapshot in
  do (block, perm_ptr) <-
    (if optimize_on_insert context
     then mergeBlock (algorithms env) block sort_description partition_key_columns perm_ptr
                     (merging_params data)
     else retW (block, perm_ptr));
  retW (mkPrepared columns minmax_idx partition new_part_info part_name block perm_ptr).

(** [writeTempPart], from the move TTLs to its last line, for a block that
    has bytes. *)
Definition writeTempPart_write (data : MergeTreeData) (metadata_snapshot : StorageMetadata)
    (prepared : PreparedPart) (expected_size : nat) : W (TemporaryPart DataPart) :=
  let block := prepared_block prepared in
  let perm_ptr := prepared_perm_ptr prepared in
  let part_name := prepared_part_name prepared in
  let columns := prepared_columns prepared in
  do move_ttl_infos <-
    liftW (updateTTLs (by_result_column slot_moves_ttl (move_ttls metadata_snapshot))
                      TTLInfos_default block false);
  do now <- time_now;
  do volume <-
    match reserve data expected_size move_ttl_infos now with
    | Some volume => retW volume
    | None => throwW NOT_ENOUGH_SPACE
    end;
  let full_path := volume +:+ relative_data_path data +:+ TMP_PREFIX +:+ part_name in
  let new_part_type := choosePartType data expected_size (rows block) in
  do _ <- (if isStoredOnDisk new_part_type then prepare_directory full_path else retW tt);
  do ttl_infos <- liftW (part_ttl_stage metadata_snapshot block move_ttl_infos);
  let new_data_part :=
    mkDataPart part_name new_part_type (prepared_part_info prepared) full_path columns
               (rows block) (prepared_partition prepared) (prepared_minmax_idx prepared)
               true ttl_infos [] in
  let out := mkStream full_path columns block perm_ptr (fsync_after_insert data) in
  do _ <- set_disk (fun d => serialized_files env new_part_type full_path block ∪ d);
  do (projection_parts, projection_streams) <-
    write_projections data full_path new_data_part block (projections metadata_snapshot)
                      ([], []);
  let new_data_part :=
    mkDataPart part_name new_part_type (prepared_part_info prepared) full_path columns
               (rows block) (prepared_partition prepared) (prepared_minmax_idx prepared)
               true ttl_infos projection_parts in
  do _ <- increment MergeTreeDataWriterRows (rows block);
  do _ <- increment MergeTreeDataWriterUncompressedBytes (bytes block);
  do _ <- increment MergeTreeDataWriterCompressedBytes
            (getBytesOnDisk env new_part_type full_path block);
  retW (mkTemporaryPart (Some new_data_part) (Some full_path)
                        (projection_streams ++ [out])
                        (Some (TMP_PREFIX +:+ part_name))).

Definition writeTempPart (data : MergeTreeData) (block_with_partition : BlockWithPartition)
    (metadata_snapshot : StorageMetadata) (context : Context)
    : W (TemporaryPart DataPart) :=
  do prepared <- writeTempPart_prepare data block_with_partition metadata_snapshot context;
  let part_dir := TMP_PREFIX +:+ prepared_part_name prepared in
  let temp_part := mkTemporaryPart None None [] (Some part_dir) in
  let expected_size := bytes (prepared_block prepared) in
  if expected_size =? 0 then retW temp_part
  else writeTempPart_write data metadata_snapshot prepared expected_size.

End Writer.

(** ** Merging algorithms for the worked examples *)

(** The positions to read in a single-input run: the permutation of the
    input when it has one, the rows in their order otherwise. *)
Definition input_order (input : Input) : list nat :=
  match input_permutation input with
  | Some perm => perm
  | None => seq 0 (chunk_num_rows (input_chunk input))
  end.

Definition take_rows (columns : list IColumn) (order : list nat) : Chunk :=
  mkChunk (map (fun c => map (fun i => nth i c 0%Z) order) columns) (length order).

(** The state of a single-block run: the inputs and the number of merge
    steps made. *)
Record RunState := mkRunState {
  run_inputs : list Input;
  run_steps : nat
}.

(** Modelled from the spec: the protocol of a merging algorithm on one input,
    for a reduction [select] of the rows in sort order.  The first step
    consumes the input and asks input 0 for more; the second finishes with
    the reduced chunk. *)
Definition single_run_algorithm (select : list IColumn -> list nat -> list nat)
    : IMergingAlgorithm :=
  mkAlgorithm RunState (mkRunState [] 0)
    (fun s inputs => mkRunState inputs (run_steps s))
    (fun s =>
       match run_steps s with
       | 0 => (mkStatus (mkChunk [] 0) false 0%Z, mkRunState (run_inputs s) 1)
       | S n =>
           let chunk :=
             match run_inputs s with
             | input :: _ =>
                 let columns := chunk_columns (input_chunk input) in
                 take_rows columns (select columns (input_order input))
             | [] => mkChunk [] 0
             end in
           (mkStatus chunk true (-1)%Z, mkRunState (run_inputs s) (S (S n)))
       end).

(** Modelled from the spec: Replacing keeps, of the rows that are equal on
    the sorting key, the single row with the maximum version, the last in
    input order among equals or when there is no version column. *)
Fixpoint replacing_select (cmp : nat -> nat -> comparison) (version : nat -> Z)
    (current : nat) (order : list nat) : list nat :=
  match order with
  | [] => [current]
  | i :: order' =>
      match cmp current i with
      | Eq =>
          replacing_select cmp version
            (if (version current <=? version i)%Z then i else current) order'
      | _ => current :: replacing_select cmp version i order'
      end
  end.

Definition replacing (header : Block) (description : SortDescription)
    (version_column : string) (columns : list IColumn) (order : list nat) : list nat :=
  let block := cloneWithColumns header columns in
  let keys :=
    match sort_columns_of block description with Ok keys => keys | _ => [] end in
  let version :=
    match getByName block version_column with
    | Some c => fun i => nth i (column c) 0%Z
    | None => fun _ => 0%Z
    end in
  match order with
  | [] => []
  | i :: order' => replacing_select (compare_rows keys) version i order'
  end.

(** Modelled from the spec: Collapsing cancels the pairs of signs +1 and -1
    among the rows that are equal on the sorting key and keeps the surplus: no
    row when the signs balance, the last row of sign +1 when those are more,
    the first row of sign -1 otherwise. *)
Record SignCount := mkSignCount {
  count_positive : nat;
  count_negative : nat;
  first_negative : option nat;
  last_positive : option nat
}.

Definition count_row (sign : nat -> Z) (i : nat) (c : SignCount) : SignCount :=
  if (0 <? sign i)%Z
  then mkSignCount (S (count_positive c)) (count_negative c) (first_negative c) (Some i)
  else mkSignCount (count_positive c) (S (count_negative c))
                   (match first_negative c with None => Some i | known => known end)
                   (last_positive c).

Definition collapsed (c : SignCount) : list nat :=
  if count_positive c =? count_negative c then []
  else if count_negative c <? count_positive c
       then match last_positive c with Some i => [i] | None => [] end
       else match first_negative c with Some i => [i] | None => [] end.

Fixpoint collapsing_select (cmp : nat -> nat -> comparison) (sign : nat -> Z)
    (current : nat) (c : SignCount) (order : list nat) : list nat :=
  match order with
  | [] => collapsed c
  | i :: order' =>
      match cmp current i with
      | Eq => collapsing_select cmp sign current (count_row sign i c) order'
      | _ =>
          collapsed c
          ++ collapsing_select cmp sign i
               (count_row sign i (mkSignCount 0 0 None None)) order'
      end
  end.

Definition collapsing (header : Block) (description : SortDescription)
    (sign_column : string) (columns : list IColumn) (order : list nat) : list nat :=
  let block := cloneWithColumns header columns in
  let keys :=
    match sort_columns_of block description with Ok keys => keys | _ => [] end in
  let sign :=
    match getByName block sign_column with
    | Some c => fun i => nth i (column c) 0%Z
    | None => fun _ => 0%Z
    end in
  match order with
  | [] => []
  | i :: order' =>
      collapsing_select (compare_rows keys) sign i
        (count_row sign i (mkSignCount 0 0 None None)) order'
  end.

(** The other modes are given the reduction that keeps every row: what each
    of them does on a block whose rows all differ on the sorting key. *)
Definition keep_all (columns : list IColumn) (order : list nat) : list nat := order.

Definition example_algorithms : MergingAlgorithms :=
  mkAlgorithms
    (fun header _ description version _ =>
       single_run_algorithm (replacing header description version))
    (fun header _ description sign _ _ =>
       single_run_algorithm (collapsing header description sign))
    (fun _ _ _ _ _ _ => single_run_algorithm keep_all)
    (fun _ _ _ _ => single_run_algorithm keep_all)
    (fun _ _ _ _ _ => single_run_algorithm keep_all)
    (fun _ _ _ _ _ _ => single_run_algorithm keep_all).

(** A calendar of 30-day months and a decimal-free rendering of part names,
    for the worked examples. *)
Definition example_date_lut : DateLUTImpl :=
  mkDateLUT (fun d => (d * 86400)%Z) (fun d => (d / 30)%Z).

Definition example_env : Collaborators :=
  mkCollaborators example_date_lut example_algorithms 1
    (fun _ => "p")
    (fun _ _ _ => "v0")
    (fun _ => "v1")
    (fun _ path _ => {[ path +:+ "/data.bin" ]})
    (fun _ _ block => bytes block).

Definition example_world : World := mkWorld 41 (fun _ => 0) ∅ 1000 0.

Definition example_data (m : MergingMode) : MergeTreeData :=
  mkData 1 0 (mkMergingParams m "" [] "v" []) "store/"
         (fun _ _ => Wide) (fun _ _ => Compact)
         (fun _ _ _ => Some "/disk1/") (fun _ _ => true) false.

(** A table [(k, v, d)] sorted by [k], partitioned by [d / 1000], with [d]
    the column of the min-max index. *)
Definition example_metadata : StorageMetadata :=
  mkMetadata (mkPartitionMetadata (fun _ => None) [fun r => (nth 2 r 0 / 1000)%Z])
             ["d"%string] ["d"%string] ["k"; "v"; "d"]%string ["k"%string] false (fun b => b)
             None [] [] [] [] [] [].

Definition example_block : Block :=
  [mkColumn [1; 1; 2]%Z "k"; mkColumn [10; 20; 5]%Z "v"; mkColumn [100; 110; 105]%Z "d"].

(** ** Notions the properties are stated with *)

(** The partition tuples of the rows of a block, in row order. *)
Definition partition_tuples (m : PartitionMetadata) (block : Block) : list Row :=
  map (partition_tuple m) (block_rows block).

(** The hash tells apart the tuples of a list. *)
Definition collision_free (hash128 : Row -> Z) (tuples : list Row) : Prop :=
  forall a b, In a tuples -> In b tuples -> hash128 a = hash128 b -> a = b.

(** The number of distinct tuples of a list. *)
Definition distinct (tuples : list Row) : nat := length (remove_dups tuples).

(** The keys of the rows below [k]. *)
Definition keys_upto (key_of : nat -> Z) (k : nat) : gset Z :=
  list_to_set (map key_of (seq 0 k)).

(** What holds of the locals of [buildScatterSelector] once the rows below
    [k] are scanned; [key_of j] is the key of row [j]. *)
Definition scatter_inv (key_of : nat -> Z) (max_parts num_rows k : nat)
    (st : ScatterState) : Prop :=
  partitions_count st = length (partition_num_to_first_row st) /\
  (forall key p, partitions_map st !! key = Some p <->
                 exists j, partition_num_to_first_row st !! p = Some j /\ key_of j = key) /\
  (forall p j, partition_num_to_first_row st !! p = Some j -> j < k) /\
  (forall j, j < k -> is_Some (partitions_map st !! key_of j)) /\
  (if 1 <? partitions_count st
   then length (selector st) = num_rows /\
        forall j p, j < k -> partitions_map st !! key_of j = Some p ->
                    selector st !! j = Some (Some p)
   else selector st = []) /\
  dom (partitions_map st) = keys_upto key_of k /\
  size (partitions_map st) = partitions_count st /\
  (max_parts <> 0 -> partitions_count st <= max_parts).

(** The unix seconds of the value a TTL column has on each of its rows. *)
Definition ttl_row_times (date_lut : DateLUTImpl) (c : TTLColumn) : list Z :=
  match c with
  | ColumnUInt16 data => map (fun v => fromDayNum date_lut (DayNum v)) data
  | ColumnUInt32 data => data
  | ColumnConst (ColumnUInt16 data) size =>
      replicate size (fromDayNum date_lut (DayNum (nth 0 data 0%Z)))
  | ColumnConst (ColumnUInt32 data) size => replicate size (nth 0 data 0%Z)
  | _ => []
  end.

(** A timestamp lies in the interval of a TTL info. *)
Definition ttl_covers (info : MergeTreeDataPartTTLInfo) (t : Z) : Prop :=
  (ttl_min info <= t <= ttl_max info)%Z.

(** A timestamp lies in the part-wide rows-TTL interval. *)
Definition part_ttl_covers (infos : TTLInfos) (t : Z) : Prop :=
  (part_min_ttl infos <= t <= part_max_ttl infos)%Z.

(** The TTL entries of a table by category: those of the rows categories
    (rows, group-by, rows-where, columns), and the move and recompression
    entries, each with the member of [TTLInfos] it is folded into. *)
Definition rows_category_ttls (md : StorageMetadata) : list (TTLSlot * TTLDescription) :=
  match rows_ttl md with Some e => [(slot_table_ttl, e)] | None => [] end
  ++ by_result_column slot_group_by_ttl (group_by_ttls md)
  ++ by_result_column slot_rows_where_ttl (rows_where_ttls md)
  ++ map (fun '(n, e) => (slot_columns_ttl n, e)) (column_ttls md).

Definition move_and_recompression_ttls (md : StorageMetadata)
    : list (TTLSlot * TTLDescription) :=
  by_result_column slot_recompression_ttl (recompression_ttls md)
  ++ by_result_column slot_moves_ttl (move_ttls md).

(** The table without its move and recompression TTLs. *)
Definition without_move_and_recompression (md : StorageMetadata) : StorageMetadata :=
  mkMetadata (partition_metadata md) (partition_key_column_names md) (minmax_column_names md)
             (physical_columns md) (sorting_key_columns md) (hasSecondaryIndices md)
             (sorting_key_and_skip_indices_expression md) (rows_ttl md) (group_by_ttls md)
             (rows_where_ttls md) (column_ttls md) [] [] (projections md).

(** An interval of values: every value of the column lies in it, and its ends
    are values of the column when the column has values. *)
Definition is_interval_of (c : IColumn) (range : Range) : Prop :=
  (forall v, In v c -> (range_left range <= v <= range_right range)%Z) /\
  (c <> [] -> In (range_left range) c /\ In (range_right range) c).

(** The interval of [b] contains the interval of [a]. *)
Definition wider (a b : MergeTreeDataPartTTLInfo) : Prop :=
  (ttl_min b <= ttl_min a)%Z /\ (ttl_max a <= ttl_max b)%Z.

(** The interval of every member and the part-wide interval only grow. *)
Definition ttl_extends (infos0 infos1 : TTLInfos) : Prop :=
  (forall s, wider (get_slot infos0 s) (get_slot infos1 s)) /\
  (part_min_ttl infos1 <= part_min_ttl infos0)%Z /\
  (part_max_ttl infos0 <= part_max_ttl infos1)%Z.

(** The row times of the entries lie in the intervals of their members, and
    in the part-wide interval when [part_wide] is set. *)
Definition ttl_covered (date_lut : DateLUTImpl) (block : Block) (part_wide : bool)
    (entries : list (TTLSlot * TTLDescription)) (infos : TTLInfos) : Prop :=
  forall s e t, In (s, e) entries ->
    In t (ttl_row_times date_lut (expression e block)) ->
    ttl_covers (get_slot infos s) t /\ (part_wide = true -> part_ttl_covers infos t).

(** The lexicographic comparison of two key tuples. *)
Fixpoint lex_compare (a b : Row) : comparison :=
  match a, b with
  | x :: a', y :: b' =>
      match Z.compare x y with
      | Eq => lex_compare a' b'
      | res => res
      end
  | _, _ => Eq
  end.

(** Row [i] comes before row [j] in a stable ascending order on the key
    columns: its key is less, or the keys are equal and [i] is the earlier
    row of the input. *)
Definition stable_before (keys : list IColumn) (i j : nat) : Prop :=
  lex_compare (row_at keys i) (row_at keys j) = Lt \/
  (lex_compare (row_at keys i) (row_at keys j) = Eq /\ i < j).

(** [order] lists the rows [0 .. n-1] sorted by the key columns, rows with
    equal keys in input order. *)
Definition stable_sorted_order (keys : list IColumn) (n : nat) (order : list nat) : Prop :=
  Permutation order (seq 0 n) /\ StronglySorted (stable_before keys) order.

(** The key columns a sort description names. *)
Definition key_columns (block : Block) (description : SortDescription)
    : Result (list IColumn) :=
  let? columns := sort_columns_of block description in Ok (map fst columns).

(** A computation leaves a component of the world as it was, whatever its
    outcome. *)
Definition preserves {A F : Type} (proj : World -> F) (m : W A) : Prop :=
  forall w, proj (snd (m w)) = proj w.

(** The table's merging parameters replaced. *)
Definition with_merging_params (data : MergeTreeData) (p : MergingParams) : MergeTreeData :=
  mkData (format_version data) (minmax_idx_date_column_pos data) p (relative_data_path data)
         (choosePartType data) (choosePartTypeOnDisk data) (reserve data) (reserveSpace data)
         (fsync_after_insert data).

(** What holds of [partition_num_to_first_row] during the scan: the first
    rows are in increasing order, and no row before the first row of a
    partition has its key. *)
Definition first_rows_inv (key_of : nat -> Z) (st : ScatterState) : Prop :=
  StronglySorted lt (partition_num_to_first_row st) /\
  (forall p j, partition_num_to_first_row st !! p = Some j ->
               forall i, i < j -> key_of i <> key_of j).

(** The block of the rows at the positions [idx] of a block. *)
Definition selected_block (block : Block) (idx : list nat) : Block :=
  map (fun c => mkColumn (map (fun i => nth i (column c) 0%Z) idx) (name c)) block.

(** The dynamic types of a TTL column that [updateTTL] has a branch for. *)
Definition supported_ttl_column (c : TTLColumn) : bool :=
  match c with
  | ColumnUInt16 _ | ColumnUInt32 _ => true
  | ColumnConst (ColumnUInt16 _) _ | ColumnConst (ColumnUInt32 _) _ => true
  | _ => false
  end.

(** Every TTL entry of a table, with the member of [TTLInfos] it is folded
    into. *)
Definition all_ttls (md : StorageMetadata) : list (TTLSlot * TTLDescription) :=
  rows_category_ttls md ++ move_and_recompression_ttls md.

(** The profile events of the projection writer. *)
Definition is_projection_event (event : ProfileEvent) : bool :=
  match event with
  | MergeTreeDataProjectionWriterBlocks
  | MergeTreeDataProjectionWriterBlocksAlreadySorted
  | MergeTreeDataProjectionWriterRows
  | MergeTreeDataProjectionWriterUncompressedBytes
  | MergeTreeDataProjectionWriterCompressedBytes => true
  | _ => false
  end.

(** A computation leaves a path on the disk that is there, whatever its
    outcome. *)
Definition keeps {A : Type} (x : string) (m : W A) : Prop :=
  forall w, x ∈ disk w -> x ∈ disk (snd (m w)).

(** ** Inputs of the worked examples *)

(** A hash for tuples of one value: the value. *)
Definition example_hash (r : Row) : Z := nth 0 r 0%Z.

(** A table partitioned by [k mod 3], the first column of the block. *)
Definition example_partition_by_mod3 : PartitionMetadata :=
  mkPartitionMetadata (fun _ => None) [fun r => (nth 0 r 0 mod 3)%Z].

(** A table without a partition key whose schema check refuses every block. *)
Definition example_unpartitioned_strict : PartitionMetadata :=
  mkPartitionMetadata (fun _ => Some (OTHER_ERROR 0)) [].

Definition example_kv_block : Block :=
  [mkColumn [0; 1; 2; 3]%Z "k"; mkColumn [10; 11; 12; 13]%Z "v"].

Definition example_empty_block : Block := [mkColumn [] "k"].

Definition example_bwp : BlockWithPartition := mkBlockWithPartition example_block [0%Z].

(** A table [(k, s, d)] collapsing on the sign [s], and a block whose two rows
    cancel. *)
Definition example_collapsing_data : MergeTreeData :=
  mkData 1 0 (mkMergingParams Collapsing "s" [] "" []) "store/"
         (fun _ _ => Wide) (fun _ _ => Compact)
         (fun _ _ _ => Some "/disk1/") (fun _ _ => true) false.

Definition example_collapsing_metadata : StorageMetadata :=
  mkMetadata (mkPartitionMetadata (fun _ => None) [fun r => (nth 2 r 0 / 1000)%Z])
             ["d"%string] ["d"%string] ["k"; "s"; "d"]%string ["k"%string] false (fun b => b)
             None [] [] [] [] [] [].

Definition example_cancelling_bwp : BlockWithPartition :=
  mkBlockWithPartition
    [mkColumn [1; 1]%Z "k"; mkColumn [1; -1]%Z "s"; mkColumn [100; 100]%Z "d"] [0%Z].

(** The rows of [example_block] out of order, with a duplicate key. *)
Definition example_unsorted_bwp : BlockWithPartition :=
  mkBlockWithPartition
    [mkColumn [3; 1; 2; 1]%Z "k"; mkColumn [10; 20; 5; 6]%Z "v";
     mkColumn [100; 110; 105; 107]%Z "d"] [0%Z].

Definition column_values (block : Block) (n : string) : list Z :=
  match getByName block n with Some c => column c | None => [] end.

(** The table of the examples with a rows TTL on the day [d], a
    recompression TTL on the time [v] and a constant move TTL. *)
Definition example_ttl_metadata : StorageMetadata :=
  mkMetadata (mkPartitionMetadata (fun _ => None) [fun r => (nth 2 r 0 / 1000)%Z])
             ["d"%string] ["d"%string] ["k"; "v"; "d"]%string ["k"%string] false (fun b => b)
             (Some (mkTTLDescription "d" (fun b => ColumnUInt16 (column_values b "d"))))
             [] [] []
             [mkTTLDescription "v" (fun b => ColumnUInt32 (column_values b "v"))]
             [mkTTLDescription "now" (fun b => ColumnConst (ColumnUInt32 [5000%Z]) (rows b))]
             [].

(** The table of the examples with three projections: the column [k] alone,
    an aggregate over [k], and one that selects no row. *)
Definition example_projection_metadata : StorageMetadata :=
  mkMetadata (mkPartitionMetadata (fun _ => None) [fun r => (nth 2 r 0 / 1000)%Z])
             ["d"%string] ["d"%string] ["k"; "v"; "d"]%string ["k"%string] false (fun b => b)
             None [] [] [] [] []
             [mkProjection "only_k" Normal (fun b => [mkColumn (column_values b "k") "k"])
                           ["k"%string] [] false (fun b => b);
              mkProjection "by_k" Aggregate
                           (fun b => [mkColumn (column_values b "k") "k";
                                      mkColumn (column_values b "v") "v"])
                           ["k"; "v"]%string ["k"%string] false (fun b => b);
              mkProjection "nothing" Normal (fun b => [mkColumn [] "k"])
                           ["k"%string] [] false (fun b => b)].

(** The table of the examples in the format before custom partitioning. *)
Definition example_v0_data : MergeTreeData :=
  mkData 0 0 (mkMergingParams Ordinary "" [] "" []) "store/"
         (fun _ _ => Wide) (fun _ _ => Compact)
         (fun _ _ _ => Some "/disk1/") (fun _ _ => true) false.

(** One key column with three keys, the first of them on two rows. *)
Definition example_key_columns : list IColumn := [[0; 1; 0; 2]%Z].

(** The table of the examples with a move TTL whose expression is no date. *)
Definition example_bad_move_ttl_metadata : StorageMetadata :=
  mkMetadata (mkPartitionMetadata (fun _ => None) [fun r => (nth 2 r 0 / 1000)%Z])
             ["d"%string] ["d"%string] ["k"; "v"; "d"]%string ["k"%string] false (fun b => b)
             None [] [] [] []
             [mkTTLDescription "text" (fun _ => ColumnOfOtherType)]
             [].

(** A part on disk, an aggregate projection of its table, and the table with
    a volume that has no space left. *)
Definition example_parent : DataPart :=
  mkDataPart "all_42_42_0" Wide (mkPartInfo "all" 42 42 0) "/disk1/store/tmp_insert_all_42_42_0"
             ["k"; "v"; "d"]%string 3 [0%Z] (mkMinMaxIndex [mkRange 100%Z 110%Z] true) true
             TTLInfos_default [].

Definition example_projection : ProjectionDescription :=
  mkProjection "by_k" Aggregate
               (fun b => [mkColumn (column_values b "k") "k";
                          mkColumn (column_values b "v") "v"])
               ["k"; "v"]%string ["k"%string] false (fun b => b).

Definition example_full_data : MergeTreeData :=
  mkData 1 0 (mkMergingParams Ordinary "" [] "" []) "store/"
         (fun _ _ => Wide) (fun _ _ => Compact)
         (fun _ _ _ => None) (fun _ _ => false) false.

(** * Properties *)

(** ** Lists, blocks and outcomes *)

Lemma mapR_ok {A B} (f : A -> Result B) (g : A -> B) (l : list A) :
  (forall a, In a l -> f a = Ok (g a)) -> mapR f l = Ok (map g l).
Proof.
  induction l as [|a l IH]; intros H; simpl; [done|].
  rewrite (H a) by (by left). simpl. rewrite IH; [done|].
  intros b Hb. apply H. by right.
Qed.

Lemma cloneWithColumns_map (block : Block) (h : ColumnWithTypeAndName -> IColumn) :
  cloneWithColumns block (map h block) = map (fun c => mkColumn (h c) (name c)) block.
Proof. induction block as [|c block IH]; simpl; [done|]. by rewrite IH. Qed.

Lemma nth_map_lt {A B} (f : A -> B) (l : list A) (d : B) (d' : A) (k : nat) :
  k < length l -> nth k (map f l) d = f (nth k l d').
Proof.
  revert k. induction l as [|a l IH]; intros k H; simpl in *; [lia|].
  destruct k; [done|]. apply IH. lia.
Qed.

Lemma nth_map_seq {A} (f : nat -> A) (d : A) (n i : nat) :
  i < n -> nth i (map f (seq 0 n)) d = f i.
Proof.
  intros H. rewrite (nth_map_lt f _ d 0) by (by rewrite length_seq).
  by rewrite seq_nth.
Qed.

Lemma map_nth_seq {A} (l : list A) (d : A) :
  map (fun k => nth k l d) (seq 0 (length l)) = l.
Proof.
  apply (nth_ext _ _ d d).
  - by rewrite length_map, length_seq.
  - intros k Hk. rewrite length_map, length_seq in Hk. by rewrite nth_map_seq.
Qed.

Lemma block_rows_length (block : Block) : length (block_rows block) = rows block.
Proof. unfold block_rows. by rewrite length_map, length_seq. Qed.

Lemma block_rows_nth (block : Block) (j : nat) (d : Row) :
  j < rows block -> nth j (block_rows block) d = row_at (getColumns block) j.
Proof. intros H. unfold block_rows. by apply nth_map_seq. Qed.

(** The rows of a block whose columns are the values at the positions [idx]
    of the columns of [block]. *)
Lemma block_rows_select (block : Block) (idx : list nat) :
  block <> [] ->
  block_rows (map (fun c => mkColumn (map (fun i => nth i (column c) 0%Z) idx) (name c)) block)
  = map (row_at (getColumns block)) idx.
Proof.
  intros Hne. unfold block_rows.
  assert (Hrows : rows (map (fun c => mkColumn (map (fun i => nth i (column c) 0%Z) idx)
                                               (name c)) block) = length idx).
  { destruct block as [|c block]; [done|]. simpl. by rewrite length_map. }
  rewrite Hrows. rewrite <- (map_nth_seq idx 0) at 2. rewrite map_map.
  apply map_ext_in. intros k Hk. apply in_seq in Hk.
  unfold row_at, getColumns. rewrite !map_map. apply map_ext. intros c. simpl.
  apply (nth_map_lt (fun i => nth i (column c) 0%Z)). lia.
Qed.

(** Grouping the elements of a list by a number below [m] permutes the list. *)
Lemma group_cons {A} (g : A -> nat) (x : A) (l : list A) (a m : nat) :
  a <= g x < a + m ->
  Permutation (concat (map (fun p => List.filter (fun y => g y =? p) (x :: l)) (seq a m)))
              (x :: concat (map (fun p => List.filter (fun y => g y =? p) l) (seq a m))).
Proof.
  revert a. induction m as [|m IH]; intros a H; [lia|].
  simpl. destruct (g x =? a) eqn:E.
  - apply Nat.eqb_eq in E. simpl. apply perm_skip. apply Permutation_app_head.
    clear IH H. assert (Hlt : a < S a) by lia. revert Hlt. generalize (S a) as b.
    induction m as [|m IHm]; intros b Hb; simpl; [done|].
    assert ((g x =? b) = false) as -> by (apply Nat.eqb_neq; lia).
    apply Permutation_app_head. apply IHm. lia.
  - apply Nat.eqb_neq in E. rewrite IH by lia.
    by rewrite Permutation_middle.
Qed.

Lemma group_Permutation {A} (g : A -> nat) (l : list A) (m : nat) :
  (forall x, In x l -> g x < m) ->
  Permutation (concat (map (fun p => List.filter (fun y => g y =? p) l) (seq 0 m))) l.
Proof.
  induction l as [|x l IH]; intros H.
  - simpl. induction (seq 0 m); simpl; [done|]. done.
  - rewrite group_cons by (split; [lia|apply H; by left]).
    apply perm_skip, IH. intros y Hy. apply H. by right.
Qed.

(** Counting the distinct tuples through a hash that tells them apart. *)
Lemma collision_free_incl (h : Row -> Z) (l l' : list Row) :
  (forall a, In a l' -> In a l) -> collision_free h l -> collision_free h l'.
Proof. intros Hin Hfree a b Ha Hb. apply Hfree; by apply Hin. Qed.

Lemma size_hashes (h : Row -> Z) (l : list Row) :
  collision_free h l ->
  size (list_to_set (map h l) : gset Z) = distinct l.
Proof.
  unfold distinct. induction l as [|x l IH]; intros Hfree; [done|].
  assert (IH' : size (list_to_set (map h l) : gset Z) = length (remove_dups l)).
  { apply IH. eapply collision_free_incl; [|done]. intros a Ha. by right. }
  simpl. destruct (decide_rel elem_of x l) as [Hx|Hx].
  - rewrite <- IH'. f_equal.
    assert (h x ∈ (list_to_set (map h l) : gset Z)).
    { apply elem_of_list_to_set, list_elem_of_In, in_map, list_elem_of_In, Hx. }
    set_solver.
  - simpl. rewrite <- IH'. rewrite size_union, size_singleton; [done|].
    apply disjoint_singleton_l. intros Hin.
    apply elem_of_list_to_set, list_elem_of_In, in_map_iff in Hin as (y & Hy & Hyl).
    apply Hx. assert (y = x) as <-; [|by apply list_elem_of_In].
    apply Hfree; [by right|by left|done].
Qed.
Section ScatterProofs.

Variable hash128 : Row -> Z.
Variable columns : list IColumn.
Variable max_parts num_rows : nat.

Local Abbreviation key_of := (fun i => hash128 (row_at columns i)).
Local Abbreviation inv := (scatter_inv key_of max_parts num_rows).
Local Abbreviation step := (scatter_row hash128 columns max_parts num_rows).
Local Abbreviation loop := (scatter_loop hash128 columns max_parts num_rows).

Lemma scatter_inv_init : inv 0 scatter_init.
Proof.
  unfold scatter_inv; simpl. split; [done|]. split.
  { intros key p. split; [intros H; by rewrite lookup_empty in H|].
    intros (j & H & _). done. }
  split; [done|]. split; [intros; lia|]. split; [done|].
  split; [by rewrite dom_empty_L|]. split; [by rewrite map_size_empty|]. lia.
Qed.

Lemma keys_upto_S (f : nat -> Z) k : keys_upto f (S k) = keys_upto f k ∪ {[ f k ]}.
Proof.
  unfold keys_upto. rewrite seq_S, map_app, list_to_set_app_L. simpl. set_solver.
Qed.

Lemma scatter_row_inv k st st' :
  inv k st -> k < num_rows -> step k st = Ok st' -> inv (S k) st'.
Proof.
  intros (I1 & I2 & I3 & I4 & I5 & I6 & I7 & I8) Hk.
  unfold scatter_row.
  destruct (partitions_map st !! hash128 (row_at columns k)) as [mapped|] eqn:E.
  - (* the key is known *)
    intros [= <-].
    assert (Hcommon :
      forall sel, 
        let st' := mkScatter (partitions_map st) (partition_num_to_first_row st) sel
                             (partitions_count st) in
        (if 1 <? partitions_count st
         then length sel = num_rows /\
              forall j p, j < S k -> partitions_map st !! key_of j = Some p ->
                          sel !! j = Some (Some p)
         else sel = []) -> inv (S k) st').
    { intros sel st' Hsel. unfold scatter_inv; simpl.
      split; [done|]. split; [done|]. split; [intros p j H; apply I3 in H; lia|].
      split. { intros j Hj. destruct (decide (j = k)) as [->|]; [by rewrite E|]. apply I4. lia. }
      split; [done|]. split; [|done].
      rewrite keys_upto_S, <- I6.
      assert (key_of k ∈ dom (partitions_map st)) by (apply elem_of_dom; by rewrite E).
      set_solver. }
    destruct (1 <? partitions_count st) eqn:C.
    + apply (Hcommon (<[k := Some mapped]> (selector st))).
      destruct I5 as [L S]. split; [by rewrite length_insert|].
      intros j p Hj Hp. destruct (decide (j = k)) as [->|].
      * rewrite E in Hp. injection Hp as <-. apply list_lookup_insert_eq. lia.
      * rewrite list_lookup_insert_ne by done. apply S; [lia|done].
    + destruct st as [pm fr sel0 cnt]; simpl in *. by apply (Hcommon sel0).
  - (* a new key *)
    destruct (negb (max_parts =? 0) && (max_parts <=? partitions_count st)) eqn:G; [done|].
    intros [= <-].
    assert (Hbound : max_parts <> 0 -> S (partitions_count st) <= max_parts).
    { intros Hm. apply andb_false_iff in G as [G|G].
      - apply negb_false_iff, Nat.eqb_eq in G. done.
      - apply Nat.leb_gt in G. lia. }
    assert (Hlt : forall key p, partitions_map st !! key = Some p -> p < partitions_count st).
    { intros key p H. apply I2 in H as (j & H & _). apply lookup_lt_Some in H. lia. }
    assert (Hne : forall j, j < k -> key_of j <> key_of k).
    { intros j Hj Heq. apply I4 in Hj. rewrite Heq, E in Hj. by destruct Hj. }
    assert (Hcommon :
      forall sel,
        let st' := mkScatter (<[key_of k := partitions_count st]> (partitions_map st))
                             (partition_num_to_first_row st ++ [k]) sel
                             (S (partitions_count st)) in
        (if 1 <? S (partitions_count st)
         then length sel = num_rows /\
              forall j p, j < S k -> partitions_map st' !! key_of j = Some p ->
                          sel !! j = Some (Some p)
         else sel = []) -> inv (S k) st').
    { intros sel st' Hsel. unfold scatter_inv; simpl.
      split; [rewrite length_app; simpl; lia|].
      split.
      { intros key p. split.
        - intros H. destruct (decide (key_of k = key)) as [<-|Hd].
          + rewrite lookup_insert_eq in H. injection H as <-. exists k. split; [|done].
            rewrite I1. by rewrite lookup_app_r, Nat.sub_diag.
          + rewrite lookup_insert_ne in H by done. apply I2 in H as (j & H & Hkey).
            exists j. split; [|done]. by apply lookup_app_l_Some.
        - intros (j & H & <-). apply lookup_app_Some in H as [H|[Hlen H]].
          + assert (Hj : partitions_map st !! key_of j = Some p) by (apply I2; eauto).
            rewrite lookup_insert_ne; [done|]. intros Heq. cbv beta in *. congruence.
          + destruct (p - length (partition_num_to_first_row st)) as [|d] eqn:D; [|done].
            injection H as <-. rewrite lookup_insert_eq. f_equal. lia. }
      split.
      { intros p j H. apply lookup_app_Some in H as [H|[_ H]].
        - apply I3 in H. lia.
        - destruct (p - _) as [|d]; [|done]. injection H as <-. lia. }
      split.
      { intros j Hj. apply lookup_insert_is_Some'.
        destruct (decide (j = k)) as [->|]; [by left|]. right. apply I4. lia. }
      split; [done|].
      split. { rewrite dom_insert_L, keys_upto_S, I6. set_solver. }
      split; [|done]. rewrite map_size_insert_None by done. by rewrite I7. }
    cbv zeta.
    destruct (1 <? S (partitions_count st)) eqn:C.
    + apply (Hcommon (<[k := Some (partitions_count st)]>
                        (if S (partitions_count st) =? 2
                         then replicate k (Some 0) ++ replicate (num_rows - k) None
                         else selector st))).
      cbv zeta. cbn [partitions_map].
      destruct (S (partitions_count st) =? 2) eqn:C2.
      * apply Nat.eqb_eq in C2.
        split; [rewrite length_insert, length_app, !length_replicate; lia|].
        intros j p Hj Hp. destruct (decide (j = k)) as [->|].
        -- rewrite lookup_insert_eq in Hp. injection Hp as <-.
           apply list_lookup_insert_eq. rewrite length_app, !length_replicate. lia.
        -- rewrite lookup_insert_ne in Hp by (apply not_eq_sym, Hne; lia).
           apply Hlt in Hp. assert (p = 0) as -> by lia.
           rewrite list_lookup_insert_ne by done.
           rewrite lookup_app_l by (rewrite length_replicate; lia).
           apply lookup_replicate_2. lia.
      * apply Nat.eqb_neq in C2. apply Nat.ltb_lt in C.
        assert (C' : (1 <? partitions_count st) = true) by (apply Nat.ltb_lt; lia).
        rewrite C' in I5. destruct I5 as [L S].
        split; [by rewrite length_insert|].
        intros j p Hj Hp. destruct (decide (j = k)) as [->|].
        -- rewrite lookup_insert_eq in Hp. injection Hp as <-.
           apply list_lookup_insert_eq. lia.
        -- rewrite lookup_insert_ne in Hp by (apply not_eq_sym, Hne; lia).
           rewrite list_lookup_insert_ne by done. apply S; [lia|done].
    + apply Nat.ltb_ge in C.
      assert (C2 : (partitions_count st =? 1) = false) by (apply Nat.eqb_neq; lia).
      rewrite C2.
      apply (Hcommon (selector st)).
      assert (C'' : (1 <? partitions_count st) = false) by (apply Nat.ltb_ge; lia).
      by rewrite C'' in I5.
Qed.


Lemma scatter_row_throw k st e :
  step k st = Throw e ->
  e = TOO_MANY_PARTS /\ partitions_map st !! key_of k = None /\
  max_parts <> 0 /\ max_parts <= partitions_count st.
Proof.
  unfold scatter_row. destruct (partitions_map st !! _) eqn:E; [done|].
  destruct (negb (max_parts =? 0) && (max_parts <=? partitions_count st)) eqn:G; [|done].
  intros [= <-]. apply andb_true_iff in G as [G1 G2].
  apply negb_true_iff, Nat.eqb_neq in G1. apply Nat.leb_le in G2. done.
Qed.

Lemma scatter_row_defined k st : step k st <> Undefined.
Proof.
  unfold scatter_row. destruct (partitions_map st !! _); [done|].
  destruct (negb _ && _); done.
Qed.

Lemma scatter_loop_app l1 l2 st :
  loop (l1 ++ l2) st = let? st' := loop l1 st in loop l2 st'.
Proof.
  revert st. induction l1 as [|i l1 IH]; intros st; simpl; [done|].
  destruct (step i st); simpl; [apply IH|done|done].
Qed.

Lemma scatter_loop_defined l st : loop l st <> Undefined.
Proof.
  revert st. induction l as [|i l IH]; intros st; simpl; [done|].
  destruct (step i st) eqn:E; simpl; [apply IH|done|].
  by apply scatter_row_defined in E.
Qed.

Lemma scatter_loop_throw l st e : loop l st = Throw e -> e = TOO_MANY_PARTS.
Proof.
  revert st. induction l as [|i l IH]; intros st; simpl; [done|].
  destruct (step i st) eqn:E; simpl; [apply IH| |done].
  intros [= <-]. by apply scatter_row_throw in E as [-> _].
Qed.

(** The scan of the rows below [k] either went through, or stopped at the
    first row whose key was new when [max_parts] keys were known. *)
Lemma scatter_scan k :
  k <= num_rows ->
  (exists st, loop (seq 0 k) scatter_init = Ok st /\ inv k st) \/
  (exists i st, i < k /\ loop (seq 0 i) scatter_init = Ok st /\ inv i st /\
                step i st = Throw TOO_MANY_PARTS).
Proof.
  induction k as [|k IH]; intros Hk.
  - left. exists scatter_init. split; [done|apply scatter_inv_init].
  - destruct IH as [(st & Hst & Hinv)|(i & st & Hi & Hst & Hinv & Hthrow)]; [lia| |].
    + destruct (step k st) as [st'|e|] eqn:E.
      * left. exists st'. split.
        -- rewrite seq_S, scatter_loop_app, Hst. simpl. by rewrite E.
        -- eapply scatter_row_inv; eauto.
      * right. exists k, st. repeat split; [lia|done|apply Hinv..|].
        by apply scatter_row_throw in E as H; destruct H as [-> _].
      * by apply scatter_row_defined in E.
    + right. exists i, st. repeat split; [lia|done|apply Hinv..|done].
Qed.

Lemma scatter_loop_stops i st n :
  i < n -> loop (seq 0 i) scatter_init = Ok st -> step i st = Throw TOO_MANY_PARTS ->
  loop (seq 0 n) scatter_init = Throw TOO_MANY_PARTS.
Proof.
  intros Hi Hst Hthrow.
  replace n with (i + S (n - S i)) by lia.
  rewrite seq_app, scatter_loop_app, Hst. simpl. by rewrite Hthrow.
Qed.

Lemma keys_upto_mono (f : nat -> Z) i k : i <= k -> keys_upto f i ⊆ keys_upto f k.
Proof.
  intros H. replace k with (i + (k - i)) by lia. unfold keys_upto.
  rewrite seq_app, map_app, list_to_set_app_L. set_solver.
Qed.

Lemma scatter_inv_count k st : inv k st -> partitions_count st = size (keys_upto key_of k).
Proof. intros (_ & _ & _ & _ & _ & I6 & I7 & _). by rewrite <- I6, size_dom. Qed.

End ScatterProofs.

(** ** [splitBlockIntoParts] *)

Section SplitProofs.

Variable hash128 : Row -> Z.
Variable m : PartitionMetadata.
Variable block : Block.

Local Abbreviation pcols := (executePartitionByExpression m block).
Local Abbreviation tuples := (partition_tuples m block).
Local Abbreviation key_of := (fun i => hash128 (row_at pcols i)).
Local Abbreviation R := (row_at (getColumns block)).

Lemma partition_columns_shape :
  hasPartitionKey m = true ->
  exists c0 cs, pcols = c0 :: cs /\ length c0 = rows block.
Proof.
  unfold hasPartitionKey, executePartitionByExpression.
  destruct (partition_key_exprs m) as [|e es]; [done|]. intros _.
  eexists _, _. split; [done|]. by rewrite length_map, block_rows_length.
Qed.

Lemma row_at_partition_columns j :
  j < rows block -> row_at pcols j = partition_tuple m (R j).
Proof.
  intros Hj. unfold row_at at 1, executePartitionByExpression, partition_tuple.
  rewrite map_map. apply map_ext. intros e.
  rewrite (nth_map_lt e _ _ []) by (by rewrite block_rows_length).
  by rewrite block_rows_nth.
Qed.

Lemma tuples_nth j : j < rows block -> In (partition_tuple m (R j)) tuples.
Proof.
  intros Hj. unfold partition_tuples. apply in_map.
  unfold block_rows. apply in_map, in_seq. lia.
Qed.

Lemma keys_are_hashes k :
  k <= rows block -> map key_of (seq 0 k) = map hash128 (take k tuples).
Proof.
  intros Hk. unfold partition_tuples, block_rows.
  rewrite <- !fmap_take, take_seq, Nat.min_l by done.
  change (@fmap list _) with (@map) at 1. rewrite !map_map.
  apply map_ext_in. intros j Hj. apply in_seq in Hj.
  rewrite row_at_partition_columns by lia. done.
Qed.

Lemma size_keys_upto k :
  k <= rows block -> collision_free hash128 tuples ->
  size (keys_upto key_of k) = distinct (take k tuples).
Proof.
  intros Hk Hfree. unfold keys_upto. rewrite keys_are_hashes by done.
  apply size_hashes. eapply collision_free_incl; [|done].
  intros a Ha. apply list_elem_of_In. eapply (subseteq_take k).
  by apply list_elem_of_In.
Qed.

Lemma take_tuples_all : take (rows block) tuples = tuples.
Proof.
  apply take_ge. unfold partition_tuples. by rewrite length_map, block_rows_length.
Qed.


(** The sub-block of partition [p] under the selector [sel]. *)
Lemma tuple_of_row max_parts st j p :
  scatter_inv key_of max_parts (rows block) (rows block) st ->
  collision_free hash128 tuples ->
  j < rows block -> partitions_map st !! key_of j = Some p ->
  partition_tuple m (R j) = row_at pcols (nth p (partition_num_to_first_row st) 0).
Proof.
  intros (I1 & I2 & I3 & _) Hfree Hj Hp.
  apply I2 in Hp as (j0 & Hj0 & Hkey).
  rewrite (nth_lookup_Some _ _ _ _ Hj0).
  apply I3 in Hj0 as Hlt.
  rewrite (row_at_partition_columns j0) by done.
  symmetry. apply Hfree; [by apply tuples_nth..|].
  cbv beta in Hkey. by rewrite !row_at_partition_columns in Hkey.
Qed.

Lemma split_result max_parts st :
  rows block <> 0 -> block_wf block -> check m block = None -> hasPartitionKey m = true ->
  collision_free hash128 tuples ->
  buildScatterSelector hash128 pcols max_parts = Ok st ->
  scatter_inv key_of max_parts (rows block) (rows block) st ->
  exists parts,
    splitBlockIntoParts hash128 block max_parts m = Ok parts /\
    length parts = partitions_count st /\
    Permutation (concat (map (fun bp => block_rows (bwp_block bp)) parts)) (block_rows block) /\
    Forall (fun bp => Forall (fun r => partition_tuple m r = bwp_partition bp)
                             (block_rows (bwp_block bp))) parts.
Proof.
  intros Hrows Hwf Hcheck Hkey Hfree Hbuild Hinv.
  pose proof Hinv as (I1 & I2 & I3 & I4 & I5 & I6 & I7 & I8).
  assert (Hnull : is_null block = false) by (by destruct block).
  assert (Hlt : forall key p, partitions_map st !! key = Some p -> p < partitions_count st).
  { intros key p H. apply I2 in H as (j & H & _). apply lookup_lt_Some in H. lia. }
  unfold splitBlockIntoParts. rewrite Hnull. simpl.
  assert ((rows block =? 0) = false) as -> by (by apply Nat.eqb_neq).
  rewrite Hcheck, Hkey. simpl. rewrite Hbuild. simpl. rewrite <- I1.
  destruct (partitions_count st =? 1) eqn:C1.
  - apply Nat.eqb_eq in C1. eexists. split; [done|]. split; [by rewrite C1|].
    simpl. split; [by rewrite app_nil_r|].
    constructor; [|done]. simpl. apply Forall_forall. intros r Hr.
    unfold block_rows in Hr.
    apply list_elem_of_In, in_map_iff in Hr as (j & <- & Hj). apply in_seq in Hj.
    destruct (I4 j) as [p Hp]; [lia|].
    assert (p = 0) as -> by (apply Hlt in Hp; lia).
    eapply tuple_of_row; eauto. lia.
  - apply Nat.eqb_neq in C1.
    assert (Hpos : 1 < partitions_count st).
    { destruct (I4 0) as [p Hp]; [lia|]. apply Hlt in Hp. lia. }
    assert (C : (1 <? partitions_count st) = true) by (by apply Nat.ltb_lt).
    rewrite C in I5. destruct I5 as [Hlen Hsel].
    set (sel := map (fun j => default 0 (partitions_map st !! key_of j)) (seq 0 (rows block))).
    assert (Hsel_len : length sel = rows block) by (unfold sel; by rewrite length_map, length_seq).
    assert (Hsel_nth : forall j, j < rows block ->
              partitions_map st !! key_of j = Some (nth j sel 0)).
    { intros j Hj. unfold sel. rewrite nth_map_seq by done.
      destruct (I4 j Hj) as [p Hp]. by rewrite Hp. }
    assert (Hselector : selector st = Some <$> sel).
    { apply list_eq. intros j. destruct (decide (j < rows block)) as [Hj|Hj].
      - pose proof (Hsel j (nth j sel 0) Hj (Hsel_nth j Hj)) as ->.
        rewrite list_lookup_fmap.
        assert (Hx : is_Some (sel !! j)) by (apply lookup_lt_is_Some; lia).
        destruct Hx as [x Hx]. rewrite Hx. simpl. do 2 f_equal.
        by apply nth_lookup_Some.
      - rewrite !lookup_ge_None_2; [done|rewrite length_fmap; lia|lia]. }
    assert (HmapM : mapM id (selector st) = Some sel).
    { rewrite Hselector. by apply mapM_fmap_Some. }
    assert (Hall : forallb (fun s => s <? partitions_count st) sel = true).
    { apply forallb_forall. intros s Hs. apply Nat.ltb_lt.
      apply (In_nth _ _ 0) in Hs as (j & Hj & <-). rewrite Hsel_len in Hj.
      eapply Hlt, Hsel_nth, Hj. }
    set (G := fun c : ColumnWithTypeAndName =>
                map (fun p => map (fun i => nth i (column c) 0%Z) (indices_of p sel))
                    (seq 0 (partitions_count st))).
    rewrite (mapR_ok _ G).
    2:{ intros c Hc. unfold scatter.
        unfold block_wf in Hwf. rewrite Forall_forall in Hwf.
        rewrite (Hwf c) by (by apply list_elem_of_In).
        rewrite Hlen, Nat.eqb_refl. simpl. by rewrite HmapM, Hall. }
    simpl. eexists. split; [done|]. split; [by rewrite length_map, length_seq|].
    assert (Hsub : forall p, p < partitions_count st ->
      block_rows (cloneWithColumns block (map (fun cols => nth p cols []) (map G block)))
      = map R (indices_of p sel)).
    { intros p Hp. rewrite map_map.
      rewrite (map_ext _ (fun c => map (fun i => nth i (column c) 0%Z) (indices_of p sel))).
      2:{ intros c. unfold G. by rewrite nth_map_seq. }
      rewrite cloneWithColumns_map. apply block_rows_select. by destruct block. }
    split.
    + rewrite map_map. simpl.
      rewrite (map_ext_in _ (fun p => map R (indices_of p sel))).
      2:{ intros p Hp. apply in_seq in Hp. apply Hsub. lia. }
      rewrite <- (map_map (fun p => indices_of p sel) (map R)), <- concat_map.
      unfold block_rows. apply Permutation_map.
      unfold indices_of. rewrite Hsel_len.
      apply (group_Permutation (fun j => nth j sel 0)).
      intros j Hj. apply in_seq in Hj. eapply Hlt, Hsel_nth. lia.
    + apply Forall_forall. intros bp Hbp.
      apply list_elem_of_In, in_map_iff in Hbp as (p & <- & Hp). apply in_seq in Hp.
      simpl. rewrite Hsub by lia. apply Forall_forall. intros r Hr.
      apply list_elem_of_In, in_map_iff in Hr as (j & <- & Hj).
      unfold indices_of in Hj. apply filter_In in Hj as [Hj Hjp].
      apply in_seq in Hj. rewrite Hsel_len in Hj. apply Nat.eqb_eq in Hjp.
      eapply tuple_of_row; eauto; [lia|]. rewrite <- Hjp. apply Hsel_nth. lia.
Qed.


Lemma build_cases max_parts :
  hasPartitionKey m = true ->
  (exists st, buildScatterSelector hash128 pcols max_parts = Ok st /\
              scatter_inv key_of max_parts (rows block) (rows block) st) \/
  (buildScatterSelector hash128 pcols max_parts = Throw TOO_MANY_PARTS /\
   exists i st, i < rows block /\
     scatter_loop hash128 pcols max_parts (rows block) (seq 0 i) scatter_init = Ok st /\
     scatter_inv key_of max_parts (rows block) i st /\
     scatter_row hash128 pcols max_parts (rows block) i st = Throw TOO_MANY_PARTS).
Proof.
  intros Hkey. destruct (partition_columns_shape Hkey) as (c0 & cs & Hcols & Hlen).
  unfold buildScatterSelector. rewrite Hcols, Hlen, <- Hcols.
  destruct (scatter_scan hash128 pcols max_parts (rows block) (rows block))
    as [(st & Hst & Hinv)|(i & st & Hi & Hst & Hinv & Hthrow)]; [lia| |].
  - left. by exists st.
  - right. split; [by eapply scatter_loop_stops|]. by exists i, st.
Qed.

Lemma distinct_constant (l : list Row) (c : Row) :
  l <> [] -> (forall x, In x l -> x = c) -> distinct l = 1.
Proof.
  unfold distinct. induction l as [|x l IH]; intros Hne Hall; [done|].
  simpl. destruct (decide_rel elem_of x l) as [Hx|Hx].
  - apply IH; [by destruct l; [inversion Hx|]|]. intros y Hy. apply Hall. by right.
  - destruct l as [|y l]; [done|]. exfalso. apply Hx.
    rewrite (Hall x), <- (Hall y); [by left|right; by left|by left].
Qed.

Lemma distinct_take_le k (l : list Row) (h : Row -> Z) :
  collision_free h l -> distinct (take k l) <= distinct l.
Proof.
  intros Hfree.
  assert (Hsub : forall a, In a (take k l) -> In a l).
  { intros a Ha. apply list_elem_of_In. eapply (subseteq_take k). by apply list_elem_of_In. }
  rewrite <- (size_hashes h (take k l)), <- (size_hashes h l);
    [|done|by eapply collision_free_incl].
  apply subseteq_size. intros x Hx. apply elem_of_list_to_set. apply elem_of_list_to_set in Hx.
  apply list_elem_of_In, in_map_iff in Hx as (a & <- & Ha).
  apply list_elem_of_In, in_map, Hsub, Ha.
Qed.

End SplitProofs.

(** C10: on a null block and on a block with zero rows [splitBlockIntoParts]
    returns the empty sequence, whatever the metadata: the schema check is not
    consulted, the partition key is not evaluated, and a table without a
    partition key does not get the pair of the block and the empty tuple. *)
Theorem splitBlockIntoParts_empty_input (hash128 : Row -> Z) (block : Block)
    (max_parts : nat) (m : PartitionMetadata) :
  is_null block = true \/ rows block = 0 ->
  splitBlockIntoParts hash128 block max_parts m = Ok [] /\
  splitBlockIntoParts hash128 block max_parts m <> Ok [mkBlockWithPartition block []].
Proof.
  intros H. assert (E : splitBlockIntoParts hash128 block max_parts m = Ok []).
  { unfold splitBlockIntoParts. destruct H as [-> | ->]; [done|]. by rewrite orb_true_r. }
  split; [done|]. by rewrite E.
Qed.

(** C2: with [max_parts > 0], [splitBlockIntoParts] throws TOO_MANY_PARTS
    exactly when the block has more than [max_parts] distinct partition
    tuples, and it does so in the scan, at the row [i] that brings the
    [(max_parts+1)]-th distinct tuple: the rows before [i] are scanned without
    error and hold [max_parts] distinct tuples, and the iteration for row [i]
    throws.  With [max_parts = 0] every number of partitions is accepted. *)
Theorem splitBlockIntoParts_too_many_parts (hash128 : Row -> Z) (block : Block)
    (max_parts : nat) (m : PartitionMetadata) :
  rows block <> 0 -> block_wf block -> check m block = None ->
  collision_free hash128 (partition_tuples m block) ->
  let tuples := partition_tuples m block in
  let columns := executePartitionByExpression m block in
  (max_parts = 0 \/ distinct tuples <= max_parts ->
     exists parts, splitBlockIntoParts hash128 block max_parts m = Ok parts /\
                   length parts = distinct tuples) /\
  (max_parts <> 0 -> max_parts < distinct tuples ->
     splitBlockIntoParts hash128 block max_parts m = Throw TOO_MANY_PARTS /\
     exists i st, i < rows block /\
       distinct (take i tuples) = max_parts /\
       distinct (take (S i) tuples) = S max_parts /\
       scatter_loop hash128 columns max_parts (rows block) (seq 0 i) scatter_init = Ok st /\
       partitions_count st = max_parts /\
       scatter_row hash128 columns max_parts (rows block) i st = Throw TOO_MANY_PARTS).
Proof.
  intros Hrows Hwf Hcheck Hfree tuples columns. subst tuples columns.
  assert (Hnull : is_null block = false) by (by destruct block).
  destruct (hasPartitionKey m) eqn:Hkey.
  - destruct (build_cases hash128 m block max_parts Hkey)
      as [(st & Hst & Hinv)|(Hthrow & i & st & Hi & Hst & Hinv & Hrow)].
    + (* the scan went through *)
      assert (Hcount : partitions_count st = distinct (partition_tuples m block)).
      { rewrite (scatter_inv_count _ _ _ _ _ _ Hinv).
        rewrite size_keys_upto by done. by rewrite take_tuples_all. }
      split.
      * intros _. destruct (split_result hash128 m block max_parts st)
          as (parts & Hparts & Hlen & _); try done.
        exists parts. split; [done|]. by rewrite Hlen.
      * intros Hm Hlt. destruct Hinv as (_ & _ & _ & _ & _ & _ & _ & I8).
        specialize (I8 Hm). lia.
    + (* the scan stopped at row [i] *)
      apply scatter_row_throw in Hrow as Hwhy. destruct Hwhy as (_ & Hnew & Hm & Hge).
      assert (Hcount : partitions_count st = distinct (take i (partition_tuples m block))).
      { rewrite (scatter_inv_count _ _ _ _ _ _ Hinv).
        rewrite size_keys_upto by (done || lia). done. }
      assert (Hmax : partitions_count st = max_parts).
      { destruct Hinv as (_ & _ & _ & _ & _ & _ & _ & I8). specialize (I8 Hm). lia. }
      assert (Hnext : distinct (take (S i) (partition_tuples m block)) = S max_parts).
      { rewrite <- (size_keys_upto hash128) by (done || lia). rewrite keys_upto_S.
        rewrite size_union, size_singleton.
        - rewrite size_keys_upto by (done || lia). lia.
        - apply disjoint_singleton_r.
          destruct Hinv as (_ & _ & _ & _ & _ & I6 & _). rewrite <- I6.
          by apply not_elem_of_dom. }
      assert (Hle : S max_parts <= distinct (partition_tuples m block)).
      { rewrite <- Hnext. by eapply distinct_take_le. }
      split.
      * intros [H0|H0]; [done|]. lia.
      * intros _ _. split.
        -- unfold splitBlockIntoParts. rewrite Hnull. simpl.
           assert ((rows block =? 0) = false) as -> by (by apply Nat.eqb_neq).
           rewrite Hcheck, Hkey. simpl. by rewrite Hthrow.
        -- exists i, st. repeat split; try done. lia.
  - (* the table is not partitioned *)
    assert (Hone : distinct (partition_tuples m block) = 1).
    { unfold partition_tuples. apply (distinct_constant _ []).
      - assert (length (block_rows block) <> 0) by (by rewrite block_rows_length).
        destruct (block_rows block); [done|]. done.
      - intros x Hx. apply in_map_iff in Hx as (r & <- & _).
        unfold partition_tuple. unfold hasPartitionKey in Hkey.
        by destruct (partition_key_exprs m). }
    split.
    + intros _. exists [mkBlockWithPartition block []]. split; [|by rewrite Hone].
      unfold splitBlockIntoParts. rewrite Hnull. simpl.
      assert ((rows block =? 0) = false) as -> by (by apply Nat.eqb_neq).
      by rewrite Hcheck, Hkey.
    + intros Hm Hlt. lia.
Qed.

(** C3: the sub-blocks [splitBlockIntoParts] returns hold the rows of the
    block, each as often as the block has it, and every row of a sub-block
    has the partition tuple the sub-block is paired with. *)
Theorem splitBlockIntoParts_partitions (hash128 : Row -> Z) (block : Block)
    (max_parts : nat) (m : PartitionMetadata) (parts : list BlockWithPartition) :
  rows block <> 0 -> block_wf block ->
  collision_free hash128 (partition_tuples m block) ->
  splitBlockIntoParts hash128 block max_parts m = Ok parts ->
  Permutation (concat (map (fun bp => block_rows (bwp_block bp)) parts)) (block_rows block) /\
  Forall (fun bp => Forall (fun r => partition_tuple m r = bwp_partition bp)
                           (block_rows (bwp_block bp))) parts.
Proof.
  intros Hrows Hwf Hfree Hsplit.
  assert (Hnull : is_null block = false) by (by destruct block).
  assert (Hcheck : check m block = None).
  { unfold splitBlockIntoParts in Hsplit. rewrite Hnull in Hsplit. simpl in Hsplit.
    assert ((rows block =? 0) = false) as E by (by apply Nat.eqb_neq).
    rewrite E in Hsplit. by destruct (check m block). }
  destruct (hasPartitionKey m) eqn:Hkey.
  - destruct (build_cases hash128 m block max_parts Hkey)
      as [(st & Hst & Hinv)|(Hthrow & _)].
    + destruct (split_result hash128 m block max_parts st)
        as (parts' & Hparts & _ & Hperm & Hall); try done.
      rewrite Hparts in Hsplit. by injection Hsplit as <-.
    + unfold splitBlockIntoParts in Hsplit. rewrite Hnull in Hsplit. simpl in Hsplit.
      assert ((rows block =? 0) = false) as E by (by apply Nat.eqb_neq).
      rewrite E, Hcheck, Hkey in Hsplit. simpl in Hsplit. by rewrite Hthrow in Hsplit.
  - unfold splitBlockIntoParts in Hsplit. rewrite Hnull in Hsplit. simpl in Hsplit.
    assert ((rows block =? 0) = false) as E by (by apply Nat.eqb_neq).
    rewrite E, Hcheck, Hkey in Hsplit. simpl in Hsplit. injection Hsplit as <-.
    simpl. split; [by rewrite app_nil_r|].
    constructor; [|done]. simpl. apply Forall_forall. intros r _.
    unfold partition_tuple. unfold hasPartitionKey in Hkey.
    by destruct (partition_key_exprs m).
Qed.

(** ** [updateTTL] *)

Section TTLProofs.

Variable date_lut : DateLUTImpl.

Lemma get_set_slot_eq infos s v : get_slot (set_slot infos s v) s = v.
Proof. destruct s; simpl; unfold map_at; rewrite ?lookup_insert_eq; done. Qed.

Lemma get_set_slot_ne infos s s' v :
  s <> s' -> get_slot (set_slot infos s v) s' = get_slot infos s'.
Proof.
  destruct s, s'; simpl; try done; intros H; unfold map_at;
    rewrite lookup_insert_ne; congruence.
Qed.

Lemma get_slot_updatePartMinMaxTTL infos a b s :
  get_slot (updatePartMinMaxTTL infos a b) s = get_slot infos s.
Proof. by destruct s. Qed.

Lemma part_ttl_set_slot infos s v :
  part_min_ttl (set_slot infos s v) = part_min_ttl infos /\
  part_max_ttl (set_slot infos s v) = part_max_ttl infos.
Proof. by destruct s. Qed.

Lemma wider_refl a : wider a a.
Proof. unfold wider. lia. Qed.

Lemma wider_trans a b c : wider a b -> wider b c -> wider a c.
Proof. unfold wider. lia. Qed.

Lemma wider_covers a b t : wider a b -> ttl_covers a t -> ttl_covers b t.
Proof. unfold wider, ttl_covers. lia. Qed.

Lemma TTLInfo_update_wider info t :
  wider info (TTLInfo_update info t) /\ ttl_covers (TTLInfo_update info t) t.
Proof. unfold wider, ttl_covers, TTLInfo_update. simpl. lia. Qed.

Lemma fold_update_covers (f : Z -> Z) (data : list Z) (info : MergeTreeDataPartTTLInfo) :
  wider info (fold_left (fun acc val => TTLInfo_update acc (f val)) data info) /\
  forall val, In val data ->
    ttl_covers (fold_left (fun acc val => TTLInfo_update acc (f val)) data info) (f val).
Proof.
  revert info. induction data as [|x data IH]; intros info; simpl.
  - split; [apply wider_refl|done].
  - destruct (IH (TTLInfo_update info (f x))) as [Hw Hc].
    destruct (TTLInfo_update_wider info (f x)) as [Hw0 Hc0].
    split; [by eapply wider_trans|].
    intros val [<-|Hin]; [by eapply wider_covers|by apply Hc].
Qed.

(** What one call of [updateTTL] does to the infos. *)
Lemma updateTTL_spec ttl_entry infos0 slot block flag infos1 :
  updateTTL date_lut ttl_entry infos0 slot block flag = Ok infos1 ->
  wider (get_slot infos0 slot) (get_slot infos1 slot) /\
  (forall t, In t (ttl_row_times date_lut (expression ttl_entry block)) ->
             ttl_covers (get_slot infos1 slot) t) /\
  (forall s, s <> slot -> get_slot infos1 s = get_slot infos0 s) /\
  (if flag
   then part_min_ttl infos1 = Z.min (part_min_ttl infos0) (ttl_min (get_slot infos1 slot)) /\
        part_max_ttl infos1 = Z.max (part_max_ttl infos0) (ttl_max (get_slot infos1 slot))
   else part_min_ttl infos1 = part_min_ttl infos0 /\
        part_max_ttl infos1 = part_max_ttl infos0).
Proof.
  unfold updateTTL.
  set (info := get_slot infos0 slot).
  assert (Hfold : forall info',
    wider info info' ->
    (forall t, In t (ttl_row_times date_lut (expression ttl_entry block)) ->
               ttl_covers info' t) ->
    Ok (if flag
        then updatePartMinMaxTTL (set_slot infos0 slot info') (ttl_min info') (ttl_max info')
        else set_slot infos0 slot info') = Ok infos1 ->
    wider info (get_slot infos1 slot) /\
    (forall t, In t (ttl_row_times date_lut (expression ttl_entry block)) ->
               ttl_covers (get_slot infos1 slot) t) /\
    (forall s, s <> slot -> get_slot infos1 s = get_slot infos0 s) /\
    (if flag
     then part_min_ttl infos1 = Z.min (part_min_ttl infos0) (ttl_min (get_slot infos1 slot)) /\
          part_max_ttl infos1 = Z.max (part_max_ttl infos0) (ttl_max (get_slot infos1 slot))
     else part_min_ttl infos1 = part_min_ttl infos0 /\
          part_max_ttl infos1 = part_max_ttl infos0)).
  { intros info' Hw Hc [= <-].
    assert (Hget : get_slot (if flag
        then updatePartMinMaxTTL (set_slot infos0 slot info') (ttl_min info') (ttl_max info')
        else set_slot infos0 slot info') slot = info').
    { destruct flag; [rewrite get_slot_updatePartMinMaxTTL|]; apply get_set_slot_eq. }
    rewrite Hget. split; [done|]. split; [done|]. split.
    - intros s Hs. destruct flag; [rewrite get_slot_updatePartMinMaxTTL|];
        by apply get_set_slot_ne.
    - destruct (part_ttl_set_slot infos0 slot info') as [E1 E2].
      destruct flag; simpl; by rewrite ?E1, ?E2. }
  destruct (expression ttl_entry block) as [data|data|inner size|] eqn:E; simpl.
  - apply Hfold; [apply (fold_update_covers (fun v => fromDayNum date_lut (DayNum v)))|].
    intros t Ht. apply in_map_iff in Ht as (v & <- & Hv).
    by apply (fold_update_covers (fun v => fromDayNum date_lut (DayNum v))).
  - apply Hfold; [apply (fold_update_covers (fun v => v))|].
    intros t Ht. by apply (fold_update_covers (fun v => v)).
  - destruct inner as [data|data| |]; simpl; try done.
    + apply Hfold; [apply TTLInfo_update_wider|].
      intros t Ht. apply list_elem_of_In, elem_of_replicate in Ht as [-> _].
      apply TTLInfo_update_wider.
    + apply Hfold; [apply TTLInfo_update_wider|].
      intros t Ht. apply list_elem_of_In, elem_of_replicate in Ht as [-> _].
      apply TTLInfo_update_wider.
  - done.
Qed.


Lemma updateTTL_shape ttl_entry infos0 slot block flag infos1 :
  updateTTL date_lut ttl_entry infos0 slot block flag = Ok infos1 ->
  exists info',
    infos1 = if flag
             then updatePartMinMaxTTL (set_slot infos0 slot info') (ttl_min info')
                                      (ttl_max info')
             else set_slot infos0 slot info'.
Proof.
  unfold updateTTL.
  match goal with |- bindR ?m _ = _ -> _ => destruct m as [info'| |] end;
    cbn [bindR]; try done.
  intros H. exists info'. congruence.
Qed.

Lemma updateTTL_moves ttl_entry infos0 slot block flag infos1 :
  (forall k, slot <> slot_moves_ttl k) ->
  updateTTL date_lut ttl_entry infos0 slot block flag = Ok infos1 ->
  moves_ttl infos1 = moves_ttl infos0.
Proof.
  intros Hs H. apply updateTTL_shape in H. destruct H as [info' H]. subst infos1.
  destruct flag, slot; simpl; try done; exfalso; by eapply Hs.
Qed.

End TTLProofs.

Section TTLStageProofs.

Variable env : Collaborators.

Lemma ttl_extends_refl infos : ttl_extends infos infos.
Proof. unfold ttl_extends. split; [intros; apply wider_refl|lia]. Qed.

Lemma ttl_extends_trans a b c : ttl_extends a b -> ttl_extends b c -> ttl_extends a c.
Proof.
  intros (H1 & H2 & H3) (H4 & H5 & H6). split; [|lia].
  intros s. eapply wider_trans; [apply H1|apply H4].
Qed.

Lemma ttl_covered_extends block part_wide entries a b :
  ttl_extends a b -> ttl_covered (date_lut env) block part_wide entries a ->
  ttl_covered (date_lut env) block part_wide entries b.
Proof.
  intros (H1 & H2 & H3) Hc s e t Hin Ht. destruct (Hc s e t Hin Ht) as [Hs Hp].
  split; [by eapply wider_covers|].
  intros Hw. specialize (Hp Hw). unfold part_ttl_covers in *. lia.
Qed.

Lemma updateTTL_extends ttl_entry infos0 slot block flag infos1 :
  updateTTL (date_lut env) ttl_entry infos0 slot block flag = Ok infos1 ->
  ttl_extends infos0 infos1 /\
  ttl_covered (date_lut env) block flag [(slot, ttl_entry)] infos1 /\
  (flag = false -> part_min_ttl infos1 = part_min_ttl infos0 /\
                   part_max_ttl infos1 = part_max_ttl infos0).
Proof.
  intros H. apply updateTTL_spec in H as (Hw & Hc & Hother & Hpart).
  split; [|split].
  - split.
    + intros s. destruct (decide (s = slot)) as [->|Hs]; [done|].
      rewrite Hother by done. apply wider_refl.
    + destruct flag; lia.
  - intros s e t [[= <- <-]|[]] Ht. split; [by apply Hc|].
    intros ->. specialize (Hc t Ht). unfold part_ttl_covers, ttl_covers in *. lia.
  - intros ->. done.
Qed.

Lemma updateTTLs_extends entries infos0 block flag infos1 :
  updateTTLs env entries infos0 block flag = Ok infos1 ->
  ttl_extends infos0 infos1 /\
  ttl_covered (date_lut env) block flag entries infos1 /\
  (flag = false -> part_min_ttl infos1 = part_min_ttl infos0 /\
                   part_max_ttl infos1 = part_max_ttl infos0).
Proof.
  revert infos0. induction entries as [|[slot e] entries IH]; intros infos0; simpl.
  - intros [= <-]. split; [apply ttl_extends_refl|]. split; [by intros s e t []|done].
  - destruct (updateTTL (date_lut env) e infos0 slot block flag) as [infos'| |] eqn:E;
      simpl; try done.
    intros H. apply IH in H as (Hext & Hcov & Hpart).
    apply updateTTL_extends in E as (Hext0 & Hcov0 & Hpart0).
    split; [by eapply ttl_extends_trans|]. split.
    + intros s e' t [[= <- <-]|Hin] Ht; [|by eapply Hcov].
      eapply ttl_covered_extends; [done|done|by left|done].
    + intros Hf. destruct (Hpart Hf), (Hpart0 Hf). split; congruence.
Qed.

Lemma updateTTLs_app l1 l2 infos block flag :
  updateTTLs env (l1 ++ l2) infos block flag =
  let? infos' := updateTTLs env l1 infos block flag in updateTTLs env l2 infos' block flag.
Proof.
  revert infos. induction l1 as [|[s e] l1 IH]; intros infos; simpl; [done|].
  destruct (updateTTL (date_lut env) e infos s block flag); simpl; [apply IH|done|done].
Qed.

Lemma updateTTLs_moves entries infos0 block flag infos1 :
  (forall s e k, In (s, e) entries -> s <> slot_moves_ttl k) ->
  updateTTLs env entries infos0 block flag = Ok infos1 ->
  moves_ttl infos1 = moves_ttl infos0.
Proof.
  revert infos0. induction entries as [|[slot e] entries IH]; intros infos0 Hs; simpl.
  - by intros [= <-].
  - destruct (updateTTL (date_lut env) e infos0 slot block flag) as [infos'| |] eqn:E;
      simpl; try done.
    intros H. apply IH in H; [|intros s e' k Hin; apply (Hs s e'); by right].
    apply updateTTL_moves in E; [congruence|]. intros k. apply (Hs slot e). by left.
Qed.

(** The TTL stage of the part is the fold of the rows categories, then of
    the recompression entries, then the merge of the move infos. *)
Lemma part_ttl_stage_unfold md block mv :
  part_ttl_stage env md block mv =
  let? infos4 := updateTTLs env (rows_category_ttls md) TTLInfos_default block true in
  let? infos5 := updateTTLs env (by_result_column slot_recompression_ttl
                                   (recompression_ttls md)) infos4 block false in
  Ok (TTLInfos_update infos5 mv).
Proof.
  unfold part_ttl_stage, rows_category_ttls. rewrite updateTTLs_app.
  assert (Hrest : forall a,
    (let? infos := updateTTLs env (by_result_column slot_group_by_ttl (group_by_ttls md))
                              a block true in
     let? infos := updateTTLs env (by_result_column slot_rows_where_ttl
                                     (rows_where_ttls md)) infos block true in
     let? infos := updateTTLs env (map (fun '(n, e) => (slot_columns_ttl n, e))
                                     (column_ttls md)) infos block true in
     let? infos := updateTTLs env (by_result_column slot_recompression_ttl
                                     (recompression_ttls md)) infos block false in
     Ok (TTLInfos_update infos mv)) =
    (let? infos4 := updateTTLs env
                      (by_result_column slot_group_by_ttl (group_by_ttls md) ++
                       by_result_column slot_rows_where_ttl (rows_where_ttls md) ++
                       map (fun '(n, e) => (slot_columns_ttl n, e)) (column_ttls md))
                      a block true in
     let? infos5 := updateTTLs env (by_result_column slot_recompression_ttl
                                      (recompression_ttls md)) infos4 block false in
     Ok (TTLInfos_update infos5 mv))).
  { intros a. rewrite updateTTLs_app.
    destruct (updateTTLs env (by_result_column slot_group_by_ttl (group_by_ttls md))
                a block true) as [a1| |]; cbn [bindR]; try done.
    rewrite updateTTLs_app.
    destruct (updateTTLs env (by_result_column slot_rows_where_ttl (rows_where_ttls md))
                a1 block true) as [a2| |]; cbn [bindR]; try done. }
  destruct (rows_ttl md) as [e|]; cbn [updateTTLs bindR].
  - destruct (updateTTL (date_lut env) e TTLInfos_default slot_table_ttl block true);
      cbn [bindR]; try done.
  - apply Hrest.
Qed.


Lemma rows_category_slots md s e k :
  In (s, e) (rows_category_ttls md) -> s <> slot_moves_ttl k.
Proof.
  unfold rows_category_ttls, by_result_column. rewrite !in_app_iff, !in_map_iff.
  intros [H|[H|[H|H]]].
  - destruct (rows_ttl md); [|done]. by destruct H as [[= <- <-]|[]].
  - by destruct H as (x & [= <- <-] & _).
  - by destruct H as (x & [= <- <-] & _).
  - destruct H as ([n x] & H & _). by injection H as <- <-.
Qed.

Lemma recompression_slots (entries : list TTLDescription) s e k :
  In (s, e) (by_result_column slot_recompression_ttl entries) -> s <> slot_moves_ttl k.
Proof.
  unfold by_result_column. rewrite in_map_iff. by intros (x & [= <- <-] & _).
Qed.

Lemma get_slot_TTLInfos_update infos mv s :
  (forall k, s <> slot_moves_ttl k) -> get_slot (TTLInfos_update infos mv) s = get_slot infos s.
Proof. intros H. destruct s; try done. exfalso. by eapply H. Qed.

Lemma get_slot_TTLInfos_update_moves infos mv k :
  moves_ttl infos = ∅ ->
  get_slot (TTLInfos_update infos mv) (slot_moves_ttl k) = get_slot mv (slot_moves_ttl k).
Proof.
  intros H. simpl. rewrite H. unfold map_at. rewrite lookup_union_with, lookup_empty.
  by destruct (moves_ttl mv !! k).
Qed.

(** What the TTL stage of [writeTempPart] leaves in the part. *)
Lemma part_ttl_stage_spec md block mv infos :
  updateTTLs env (by_result_column slot_moves_ttl (move_ttls md)) TTLInfos_default block false
    = Ok mv ->
  part_ttl_stage env md block mv = Ok infos ->
  ttl_covered (date_lut env) block true (rows_category_ttls md) infos /\
  ttl_covered (date_lut env) block false (move_and_recompression_ttls md) infos /\
  exists infos0,
    part_ttl_stage env (without_move_and_recompression md) block TTLInfos_default = Ok infos0 /\
    part_min_ttl infos = part_min_ttl infos0 /\ part_max_ttl infos = part_max_ttl infos0.
Proof.
  intros Hmv. rewrite !part_ttl_stage_unfold.
  change (rows_category_ttls (without_move_and_recompression md))
    with (rows_category_ttls md).
  cbn [recompression_ttls without_move_and_recompression].
  destruct (updateTTLs env (rows_category_ttls md) TTLInfos_default block true)
    as [i4| |] eqn:E4; cbn [bindR]; try done.
  destruct (updateTTLs env (by_result_column slot_recompression_ttl (recompression_ttls md))
              i4 block false) as [i5| |] eqn:E5; cbn [bindR]; try done.
  intros [= <-].
  pose proof (updateTTLs_extends _ _ _ _ _ E4) as (_ & Hcov4 & _).
  pose proof (updateTTLs_extends _ _ _ _ _ E5) as (Hext5 & Hcov5 & Hpart5).
  pose proof (updateTTLs_extends _ _ _ _ _ Hmv) as (_ & Hcovm & _).
  destruct (Hpart5 eq_refl) as [Hmin Hmax].
  assert (Hmoves : moves_ttl i5 = ∅).
  { erewrite (updateTTLs_moves _ i4 _ _ i5); [|by intros; eapply recompression_slots|done].
    erewrite (updateTTLs_moves _ TTLInfos_default _ _ i4);
      [done|by intros; eapply rows_category_slots|done]. }
  split; [|split].
  - intros s e t Hin Ht.
    destruct (ttl_covered_extends _ _ _ _ _ Hext5 Hcov4 s e t Hin Ht) as [Hs Hp].
    split.
    + rewrite get_slot_TTLInfos_update; [done|]. intros k. by eapply rows_category_slots.
    + intros _. apply Hp. done.
  - intros s e t Hin Ht. split; [|done].
    unfold move_and_recompression_ttls in Hin. apply in_app_iff in Hin as [Hin|Hin].
    + rewrite get_slot_TTLInfos_update; [by apply (Hcov5 s e t)|].
      intros k. by eapply recompression_slots.
    + assert (exists k, s = slot_moves_ttl k) as [k ->].
      { unfold by_result_column in Hin. apply in_map_iff in Hin as (x & [= <- <-] & _).
        by eexists. }
      rewrite get_slot_TTLInfos_update_moves by done. by apply (Hcovm _ e t).
  - eexists. split; [done|]. simpl. done.
Qed.

End TTLStageProofs.

(** ** Sort planner *)

Section SortProofs.

Variable columns : list (IColumn * Z).

Local Abbreviation cmp := (compare_rows columns).

(** One column compared in its direction. *)
Local Abbreviation cmp1 := (fun (dir x y : Z) => if (0 <? dir)%Z then (x ?= y)%Z else (y ?= x)%Z).

Lemma cmp1_refl dir x : cmp1 dir x x = Eq.
Proof. cbv beta. destruct (0 <? dir)%Z; apply Z.compare_refl. Qed.

Lemma cmp1_antisym dir x y : cmp1 dir y x = CompOpp (cmp1 dir x y).
Proof. cbv beta. destruct (0 <? dir)%Z; apply Z.compare_antisym. Qed.

Lemma cmp1_eq dir x y : cmp1 dir x y = Eq -> x = y.
Proof.
  cbv beta. destruct (0 <? dir)%Z; intros H; apply Z.compare_eq in H; congruence.
Qed.

Lemma cmp1_trans dir x y z : cmp1 dir x y = Lt -> cmp1 dir y z = Lt -> cmp1 dir x z = Lt.
Proof.
  cbv beta. destruct (0 <? dir)%Z; rewrite ?Z.compare_lt_iff; lia.
Qed.

Lemma compare_rows_refl a : cmp a a = Eq.
Proof.
  induction columns as [|[c dir] cols IH]; simpl; [done|].
  by rewrite (cmp1_refl dir).
Qed.

Lemma compare_rows_antisym a b : cmp b a = CompOpp (cmp a b).
Proof.
  induction columns as [|[c dir] cols IH]; simpl; [done|].
  rewrite (cmp1_antisym dir (nth a c 0%Z) (nth b c 0%Z)).
  destruct (cmp1 dir (nth a c 0%Z) (nth b c 0%Z)); simpl; [apply IH|done|done].
Qed.

(** Comparing with a row that is equal on the key gives the same answer. *)
Lemma compare_rows_eq_l a b c : cmp a b = Eq -> cmp a c = cmp b c.
Proof.
  induction columns as [|[col dir] cols IH]; simpl; [done|].
  destruct (cmp1 dir (nth a col 0%Z) (nth b col 0%Z)) eqn:E; try done.
  apply cmp1_eq in E. rewrite E. intros H.
  destruct (cmp1 dir (nth b col 0%Z) (nth c col 0%Z)); [by apply IH|done|done].
Qed.

Lemma compare_rows_eq_r a b c : cmp b c = Eq -> cmp a b = cmp a c.
Proof.
  intros H. rewrite (compare_rows_antisym b a), (compare_rows_antisym c a). f_equal.
  symmetry. apply compare_rows_eq_l. rewrite compare_rows_antisym, H. done.
Qed.

Lemma compare_rows_trans a b c : cmp a b = Lt -> cmp b c = Lt -> cmp a c = Lt.
Proof.
  induction columns as [|[col dir] cols IH]; simpl; [done|].
  destruct (cmp1 dir (nth a col 0%Z) (nth b col 0%Z)) eqn:E1;
    destruct (cmp1 dir (nth b col 0%Z) (nth c col 0%Z)) eqn:E2; try done.
  - apply cmp1_eq in E1, E2. rewrite E1, E2, (cmp1_refl dir). apply IH.
  - apply cmp1_eq in E1. rewrite E1, E2. done.
  - apply cmp1_eq in E2. rewrite <- E2, E1. done.
  - rewrite (cmp1_trans dir _ _ _ E1 E2). done.
Qed.

(** [a] is not after [b]. *)
Local Abbreviation not_after := (fun a b => cmp a b <> Gt).

Lemma not_after_trans a b c : not_after a b -> not_after b c -> not_after a c.
Proof.
  cbv beta. intros H1 H2.
  destruct (cmp a b) eqn:E1; [|clear H1|done].
  - by rewrite (compare_rows_eq_l a b c E1).
  - destruct (cmp b c) eqn:E2; [| |done].
    + by rewrite <- (compare_rows_eq_r a b c E2), E1.
    + by rewrite (compare_rows_trans a b c E1 E2).
Qed.

Lemma lt_not_after_trans a b c : cmp a b = Lt -> not_after b c -> cmp a c = Lt.
Proof.
  cbv beta. intros H1 H2. destruct (cmp b c) eqn:E2; [| |done].
  - by rewrite <- (compare_rows_eq_r a b c E2).
  - by apply (compare_rows_trans a b c).
Qed.

(** The order of the rows in a stable sort, for any directions. *)
Local Abbreviation before := (fun i j => cmp i j = Lt \/ (cmp i j = Eq /\ i < j)).

Lemma before_not_after i j : before i j -> not_after i j.
Proof. cbv beta. intros [H|[H _]]; by rewrite H. Qed.

Lemma insert_row_Permutation i sorted :
  Permutation (insert_row columns i sorted) (i :: sorted).
Proof.
  induction sorted as [|j sorted IH]; simpl; [done|].
  unfold less. destruct (cmp i j); try done; rewrite IH; apply perm_swap.
Qed.

Lemma insert_row_sorted i sorted :
  StronglySorted before sorted -> Forall (fun j => j < i) sorted ->
  StronglySorted before (insert_row columns i sorted).
Proof.
  induction sorted as [|j sorted IH]; intros Hs Hlt; simpl.
  - repeat constructor.
  - apply StronglySorted_inv in Hs as [Hs Hj]. apply Forall_cons in Hlt as [Hji Hlt].
    unfold less. destruct (cmp i j) eqn:E.
    + constructor; [by apply IH|].
      rewrite (insert_row_Permutation i sorted). constructor; [|done].
      right. split; [|done]. by rewrite compare_rows_antisym, E.
    + constructor; [by constructor|]. constructor; [by left|].
      eapply Forall_impl; [exact Hj|]. intros k Hk. left.
      eapply lt_not_after_trans; [exact E|]. by apply before_not_after.
    + constructor; [by apply IH|].
      rewrite (insert_row_Permutation i sorted). constructor; [|done].
      left. by rewrite compare_rows_antisym, E.
Qed.

Lemma stable_sort_rows_spec n :
  Permutation (stable_sort_rows columns n) (seq 0 n) /\
  StronglySorted before (stable_sort_rows columns n).
Proof.
  unfold stable_sort_rows. induction n as [|n [IHp IHs]].
  - simpl. split; [done|constructor].
  - rewrite seq_S, fold_left_app. simpl. split.
    + rewrite insert_row_Permutation, IHp. apply Permutation_cons_append.
    + apply insert_row_sorted; [done|]. rewrite IHp. apply Forall_forall.
      intros j Hj. apply list_elem_of_In, in_seq in Hj. lia.
Qed.

(** A block whose rows are not less than the row before them keeps its order. *)
Lemma already_sorted_spec n :
  forallb (fun i => negb (less columns (S i) i)) (seq 0 (n - 1)) = true ->
  StronglySorted before (seq 0 n).
Proof.
  intros H.
  assert (Hadj : forall i, S i < n -> not_after i (S i)).
  { intros i Hi. rewrite forallb_forall in H. specialize (H i).
    rewrite in_seq in H. specialize (H ltac:(lia)).
    apply negb_true_iff in H. unfold less in H. cbv beta.
    rewrite compare_rows_antisym. by destruct (cmp (S i) i). }
  assert (Hle : forall d i, i + d < n -> not_after i (i + d)).
  { induction d as [|d IH]; intros i Hi.
    - rewrite Nat.add_0_r. cbv beta. by rewrite compare_rows_refl.
    - eapply not_after_trans; [apply (IH i); lia|].
      replace (i + S d) with (S (i + d)) by lia. apply Hadj. lia. }
  assert (Hgen : forall m a, a + m <= n -> StronglySorted before (seq a m)).
  { induction m as [|m IH]; intros a Ha; simpl; [constructor|].
    constructor; [apply IH; lia|]. apply Forall_forall. intros k Hk.
    apply list_elem_of_In, in_seq in Hk.
    specialize (Hle (k - a) a). replace (a + (k - a)) with k in Hle by lia.
    specialize (Hle ltac:(lia)). cbv beta in Hle.
    destruct (cmp a k) eqn:E; [right; split; [done|lia]|by left|done]. }
  apply Hgen. lia.
Qed.

End SortProofs.

Lemma compare_rows_lex (columns : list (IColumn * Z)) (i j : nat) :
  Forall (fun cd => snd cd = 1%Z) columns ->
  compare_rows columns i j = lex_compare (row_at (map fst columns) i)
                                         (row_at (map fst columns) j).
Proof.
  induction columns as [|[c dir] columns IH]; intros H; simpl; [done|].
  apply Forall_cons in H as [Hd H]. simpl in Hd. subst dir. simpl.
  match goal with
  | |- match ?x with _ => _ end = match ?y with _ => _ end =>
      change y with x; destruct x
  end; [by apply IH|done|done].
Qed.

Lemma sort_columns_ascending (block : Block) (names : Names) (columns : list (IColumn * Z)) :
  sort_columns_of block (make_sort_description names) = Ok columns ->
  Forall (fun cd => snd cd = 1%Z) columns.
Proof.
  revert columns. induction names as [|n names IH]; intros columns; simpl.
  - intros [= <-]. constructor.
  - destruct (getByName block n) as [c|]; [|done].
    destruct (sort_columns_of block (make_sort_description names)) as [rest| |];
      simpl; try done.
    intros [= <-]. constructor; [done|]. by apply IH.
Qed.

Lemma stable_before_iff (columns : list (IColumn * Z)) (i j : nat) :
  Forall (fun cd => snd cd = 1%Z) columns ->
  (compare_rows columns i j = Lt \/ (compare_rows columns i j = Eq /\ i < j)) <->
  stable_before (map fst columns) i j.
Proof. intros H. unfold stable_before. by rewrite compare_rows_lex. Qed.

Lemma StronglySorted_iff {A} (P Q : A -> A -> Prop) (l : list A) :
  (forall a b, P a b <-> Q a b) -> StronglySorted P l -> StronglySorted Q l.
Proof.
  intros H. induction 1 as [|a l Hs IH Hall]; constructor; [done|].
  eapply Forall_impl; [exact Hall|]. intros b Hb. by apply H.
Qed.

(** The sort stage: what it returns, what it does to the world, and the
    order in which the rows will be emitted. *)
Lemma sort_block_spec (already_sorted : ProfileEvent) (block : Block) (names : Names)
    (keys : list IColumn) (sorted : bool) (w : World) :
  key_columns block (make_sort_description names) = Ok keys ->
  isAlreadySorted block (make_sort_description names) = Ok sorted ->
  exists perm_ptr,
    sort_block already_sorted block (make_sort_description names) w =
      (Ok perm_ptr,
       if negb (bool_decide (names = [])) && sorted
       then snd (increment already_sorted 1 w) else w) /\
    perm_ptr = (if bool_decide (names = []) || sorted then None
                else Some (stable_sort_rows
                             (map (fun c => (c, 1%Z)) keys) (rows block))) /\
    stable_sorted_order keys (rows block) (emission_order block perm_ptr).
Proof.
  unfold sort_block, key_columns, isAlreadySorted, stableGetPermutation.
  destruct (sort_columns_of block (make_sort_description names)) as [columns| |] eqn:E;
    simpl; try done.
  intros [= <-] [= <-].
  pose proof (sort_columns_ascending _ _ _ E) as Hasc.
  assert (Hcols : map (fun c => (c, 1%Z)) (map fst columns) = columns).
  { clear E. induction columns as [|[c d] cols IH]; simpl; [done|].
    apply Forall_cons in Hasc as [Hd Hasc]. simpl in Hd. subst d. by rewrite IH. }
  rewrite Hcols.
  destruct names as [|n names]; cbn [make_sort_description map] in *.
  - eexists. split; [done|]. split; [done|]. split; [done|].
    simpl in E. injection E as <-. simpl.
    apply (StronglySorted_iff _ _ _ (fun i j => stable_before_iff [] i j Hasc)).
    apply already_sorted_spec. by apply forallb_forall.
  - unfold bindW, liftW. cbn [bindR negb bool_decide orb andb].
    rewrite !bool_decide_eq_false_2 by done. cbn [negb orb andb].
    destruct (forallb _ _) eqn:F; cbn [negb retW].
    + eexists. split; [done|]. split; [done|]. split; [done|].
      apply (StronglySorted_iff _ _ _ (fun i j => stable_before_iff columns i j Hasc)).
      by apply already_sorted_spec.
    + eexists. split; [done|]. split; [done|].
      destruct (stable_sort_rows_spec columns (rows block)) as [Hp Hs].
      split; [done|].
      by apply (StronglySorted_iff _ _ _ (fun i j => stable_before_iff columns i j Hasc)).
Qed.

(** ** Computations of the writer *)

Lemma bindW_Ok {A B} (m : W A) (k : A -> W B) (w : World) (b : B) (w' : World) :
  bindW m k w = (Ok b, w') ->
  exists a w1, m w = (Ok a, w1) /\ k a w1 = (Ok b, w').
Proof.
  unfold bindW. destruct (m w) as [[a|e|] w1]; [|done|done]. intros H. by exists a, w1.
Qed.

Lemma liftW_Ok {A} (r : Result A) (w : World) (a : A) (w' : World) :
  liftW r w = (Ok a, w') -> r = Ok a /\ w' = w.
Proof. unfold liftW. by intros [= -> ->]. Qed.

Lemma retW_Ok {A} (x : A) (w : World) (a : A) (w' : World) :
  retW x w = (Ok a, w') -> a = x /\ w' = w.
Proof. unfold retW. by intros [= -> ->]. Qed.

Lemma preserves_retW {A F} (proj : World -> F) (a : A) : preserves proj (retW a).
Proof. by intros w. Qed.

Lemma preserves_throwW {A F} (proj : World -> F) (e : ErrorCode) :
  preserves proj (@throwW A e).
Proof. by intros w. Qed.

Lemma preserves_undefinedW {A F} (proj : World -> F) : preserves proj (@undefinedW A).
Proof. by intros w. Qed.

Lemma preserves_liftW {A F} (proj : World -> F) (r : Result A) : preserves proj (liftW r).
Proof. by intros w. Qed.

Lemma preserves_bindW {A B F} (proj : World -> F) (m : W A) (k : A -> W B) :
  preserves proj m -> (forall a, preserves proj (k a)) -> preserves proj (bindW m k).
Proof.
  intros Hm Hk w. unfold bindW. specialize (Hm w).
  destruct (m w) as [[a|e|] w1]; simpl in *; [|done|done].
  by rewrite Hk.
Qed.

(** Breaks a goal [preserves proj m] along the structure of [m]; what is left
    are the steps that touch the component. *)
Ltac preserves_step :=
  match goal with
  | |- preserves _ (bindW _ _) => apply preserves_bindW; [|intros ?]
  | |- preserves _ (retW _) => apply preserves_retW
  | |- preserves _ (throwW _) => apply preserves_throwW
  | |- preserves _ undefinedW => apply preserves_undefinedW
  | |- preserves _ (liftW _) => apply preserves_liftW
  | |- preserves _ (if ?b then _ else _) => destruct b
  | |- preserves _ (match ?x with _ => _ end) => destruct x
  | |- preserves _ time_now => by intros ?
  | |- preserves _ (disk_exists _) => by intros ?
  | |- preserves _ (increment _ _) => by intros ?
  | |- preserves _ insert_increment_get => by intros ?
  | |- preserves _ tick_merge => by intros ?
  | |- preserves _ (set_disk _) => by intros ?
  end.

Ltac solve_preserves := repeat preserves_step.

Section WriterProofs.

Variable env : Collaborators.

(** *** [mergeBlock] *)

Lemma mergeBlock_preserves {F} (proj : World -> F) block sd pk perm params :
  (forall w, proj (snd (tick_merge w)) = proj w) ->
  preserves proj (mergeBlock (algorithms env) block sd pk perm params).
Proof.
  intros Htick. unfold mergeBlock. solve_preserves.
Qed.


(** C5: for a merging mode other than Ordinary, [mergeBlock] runs the
    algorithm of the mode on the block as its single input and makes at most
    two merge steps: it throws LOGICAL_ERROR after the first step when that
    step does not ask input 0 for more, and otherwise makes exactly two steps
    and throws LOGICAL_ERROR when the second is not finished; when both steps
    conform it returns the merged block and clears the permutation. *)
Theorem mergeBlock_protocol (block : Block) (sort_description : SortDescription)
    (partition_key_columns : Names) (permutation : option Permutation_t)
    (merging_params : MergingParams) (w : World) :
  mode merging_params <> Ordinary ->
  exists merging_algorithm,
    get_merging_algorithm (algorithms env) block (rows block) sort_description
      partition_key_columns merging_params (clock w) = Some merging_algorithm /\
    let input := mkInput (mkChunk (getColumns block) (rows block)) permutation in
    let first :=
      merge merging_algorithm
            (initialize merging_algorithm (alg_new merging_algorithm) [input]) in
    let second := merge merging_algorithm (snd first) in
    let result :=
      mergeBlock (algorithms env) block sort_description partition_key_columns permutation
                 merging_params w in
    (required_source (fst first) <> 0%Z ->
       fst result = Throw LOGICAL_ERROR /\
       merge_steps (snd result) = merge_steps w + 1) /\
    (required_source (fst first) = 0%Z ->
       merge_steps (snd result) = merge_steps w + 2 /\
       (is_finished (fst second) = false -> fst result = Throw LOGICAL_ERROR) /\
       (is_finished (fst second) = true ->
          fst result =
            Ok (cloneWithColumns block (chunk_columns (status_chunk (fst second))),
                None))).
Proof.
  intros Hmode.
  destruct (get_merging_algorithm (algorithms env) block (rows block) sort_description
              partition_key_columns merging_params (clock w)) as [alg|] eqn:Halg.
  2:{ unfold get_merging_algorithm in Halg. by destruct (mode merging_params). }
  exists alg. split; [done|]. cbv zeta.
  unfold mergeBlock, bindW, time_now. rewrite Halg. cbn [tick_merge].
  destruct (merge alg (initialize alg (alg_new alg) _)) as [status1 s1] eqn:E1.
  cbn [fst snd].
  destruct (required_source status1 =? 0)%Z eqn:R; cbn [negb].
  - apply Z.eqb_eq in R. split; [done|]. intros _.
    destruct (merge alg s1) as [status2 s2] eqn:E2. cbn [fst snd].
    destruct (is_finished status2); cbn [negb throwW retW fst snd merge_steps].
    + split; [lia|]. split; done.
    + split; [lia|]. split; done.
  - apply Z.eqb_neq in R. split; [|done]. intros _.
    cbn [throwW fst snd merge_steps]. split; [done|lia].
Qed.


(** *** [writeTempPart], up to the reduction *)

Lemma sort_block_preserves {F} (proj : World -> F) event block sd :
  (forall w, proj (snd (increment event 1 w)) = proj w) ->
  preserves proj (sort_block event block sd).
Proof. intros H. unfold sort_block. solve_preserves. Qed.

(** The locals of [writeTempPart] when it reaches the test of the size. *)
Lemma writeTempPart_prepare_Ok data bwp md ctx w prepared w1 :
  writeTempPart_prepare env data bwp md ctx w = (Ok prepared, w1) ->
  let block0 := bwp_block bwp in
  let temp_index := (insert_increment w + 1)%Z in
  let info := mkPartInfo (getID env (bwp_partition bwp)) temp_index temp_index 0 in
  let block1 :=
    if hasSortingKey md || hasSecondaryIndices md
    then sorting_key_and_skip_indices_expression md block0 else block0 in
  let sd := make_sort_description (sorting_key_columns md) in
  MinMaxIndex_update block0 (minmax_column_names md) = Ok (prepared_minmax_idx prepared) /\
  prepared_partition prepared = bwp_partition bwp /\
  prepared_part_info prepared = info /\
  prepared_columns prepared = filter_names (physical_columns md) (getNames block0) /\
  (if format_version data <? MERGE_TREE_DATA_MIN_FORMAT_VERSION_WITH_CUSTOM_PARTITIONING env
   then exists range,
          hyperrectangle (prepared_minmax_idx prepared) !! minmax_idx_date_column_pos data
            = Some range /\
          toNumYYYYMM (date_lut env) (DayNum (range_left range))
            = toNumYYYYMM (date_lut env) (DayNum (range_right range)) /\
          prepared_part_name prepared
            = getPartNameV0 env info (DayNum (range_left range)) (DayNum (range_right range))
   else prepared_part_name prepared = getPartName env info) /\
  exists perm0 w_sorted,
    sort_block MergeTreeDataWriterBlocksAlreadySorted block1 sd
      (snd (increment MergeTreeDataWriterBlocks 1 (snd (insert_increment_get w))))
      = (Ok perm0, w_sorted) /\
    (if optimize_on_insert ctx
     then mergeBlock (algorithms env) block1 sd (partition_key_column_names md) perm0
            (merging_params data) w_sorted
          = (Ok (prepared_block prepared, prepared_perm_ptr prepared), w1)
     else prepared_block prepared = block1 /\ prepared_perm_ptr prepared = perm0 /\
          w1 = w_sorted).
Proof.
  unfold writeTempPart_prepare. intros H.
  apply bindW_Ok in H as (temp_index & wa & Hget & H).
  unfold insert_increment_get in Hget. injection Hget as <- <-.
  apply bindW_Ok in H as (idx & wb & Hidx & H).
  apply liftW_Ok in Hidx as [Hidx ->].
  apply bindW_Ok in H as (name & wc & Hname & H).
  apply bindW_Ok in H as ([] & wd & Hinc & H).
  apply bindW_Ok in H as (perm0 & we & Hsort & H).
  apply bindW_Ok in H as ([block2 perm2] & wf & Hmerge & H).
  apply retW_Ok in H as [-> ->]. cbn [prepared_minmax_idx prepared_partition
    prepared_part_info prepared_columns prepared_part_name prepared_block
    prepared_perm_ptr].
  split; [done|]. split; [done|]. split; [done|]. split; [done|].
  assert (Hwc : wc = snd (insert_increment_get w) /\
    (if format_version data <? MERGE_TREE_DATA_MIN_FORMAT_VERSION_WITH_CUSTOM_PARTITIONING env
     then exists range,
            hyperrectangle idx !! minmax_idx_date_column_pos data = Some range /\
            toNumYYYYMM (date_lut env) (DayNum (range_left range))
              = toNumYYYYMM (date_lut env) (DayNum (range_right range)) /\
            name = getPartNameV0 env
                     (mkPartInfo (getID env (bwp_partition bwp)) (insert_increment w + 1)
                                 (insert_increment w + 1) 0)
                     (DayNum (range_left range)) (DayNum (range_right range))
     else name = getPartName env
                   (mkPartInfo (getID env (bwp_partition bwp)) (insert_increment w + 1)
                               (insert_increment w + 1) 0))).
  { destruct (format_version data <? _).
    - destruct (hyperrectangle idx !! minmax_idx_date_column_pos data) as [range|];
        [|done].
      destruct (negb _) eqn:M; [done|]. apply retW_Ok in Hname as [-> ->].
      split; [done|]. exists range. split; [done|]. split; [|done].
      apply negb_false_iff, Z.eqb_eq in M. done.
    - by apply retW_Ok in Hname as [-> ->]. }
  destruct Hwc as [-> Hname']. split; [done|].
  unfold increment in Hinc. injection Hinc as <-.
  exists perm0, we. split; [done|].
  destruct (optimize_on_insert ctx); [done|].
  by apply retW_Ok in Hmerge as [[= -> ->] ->].
Qed.

Lemma writeTempPart_prepare_disk data bwp md ctx :
  preserves disk (writeTempPart_prepare env data bwp md ctx).
Proof.
  unfold writeTempPart_prepare. solve_preserves.
  - by apply sort_block_preserves.
  - by apply mergeBlock_preserves.
Qed.


(** *** Projections *)

Lemma prepare_directory_preserves {F} (proj : World -> F) path :
  (forall f w, proj (snd (set_disk f w)) = proj w) ->
  preserves proj (prepare_directory path).
Proof. intros H. unfold prepare_directory, removeRecursive, createDirectories. solve_preserves. Qed.

(** A component of the world that only the insert counter and the count of
    already sorted blocks of [writeTempPart] can change is left alone by the
    projection writers and by the last stage of [writeTempPart]. *)
Section Untouched.

Context {F : Type} (proj : World -> F).
Hypothesis proj_disk : forall f w, proj (snd (set_disk f w)) = proj w.
Hypothesis proj_tick : forall w, proj (snd (tick_merge w)) = proj w.
Hypothesis proj_increment :
  forall event amount w, event <> MergeTreeDataWriterBlocksAlreadySorted ->
                         proj (snd (increment event amount w)) = proj w.

Lemma writeProjectionPartImpl_preserves name type rel builder is_temp parent data
    block projection :
  preserves proj
    (writeProjectionPartImpl env name type rel builder is_temp parent data block projection).
Proof.
  unfold writeProjectionPartImpl. solve_preserves;
    try (intros ?; by apply proj_increment);
    try (by apply prepare_directory_preserves);
    try (apply sort_block_preserves; intros ?; by apply proj_increment);
    try (by apply mergeBlock_preserves).
  all: intros ?; apply proj_disk.
Qed.

Lemma writeProjectionPart_preserves data block projection builder parent :
  preserves proj (writeProjectionPart env data block projection builder parent).
Proof.
  unfold writeProjectionPart. solve_preserves; apply writeProjectionPartImpl_preserves.
Qed.

Lemma write_projections_preserves data builder parent block todo done :
  preserves proj (write_projections env data builder parent block todo done).
Proof.
  revert done. induction todo as [|projection todo IH]; intros done; simpl.
  - solve_preserves.
  - solve_preserves; try apply IH. apply writeProjectionPart_preserves.
Qed.

Lemma writeTempPart_write_preserves data md prepared size :
  preserves proj (writeTempPart_write env data md prepared size).
Proof.
  unfold writeTempPart_write. solve_preserves;
    try (intros ?; by apply proj_increment);
    try (by apply prepare_directory_preserves);
    try apply write_projections_preserves.
  all: intros ?; apply proj_disk.
Qed.

End Untouched.

(** The block a projection part is written from.  For a projection of type
    Aggregate it is the block [mergeBlock] returns for the mode Aggregating,
    whatever the merging parameters of the table. *)
Lemma writeProjectionPartImpl_Ok name type rel builder is_temp parent data block projection
    w r w' :
  writeProjectionPartImpl env name type rel builder is_temp parent data block projection w
    = (Ok r, w') ->
  let block1 :=
    if negb (bool_decide (projection_sorting_key_columns projection = []))
       || projection_hasSecondaryIndices projection
    then projection_key_expression projection block else block in
  let sd := make_sort_description (projection_sorting_key_columns projection) in
  exists s,
    streams r = [s] /\
    part r = Some (mkProjectionPart name type (mkPartInfo "all" 0 0 0)
                     (part_path parent +:+ "/" +:+ rel) is_temp
                     (filter_names (projection_physical_columns projection)
                                   (getNames block))) /\
    exists perm0 wa wb,
      sort_block MergeTreeDataProjectionWriterBlocksAlreadySorted block1 sd wa
        = (Ok perm0, wb) /\
      match projection_type projection with
      | Aggregate =>
          exists wc,
            mergeBlock (algorithms env) block1 sd [] perm0
                       (mkMergingParams Aggregating "" [] "" []) wb
            = (Ok (written_block s, written_permutation s), wc)
      | Normal => written_block s = block1 /\ written_permutation s = perm0
      end.
Proof.
  unfold writeProjectionPartImpl. intros H.
  apply bindW_Ok in H as ([] & w1 & _ & H).
  apply bindW_Ok in H as ([] & w2 & _ & H).
  apply bindW_Ok in H as (perm0 & w3 & Hsort & H).
  apply bindW_Ok in H as ([block2 perm2] & w4 & Hmerge & H).
  apply bindW_Ok in H as ([] & w5 & _ & H).
  apply bindW_Ok in H as ([] & w6 & _ & H).
  apply bindW_Ok in H as ([] & w7 & _ & H).
  apply bindW_Ok in H as ([] & w8 & _ & H).
  apply retW_Ok in H as [-> ->]. cbn [streams part].
  eexists. split; [done|]. split; [done|].
  exists perm0, w2, w3. split; [done|]. cbn [written_block written_permutation].
  destruct (projection_type projection).
  - by apply retW_Ok in Hmerge as [[= -> ->] ->].
  - by exists w4.
Qed.

Lemma writeProjectionPart_merging_params data p block projection builder parent :
  writeProjectionPart env (with_merging_params data p) block projection builder parent
  = writeProjectionPart env data block projection builder parent.
Proof. reflexivity. Qed.

Lemma writeProjectionPart_Ok data block projection builder parent w r w' :
  writeProjectionPart env data block projection builder parent w = (Ok r, w') ->
  exists type wa,
    writeProjectionPartImpl env (projection_name projection) type
      (projection_name projection +:+ ".proj") builder false parent data block projection wa
    = (Ok r, w').
Proof.
  unfold writeProjectionPart. intros H.
  apply bindW_Ok in H as (type & wa & _ & H). by exists type, wa.
Qed.

(** The outcome of the loop over the projections: one part and its streams for
    every projection whose block has rows, in the order of the table. *)
Lemma write_projections_Ok data builder parent block todo done w parts pstreams w' :
  write_projections env data builder parent block todo done w = (Ok (parts, pstreams), w') ->
  exists results new_parts,
    Forall2 (fun projection r =>
               exists wa wb,
                 writeProjectionPart env data (calculate projection block) projection
                                     builder parent wa = (Ok r, wb))
            (List.filter (fun projection => negb (rows (calculate projection block) =? 0))
                         todo)
            results /\
    Forall2 (fun np r => part r = Some (snd np)) new_parts results /\
    map fst new_parts =
      map projection_name
          (List.filter (fun projection => negb (rows (calculate projection block) =? 0))
                       todo) /\
    parts = fst done ++ new_parts /\
    pstreams = snd done ++ concat (map (fun r => streams r) results).
Proof.
  revert done w. induction todo as [|projection todo IH]; intros done w; simpl.
  - intros H. apply retW_Ok in H as [<- ->]. exists [], [].
    split; [constructor|]. split; [constructor|]. simpl. by rewrite !app_nil_r.
  - destruct (negb (rows (calculate projection block) =? 0)) eqn:E.
    + intros H. apply bindW_Ok in H as (r & w1 & Hr & H).
      apply IH in H as (results & new_parts & Hall & Hparts & Hnames & -> & ->).
      apply writeProjectionPart_Ok in Hr as Himpl.
      destruct Himpl as (type & wa & Himpl).
      apply writeProjectionPartImpl_Ok in Himpl as (s & _ & Hpart & _).
      rewrite Hpart. cbn [fst snd].
      eexists (r :: results), ((projection_name projection, _) :: new_parts).
      split; [constructor; [by exists w, w1|done]|].
      split; [constructor; [exact Hpart|done]|].
      split; [simpl; by rewrite Hnames|].
      split; [by rewrite <- app_assoc|]. simpl. by rewrite app_assoc.
    + intros H. by apply IH in H.
Qed.


(** *** [writeTempPart], from the move TTLs on *)

Lemma writeTempPart_write_insert_increment data md prepared size :
  preserves insert_increment (writeTempPart_write env data md prepared size).
Proof. by apply writeTempPart_write_preserves. Qed.

Lemma writeTempPart_write_already_sorted data md prepared size :
  preserves (fun w => profile_events w MergeTreeDataWriterBlocksAlreadySorted)
            (writeTempPart_write env data md prepared size).
Proof.
  apply writeTempPart_write_preserves; try done.
  intros event amount w Hne. cbn [increment snd profile_events].
  destruct (decide _) as [E|E]; [|done]. by destruct Hne.
Qed.

Lemma writeTempPart_write_Ok data md prepared size w tp w' :
  writeTempPart_write env data md prepared size w = (Ok tp, w') ->
  let block := prepared_block prepared in
  exists mv volume infos pparts pstreams wa wb,
    updateTTLs env (by_result_column slot_moves_ttl (move_ttls md)) TTLInfos_default
               block false = Ok mv /\
    part_ttl_stage env md block mv = Ok infos /\
    let full_path :=
      volume +:+ relative_data_path data +:+ TMP_PREFIX +:+ prepared_part_name prepared in
    let new_part_type := choosePartType data size (rows block) in
    let new_data_part := fun projection_parts =>
      mkDataPart (prepared_part_name prepared) new_part_type (prepared_part_info prepared)
                 full_path (prepared_columns prepared) (rows block)
                 (prepared_partition prepared) (prepared_minmax_idx prepared) true infos
                 projection_parts in
    write_projections env data full_path (new_data_part []) block (projections md) ([], [])
                      wa = (Ok (pparts, pstreams), wb) /\
    tp = mkTemporaryPart (Some (new_data_part pparts)) (Some full_path)
           (pstreams ++ [mkStream full_path (prepared_columns prepared) block
                                  (prepared_perm_ptr prepared) (fsync_after_insert data)])
           (Some (TMP_PREFIX +:+ prepared_part_name prepared)).
Proof.
  unfold writeTempPart_write. intros H.
  apply bindW_Ok in H as (mv & w1 & Hmv & H). apply liftW_Ok in Hmv as [Hmv ->].
  apply bindW_Ok in H as (now & w2 & _ & H).
  apply bindW_Ok in H as (volume & w3 & _ & H).
  apply bindW_Ok in H as ([] & w4 & _ & H).
  apply bindW_Ok in H as (infos & w5 & Hinfos & H). apply liftW_Ok in Hinfos as [Hinfos ->].
  apply bindW_Ok in H as ([] & w6 & _ & H).
  apply bindW_Ok in H as ([pparts pstreams] & w7 & Hproj & H).
  apply bindW_Ok in H as ([] & w8 & _ & H).
  apply bindW_Ok in H as ([] & w9 & _ & H).
  apply bindW_Ok in H as ([] & w10 & _ & H).
  apply retW_Ok in H as [-> ->].
  exists mv, volume, infos, pparts, pstreams, w6, w7. done.
Qed.

Lemma writeTempPart_Ok data bwp md ctx w tp w' p :
  writeTempPart env data bwp md ctx w = (Ok tp, w') -> part tp = Some p ->
  exists prepared w1,
    writeTempPart_prepare env data bwp md ctx w = (Ok prepared, w1) /\
    bytes (prepared_block prepared) <> 0 /\
    writeTempPart_write env data md prepared (bytes (prepared_block prepared)) w1
      = (Ok tp, w').
Proof.
  unfold writeTempPart. intros H Hp.
  apply bindW_Ok in H as (prepared & w1 & Hprep & H).
  exists prepared, w1. split; [done|].
  destruct (bytes (prepared_block prepared) =? 0) eqn:E.
  - apply retW_Ok in H as [-> ->]. done.
  - apply Nat.eqb_neq in E. done.
Qed.

(** C6: when the block left by the reduction has no bytes, [writeTempPart]
    returns a temporary part without part descriptor, builder and streams; it
    raises no error, and the disk is as it was. *)
Theorem writeTempPart_empty_block (data : MergeTreeData) (bwp : BlockWithPartition)
    (md : StorageMetadata) (ctx : Context) (w : World) (prepared : PreparedPart)
    (w1 : World) :
  writeTempPart_prepare env data bwp md ctx w = (Ok prepared, w1) ->
  bytes (prepared_block prepared) = 0 ->
  exists tp w',
    writeTempPart env data bwp md ctx w = (Ok tp, w') /\
    part tp = None /\ builder tp = None /\ streams tp = [] /\
    disk w' = disk w.
Proof.
  intros Hprep Hbytes.
  exists (mkTemporaryPart None None [] (Some (TMP_PREFIX +:+ prepared_part_name prepared))), w1.
  split.
  - unfold writeTempPart, bindW. rewrite Hprep, Hbytes. done.
  - repeat split. pose proof (writeTempPart_prepare_disk data bwp md ctx w) as H.
    by rewrite Hprep in H.
Qed.

(** C8: [writeTempPart] draws [temp_index] from the insert counter once.  For
    a format version before custom partitioning the part is named by the v0
    encoding of the least and the greatest day of the date column of the
    min-max index, and the call throws LOGICAL_ERROR when the two days are in
    different months; otherwise the v1 encoding names it.  In both the block
    numbers are [temp_index] and the level is 0. *)
Theorem writeTempPart_part_name (data : MergeTreeData) (bwp : BlockWithPartition)
    (md : StorageMetadata) (ctx : Context) (w : World) :
  let temp_index := (insert_increment w + 1)%Z in
  let info := mkPartInfo (getID env (bwp_partition bwp)) temp_index temp_index 0 in
  let result := writeTempPart env data bwp md ctx w in
  insert_increment (snd result) = temp_index /\
  (forall idx range,
     format_version data < MERGE_TREE_DATA_MIN_FORMAT_VERSION_WITH_CUSTOM_PARTITIONING env ->
     MinMaxIndex_update (bwp_block bwp) (minmax_column_names md) = Ok idx ->
     hyperrectangle idx !! minmax_idx_date_column_pos data = Some range ->
     toNumYYYYMM (date_lut env) (DayNum (range_left range))
       <> toNumYYYYMM (date_lut env) (DayNum (range_right range)) ->
     fst result = Throw LOGICAL_ERROR) /\
  (forall tp p,
     fst result = Ok tp -> part tp = Some p ->
     part_info p = info /\
     min_block (part_info p) = temp_index /\ max_block (part_info p) = temp_index /\
     level (part_info p) = 0 /\
     if format_version data <? MERGE_TREE_DATA_MIN_FORMAT_VERSION_WITH_CUSTOM_PARTITIONING env
     then exists range,
            hyperrectangle (minmax_idx p) !! minmax_idx_date_column_pos data = Some range /\
            part_name p = getPartNameV0 env info (DayNum (range_left range))
                                        (DayNum (range_right range))
     else part_name p = getPartName env info).
Proof.
  cbv zeta. split; [|split].
  - unfold writeTempPart, writeTempPart_prepare.
    set (rest := fun temp_index : Z => bindW _ _).
    assert (Hrest : forall t w0, insert_increment (snd (bindW (rest t)
              (fun prepared =>
                 if bytes (prepared_block prepared) =? 0
                 then retW (mkTemporaryPart None None []
                              (Some (TMP_PREFIX +:+ prepared_part_name prepared)))
                 else writeTempPart_write env data md prepared
                        (bytes (prepared_block prepared))) w0)) = insert_increment w0).
    { intros t. change (preserves insert_increment (bindW (rest t)
              (fun prepared =>
                 if bytes (prepared_block prepared) =? 0
                 then retW (mkTemporaryPart None None []
                              (Some (TMP_PREFIX +:+ prepared_part_name prepared)))
                 else writeTempPart_write env data md prepared
                        (bytes (prepared_block prepared))))).
      subst rest. solve_preserves.
      - by apply sort_block_preserves.
      - by apply mergeBlock_preserves.
      - apply writeTempPart_write_insert_increment. }
    specialize (Hrest (insert_increment w + 1)%Z (snd (insert_increment_get w))).
    unfold bindW in *. cbn [insert_increment_get fst snd] in *. exact Hrest.
  - intros idx range Hv Hidx Hrange Hmonth.
    unfold writeTempPart, writeTempPart_prepare, bindW, insert_increment_get, liftW.
    rewrite Hidx. apply Nat.ltb_lt in Hv. rewrite Hv, Hrange.
    apply Z.eqb_neq in Hmonth. rewrite Hmonth. done.
  - intros tp p Htp Hp.
    destruct (writeTempPart env data bwp md ctx w) as [r w'] eqn:Hrun. simpl in Htp. subst r.
    destruct (writeTempPart_Ok _ _ _ _ _ _ _ _ Hrun Hp) as (prepared & w1 & Hprep & _ & Hwrite).
    apply writeTempPart_prepare_Ok in Hprep as (Hidx & _ & Hinfo & _ & Hname & _).
    apply writeTempPart_write_Ok in Hwrite
      as (mv & volume & infos & pparts & pstreams & wa & wb & _ & _ & _ & ->).
    cbn [part] in Hp. injection Hp as <-. cbn [part_info part_name minmax_idx].
    rewrite Hinfo. cbn [min_block max_block level]. repeat (split; [done|]).
    destruct (format_version data <? _); [|done].
    destruct Hname as (range & Hrange & _ & Hname). by exists range.
Qed.


(** *** The min-max index *)

Lemma fold_min_spec (l : list Z) (x : Z) :
  (fold_left Z.min l x <= x)%Z /\
  (forall v, In v l -> (fold_left Z.min l x <= v)%Z) /\
  (fold_left Z.min l x = x \/ In (fold_left Z.min l x) l).
Proof.
  revert x. induction l as [|y l IH]; intros x; simpl.
  - split; [lia|]. split; [done|by left].
  - destruct (IH (Z.min x y)) as (H1 & H2 & H3). split; [lia|]. split.
    + intros v [<-|Hv]; [lia|by apply H2].
    + destruct H3 as [H3|H3]; [|by right; right].
      rewrite H3. destruct (Z.min_spec x y) as [[_ E]|[_ E]]; [left|right; left]; lia.
Qed.

Lemma fold_max_spec (l : list Z) (x : Z) :
  (x <= fold_left Z.max l x)%Z /\
  (forall v, In v l -> (v <= fold_left Z.max l x)%Z) /\
  (fold_left Z.max l x = x \/ In (fold_left Z.max l x) l).
Proof.
  revert x. induction l as [|y l IH]; intros x; simpl.
  - split; [lia|]. split; [done|by left].
  - destruct (IH (Z.max x y)) as (H1 & H2 & H3). split; [lia|]. split.
    + intros v [<-|Hv]; [lia|by apply H2].
    + destruct H3 as [H3|H3]; [|by right; right].
      rewrite H3. destruct (Z.max_spec x y) as [[_ E]|[_ E]]; [right; left|left]; lia.
Qed.

Lemma getExtremes_interval (c : IColumn) : is_interval_of c (getExtremes c).
Proof.
  destruct c as [|x c]; [by split|]. unfold is_interval_of, getExtremes.
  cbn [range_left range_right].
  destruct (fold_min_spec c x) as (A1 & A2 & A3), (fold_max_spec c x) as (B1 & B2 & B3).
  split.
  - intros v [<-|Hv]; [lia|]. specialize (A2 v Hv). specialize (B2 v Hv). lia.
  - intros _. split.
    + destruct A3 as [->|A3]; [by left|by right].
    + destruct B3 as [->|B3]; [by left|by right].
Qed.

Lemma MinMaxIndex_update_spec (block : Block) (names : Names) (idx : MinMaxIndex) :
  MinMaxIndex_update block names = Ok idx ->
  Forall2 (fun n range => exists c, getByName block n = Some c /\
                                    is_interval_of (column c) range)
          names (hyperrectangle idx).
Proof.
  unfold MinMaxIndex_update.
  destruct (mapR _ names) as [ranges| |] eqn:E; simpl; try done.
  intros [= <-]. simpl. revert ranges E.
  induction names as [|n names IH]; intros ranges; simpl.
  - intros [= <-]. constructor.
  - destruct (getByName block n) as [c|] eqn:G; simpl; [|done].
    destruct (mapR _ names) as [rest| |]; simpl; try done.
    intros [= <-]. constructor; [|by apply IH].
    exists c. split; [done|apply getExtremes_interval].
Qed.



(** *** The order of the rows written *)

Lemma sort_block_columns event block names w perm0 w' :
  sort_block event block (make_sort_description names) w = (Ok perm0, w') ->
  exists columns, sort_columns_of block (make_sort_description names) = Ok columns.
Proof.
  destruct names as [|n names]; [by exists []|].
  unfold sort_block. cbn [make_sort_description map]. intros H.
  apply bindW_Ok in H as (sorted & w1 & H & _). apply liftW_Ok in H as [H _].
  unfold isAlreadySorted in H.
  destruct (sort_columns_of block _) as [columns| |]; [by exists columns|done|done].
Qed.

Lemma mergeBlock_Ordinary block sd pk perm params w :
  mode params = Ordinary ->
  mergeBlock (algorithms env) block sd pk perm params w = (Ok (block, perm), w).
Proof.
  intros H. unfold mergeBlock, bindW, time_now, get_merging_algorithm. by rewrite H.
Qed.


(** *** TTL infos of the part *)


(** *** Projection parts *)

(** C9: the part [writeTempPart] returns has one projection part for every
    projection of the table whose block, calculated from the block the main
    stream writes (the block after the reduction), has rows, and none for the
    others.  Each is written by [writeProjectionPart] from that calculated
    block, and for a projection of type Aggregate the block written is what
    [mergeBlock] returns for the mode Aggregating, whatever the merging
    parameters of the table. *)
Theorem writeTempPart_projections (data : MergeTreeData) (bwp : BlockWithPartition)
    (md : StorageMetadata) (ctx : Context) (w : World) (tp : TemporaryPart DataPart)
    (w' : World) (p : DataPart) :
  writeTempPart env data bwp md ctx w = (Ok tp, w') -> part tp = Some p ->
  exists prepared w1 main results,
    writeTempPart_prepare env data bwp md ctx w = (Ok prepared, w1) /\
    written_block main = prepared_block prepared /\
    streams tp = concat (map (fun r => streams r) results) ++ [main] /\
    let block := written_block main in
    let computed :=
      List.filter (fun projection => negb (rows (calculate projection block) =? 0))
                  (projections md) in
    map fst (projection_parts p) = map projection_name computed /\
    Forall2
      (fun projection r =>
         (exists parent wa wb,
            forall params,
              writeProjectionPart env (with_merging_params data params)
                (calculate projection block) projection (part_path p) parent wa
              = (Ok r, wb)) /\
         exists s block1 sd perm0 wc wd,
           streams r = [s] /\
           block1 = (if negb (bool_decide (projection_sorting_key_columns projection = []))
                        || projection_hasSecondaryIndices projection
                     then projection_key_expression projection (calculate projection block)
                     else calculate projection block) /\
           sd = make_sort_description (projection_sorting_key_columns projection) /\
           match projection_type projection with
           | Aggregate =>
               mergeBlock (algorithms env) block1 sd [] perm0
                          (mkMergingParams Aggregating "" [] "" []) wc
               = (Ok (written_block s, written_permutation s), wd)
           | Normal => written_block s = block1
           end)
      computed results.
Proof.
  intros Hrun Hp.
  destruct (writeTempPart_Ok _ _ _ _ _ _ _ _ Hrun Hp) as (prepared & w1 & Hprep & _ & Hwrite).
  apply writeTempPart_write_Ok in Hwrite
    as (mv & volume & infos & pparts & pstreams & wa & wb & _ & _ & Hproj & ->).
  cbn [part] in Hp. injection Hp as <-.
  apply write_projections_Ok in Hproj
    as (results & new_parts & Hall & Hparts & Hnames & -> & ->).
  exists prepared, w1. eexists. exists results.
  split; [done|]. cbn [streams written_block projection_parts part_path fst snd].
  split; [|split; [reflexivity|]]; [reflexivity|].
  cbn [written_block]. split; [by rewrite app_nil_l|].
  eapply Forall2_impl; [exact Hall|].
  intros projection r (wc & wd & Hr). split.
  - eexists _, wc, wd. intros params. rewrite writeProjectionPart_merging_params. exact Hr.
  - apply writeProjectionPart_Ok in Hr as (type & we & Himpl).
    apply writeProjectionPartImpl_Ok in Himpl
      as (s & Hs & _ & perm0 & wf & wg & _ & Hmerge).
    destruct (projection_type projection) eqn:T.
    + exists s. eexists _, _, perm0, wf, wf. split; [done|]. split; [done|].
      split; [done|]. by destruct Hmerge.
    + destruct Hmerge as (wh & Hmerge).
      exists s. eexists _, _, perm0, wg, wh. done.
Qed.

End WriterProofs.

(** * Further properties *)

(** ** Strings and lists *)

Lemma prefix_app (s t : string) : String.prefix s (s +:+ t) = true.
Proof.
  induction s as [|a s IH]; simpl; [by destruct t|].
  destruct (Ascii.ascii_dec a a); [done|congruence].
Qed.

Lemma prefix_trans (a b c : string) :
  String.prefix a b = true -> String.prefix b c = true -> String.prefix a c = true.
Proof.
  revert b c. induction a as [|x a IH]; intros b c; [by destruct c|].
  destruct b as [|y b]; [done|]. destruct c as [|z c]; [done|]. simpl.
  destruct (Ascii.ascii_dec x y) as [->|]; [|done].
  destruct (Ascii.ascii_dec y z) as [->|]; [|done].
  apply IH.
Qed.

Lemma prefix_length (a b : string) :
  String.prefix a b = true -> String.length a <= String.length b.
Proof.
  revert b. induction a as [|x a IH]; intros b; [simpl; lia|].
  destruct b as [|y b]; [done|]. simpl.
  destruct (Ascii.ascii_dec x y); [|done]. intros H. apply IH in H. lia.
Qed.

Lemma length_app_string (a b : string) :
  String.length (a +:+ b) = String.length a + String.length b.
Proof. induction a as [|x a IH]; simpl; [done|]. by rewrite IH. Qed.

(** A path below a directory is not a prefix of the directory. *)
Lemma prefix_below (dir rel : string) : String.prefix (dir +:+ "/" +:+ rel) dir = false.
Proof.
  destruct (String.prefix _ dir) eqn:E; [|done].
  apply prefix_length in E. rewrite length_app_string in E. simpl in E. lia.
Qed.

(** What is not under a directory is not under a path below it. *)
Lemma prefix_outside (dir rel x : string) :
  String.prefix dir x = false -> String.prefix (dir +:+ "/" +:+ rel) x = false.
Proof.
  intros H. destruct (String.prefix (dir +:+ _) x) eqn:E; [|done].
  rewrite (prefix_trans dir _ x (prefix_app dir _) E) in H. done.
Qed.

Lemma app_inj_r (a b s : string) : a +:+ s = b +:+ s -> a = b.
Proof.
  revert b. induction a as [|x a IH]; intros b H.
  - destruct b as [|y b]; [done|]. exfalso.
    apply (f_equal String.length) in H. simpl in H. rewrite !length_app_string in H.
    simpl in H. lia.
  - destruct b as [|y b].
    + exfalso. apply (f_equal String.length) in H. simpl in H.
      rewrite !length_app_string in H. simpl in H. lia.
    + simpl in H. injection H as -> H. f_equal. by apply IH.
Qed.

(** No name with the suffix of a projection part has the suffix of a
    temporary one. *)
Lemma proj_ne_tmp_proj (a b : string) : a +:+ ".proj" <> b +:+ ".tmp_proj".
Proof.
  intros H.
  assert (Hlen : String.length a = String.length b + 4).
  { apply (f_equal String.length) in H. rewrite !length_app_string in H. simpl in H. lia. }
  revert a H Hlen. induction b as [|y b IH]; intros a H Hlen.
  - do 4 (destruct a as [|? a]; [simpl in Hlen; lia|]).
    destruct a as [|? a]; [|simpl in Hlen; lia].
    simpl in H. injection H as _ _ _ _ H. discriminate H.
  - destruct a as [|x a]; [simpl in Hlen; lia|].
    simpl in H. injection H as _ H. apply (IH a H). simpl in Hlen. lia.
Qed.

Lemma Forall2_In_r {A B} (P : A -> B -> Prop) (l : list A) (k : list B) (y : B) :
  Forall2 P l k -> In y k -> exists x, In x l /\ P x y.
Proof.
  induction 1 as [|x y0 l k Hxy _ IH]; intros Hin; [done|].
  destruct Hin as [<-|Hin].
  - exists x. split; [by left|done].
  - destruct (IH Hin) as (x' & Hx' & HP). exists x'. split; [by right|done].
Qed.

Lemma filter_names_spec (all present : Names) :
  sublist (filter_names all present) all /\
  forall n, In n (filter_names all present) <-> In n all /\ In n present.
Proof.
  unfold filter_names. split.
  - induction all as [|a all IH]; simpl; [constructor|].
    destruct (existsb _ present); by constructor.
  - intros n. rewrite filter_In, existsb_exists. split.
    + intros [H (x & Hx & E)]. apply String.eqb_eq in E. by subst x.
    + intros [H1 H2]. split; [done|]. exists n. split; [done|]. apply String.eqb_refl.
Qed.

(** ** [buildScatterSelector], whatever the hash *)

Section ScatterOrder.

Variable hash128 : Row -> Z.
Variable columns : list IColumn.
Variable max_parts num_rows : nat.

Local Abbreviation key_of := (fun i => hash128 (row_at columns i)).
Local Abbreviation inv := (scatter_inv key_of max_parts num_rows).
Local Abbreviation step := (scatter_row hash128 columns max_parts num_rows).
Local Abbreviation loop := (scatter_loop hash128 columns max_parts num_rows).

Lemma StronglySorted_snoc_lt (l : list nat) (k : nat) :
  StronglySorted lt l -> (forall j, In j l -> j < k) -> StronglySorted lt (l ++ [k]).
Proof.
  induction 1 as [|a l Hs IH Hall]; intros Hk; simpl.
  - repeat constructor.
  - constructor.
    + apply IH. intros j Hj. apply Hk. by right.
    + apply Forall_app. split; [done|]. constructor; [|constructor]. apply Hk. by left.
Qed.

Lemma scatter_row_first_rows k st st' :
  inv k st -> first_rows_inv key_of st -> step k st = Ok st' -> first_rows_inv key_of st'.
Proof.
  intros (I1 & I2 & I3 & I4 & _) [F1 F2]. unfold scatter_row.
  destruct (partitions_map st !! hash128 (row_at columns k)) as [mapped|] eqn:E.
  - intros [= <-]. destruct (1 <? partitions_count st); split; done.
  - destruct (negb (max_parts =? 0) && (max_parts <=? partitions_count st)); [done|].
    intros [= <-].
    assert (F : first_rows_inv key_of
                  (mkScatter (<[key_of k := partitions_count st]> (partitions_map st))
                     (partition_num_to_first_row st ++ [k])
                     (if S (partitions_count st) =? 2
                      then replicate k (Some 0) ++ replicate (num_rows - k) None
                      else selector st) (S (partitions_count st)))).
    { split; cbn [partition_num_to_first_row].
      - apply StronglySorted_snoc_lt; [done|]. intros j Hj.
        apply list_elem_of_In, list_elem_of_lookup in Hj as [p Hp]. by apply I3 in Hp.
      - intros p j Hp i Hi. apply lookup_app_Some in Hp as [Hp|[_ Hp]].
        + by apply (F2 p).
        + destruct (p - _) as [|d]; [|done]. injection Hp as <-.
          intros Heq. apply I4 in Hi. cbv beta in Heq. rewrite Heq, E in Hi.
          by destruct Hi. }
    cbv zeta. destruct (1 <? S (partitions_count st)); [|exact F].
    destruct F as [G1 G2]. split; done.
Qed.

(** The scan of the rows below [k], when it went through. *)
Lemma scatter_loop_Ok k st :
  k <= num_rows -> loop (seq 0 k) scatter_init = Ok st ->
  inv k st /\ first_rows_inv key_of st.
Proof.
  revert st. induction k as [|k IH]; intros st Hk.
  - intros [= <-]. split; [apply scatter_inv_init|]. split; [constructor|done].
  - rewrite seq_S, scatter_loop_app. simpl.
    destruct (loop (seq 0 k) scatter_init) as [st0| |] eqn:E; simpl; try done.
    destruct (IH st0) as [Hinv Hfirst]; [lia|done|].
    destruct (step k st0) as [st1| |] eqn:E1; simpl; try done.
    intros [= <-]. split.
    + eapply scatter_row_inv; eauto.
    + eapply scatter_row_first_rows; eauto.
Qed.

End ScatterOrder.

Lemma buildScatterSelector_Ok (hash128 : Row -> Z) (columns : list IColumn)
    (max_parts : nat) (st : ScatterState) :
  buildScatterSelector hash128 columns max_parts = Ok st ->
  let key_of := fun i => hash128 (row_at columns i) in
  let num_rows := length (hd [] columns) in
  scatter_inv key_of max_parts num_rows num_rows st /\ first_rows_inv key_of st.
Proof.
  unfold buildScatterSelector. destruct columns as [|c0 cs]; [done|].
  intros H. cbv zeta. cbn [hd]. by apply scatter_loop_Ok in H.
Qed.

(** X1: when [buildScatterSelector] returns, the partitions are numbered in
    the order in which their keys first appear in the block: the entries of
    [partition_num_to_first_row] increase strictly, entry [p] is the first
    row that has its key and the map sends that key to [p], and every row has
    the key of the first row of some partition at or before it. *)
Theorem buildScatterSelector_first_rows (hash128 : Row -> Z) (columns : list IColumn)
    (max_parts : nat) (st : ScatterState) :
  buildScatterSelector hash128 columns max_parts = Ok st ->
  let key_of := fun i => hash128 (row_at columns i) in
  let num_rows := length (hd [] columns) in
  let first_row := partition_num_to_first_row st in
  partitions_count st = length first_row /\
  StronglySorted lt first_row /\
  (forall p j, first_row !! p = Some j ->
     j < num_rows /\ partitions_map st !! key_of j = Some p /\
     forall i, i < j -> key_of i <> key_of j) /\
  (forall i, i < num_rows ->
     exists p j, first_row !! p = Some j /\ j <= i /\ key_of j = key_of i).
Proof.
  intros H. apply buildScatterSelector_Ok in H as [(I1 & I2 & I3 & I4 & _) [F1 F2]].
  cbv zeta. split; [done|]. split; [done|]. split.
  - intros p j Hp. split; [by apply I3 in Hp|]. split; [|by apply (F2 p)].
    apply I2. by exists j.
  - intros i Hi. destruct (I4 i Hi) as [p Hp]. apply I2 in Hp as (j & Hj & Hkey).
    exists p, j. split; [done|]. split; [|done].
    destruct (decide (j <= i)) as [|Hn]; [done|]. exfalso.
    apply (F2 p j Hj i); [lia|]. by symmetry.
Qed.

(** X2: when [buildScatterSelector] returns with two partitions or more, the
    selector has a written slot for every row, the slot of a row names the
    partition whose first row has the key of the row, and two rows have the
    same slot exactly when they have the same key.  With fewer partitions
    the selector is never allocated, and the single partition of a block with
    rows starts at row 0. *)
Theorem buildScatterSelector_selector (hash128 : Row -> Z) (columns : list IColumn)
    (max_parts : nat) (st : ScatterState) :
  buildScatterSelector hash128 columns max_parts = Ok st ->
  let key_of := fun i => hash128 (row_at columns i) in
  let num_rows := length (hd [] columns) in
  let first_row := partition_num_to_first_row st in
  if 1 <? partitions_count st
  then length (selector st) = num_rows /\
       (forall i, i < num_rows ->
          exists p j, selector st !! i = Some (Some p) /\ p < partitions_count st /\
                      first_row !! p = Some j /\ key_of j = key_of i) /\
       (forall i i', i < num_rows -> i' < num_rows ->
          (selector st !! i = selector st !! i' <-> key_of i = key_of i'))
  else selector st = [] /\ (num_rows <> 0 -> first_row = [0]).
Proof.
  intros H. apply buildScatterSelector_Ok in H as [(I1 & I2 & I3 & I4 & I5 & _) [F1 F2]].
  cbv zeta. destruct (1 <? partitions_count st) eqn:C.
  - destruct I5 as [Hlen Hsel]. split; [done|].
    assert (Hrow : forall i, i < length (hd [] columns) ->
              exists p j, selector st !! i = Some (Some p) /\
                          partitions_map st !! hash128 (row_at columns i) = Some p /\
                          partition_num_to_first_row st !! p = Some j /\
                          hash128 (row_at columns j) = hash128 (row_at columns i)).
    { intros i Hi. destruct (I4 i Hi) as [p Hp]. pose proof Hp as Hp'.
      apply I2 in Hp' as (j & Hj & Hkey). exists p, j. split; [by apply Hsel|done]. }
    split.
    + intros i Hi. destruct (Hrow i Hi) as (p & j & Hs & _ & Hj & Hkey).
      exists p, j. split; [done|]. split; [|done].
      apply lookup_lt_Some in Hj. lia.
    + intros i i' Hi Hi'.
      destruct (Hrow i Hi) as (p & j & Hs & Hp & Hj & Hkey).
      destruct (Hrow i' Hi') as (p' & j' & Hs' & Hp' & Hj' & Hkey').
      rewrite Hs, Hs'. split.
      * intros [= ->]. rewrite Hj in Hj'. injection Hj' as <-. congruence.
      * intros Heq. cbv beta in Heq. rewrite Heq in Hp. congruence.
  - split; [done|]. intros Hrows. apply Nat.ltb_ge in C.
    destruct (I4 0) as [p Hp]; [lia|]. apply I2 in Hp as (j & Hj & Hkey).
    destruct (partition_num_to_first_row st) as [|j0 [|j1 rest]] eqn:Efr;
      simpl in *; [done| |lia].
    destruct p; [|done]. injection Hj as ->.
    destruct (decide (j = 0)) as [->|Hn]; [done|]. exfalso.
    apply (F2 0 j eq_refl 0); [lia|]. by symmetry.
Qed.

(** X3: the limit is on the number of distinct 128-bit keys of the rows.
    With [max_parts = 0], or with no more keys than [max_parts],
    [buildScatterSelector] returns with as many partitions as there are keys;
    with more keys than a non-zero [max_parts] it throws TOO_MANY_PARTS.  No
    assumption is made on the hash. *)
Theorem buildScatterSelector_limit (hash128 : Row -> Z) (columns : list IColumn)
    (max_parts : nat) :
  columns <> [] ->
  let key_of := fun i => hash128 (row_at columns i) in
  let keys := keys_upto key_of (length (hd [] columns)) in
  (max_parts = 0 \/ size keys <= max_parts ->
     exists st, buildScatterSelector hash128 columns max_parts = Ok st /\
                partitions_count st = size keys /\
                dom (partitions_map st) = keys) /\
  (max_parts <> 0 -> max_parts < size keys ->
     buildScatterSelector hash128 columns max_parts = Throw TOO_MANY_PARTS).
Proof.
  intros Hne. destruct columns as [|c0 cs] eqn:Ecols; [done|]. rewrite <- Ecols.
  cbv zeta. replace (hd [] columns) with c0 by (by rewrite Ecols).
  assert (Hbuild : buildScatterSelector hash128 columns max_parts =
            scatter_loop hash128 columns max_parts (length c0) (seq 0 (length c0)) scatter_init).
  { by rewrite Ecols. }
  rewrite Hbuild. clear Hbuild Ecols Hne.
  destruct (scatter_scan hash128 columns max_parts (length c0) (length c0))
    as [(st & Hst & Hinv)|(i & st & Hi & Hst & Hinv & Hthrow)]; [lia| |].
  - pose proof (scatter_inv_count _ _ _ _ _ _ Hinv) as Hcount.
    destruct Hinv as (_ & _ & _ & _ & _ & I6 & _ & I8). split.
    + intros _. by exists st.
    + intros Hm Hlt. specialize (I8 Hm). lia.
  - apply scatter_row_throw in Hthrow as Hwhy. destruct Hwhy as (_ & Hnew & Hm & Hge).
    pose proof (scatter_inv_count _ _ _ _ _ _ Hinv) as Hcount.
    destruct Hinv as (_ & _ & _ & _ & _ & I6 & _ & I8). specialize (I8 Hm).
    assert (Hnext : size (keys_upto (fun j => hash128 (row_at columns j)) (S i))
                    = S max_parts).
    { rewrite keys_upto_S, size_union, size_singleton; [lia|].
      apply disjoint_singleton_r. rewrite <- I6. by apply not_elem_of_dom. }
    assert (Hle : S max_parts <= size (keys_upto (fun j => hash128 (row_at columns j))
                                                 (length c0))).
    { rewrite <- Hnext. apply subseteq_size, keys_upto_mono. lia. }
    split.
    + intros [H0|H0]; [done|lia].
    + intros _ _. by eapply scatter_loop_stops.
Qed.

(** ** [splitBlockIntoParts], whatever the hash *)

Lemma sublist_List_filter {A} (f : A -> bool) (l : list A) : sublist (List.filter f l) l.
Proof.
  induction l as [|a l IH]; simpl; [constructor|].
  destruct (f a); by constructor.
Qed.

Lemma selected_block_names block idx : getNames (selected_block block idx) = getNames block.
Proof. unfold getNames, selected_block. rewrite map_map. by apply map_ext. Qed.

Lemma selected_block_rows block idx :
  block <> [] -> rows (selected_block block idx) = length idx.
Proof. destruct block as [|c block]; [done|]. intros _. simpl. by rewrite length_map. Qed.

Lemma selected_block_wf block idx : block <> [] -> block_wf (selected_block block idx).
Proof.
  intros Hne. unfold block_wf. rewrite selected_block_rows by done.
  unfold selected_block. apply Forall_forall. intros c Hc.
  apply list_elem_of_In, in_map_iff in Hc as (c0 & <- & _). simpl. by rewrite length_map.
Qed.

Lemma head_filter_seq (f : nat -> bool) (n j : nat) :
  j < n -> f j = true -> (forall i, i < j -> f i = false) ->
  head (List.filter f (seq 0 n)) = Some j.
Proof.
  intros Hj Hfj Hlt.
  replace n with (j + S (n - S j)) by lia. rewrite seq_app, List.filter_app. simpl.
  assert (List.filter f (seq 0 j) = []) as ->.
  { clear Hj Hfj. induction j as [|j IH]; [done|].
    rewrite seq_S, List.filter_app. simpl. rewrite Hlt by lia. rewrite IH; [done|].
    intros i Hi. apply Hlt. lia. }
  simpl. by rewrite Hfj.
Qed.

Section SplitShape.

Variable hash128 : Row -> Z.
Variable m : PartitionMetadata.
Variable block : Block.

Local Abbreviation pcols := (executePartitionByExpression m block).
Local Abbreviation key_of := (fun i => hash128 (row_at pcols i)).
Local Abbreviation R := (row_at (getColumns block)).

(** What [splitBlockIntoParts] returns from the locals of a scan that went
    through, whether or not the hash tells the tuples apart. *)
Lemma split_shape max_parts st :
  rows block <> 0 -> block_wf block -> check m block = None -> hasPartitionKey m = true ->
  buildScatterSelector hash128 pcols max_parts = Ok st ->
  scatter_inv key_of max_parts (rows block) (rows block) st ->
  exists sel,
    length sel = rows block /\
    (forall j, j < rows block -> partitions_map st !! key_of j = Some (nth j sel 0)) /\
    splitBlockIntoParts hash128 block max_parts m =
      Ok (if partitions_count st =? 1
          then [mkBlockWithPartition block
                  (row_at pcols (nth 0 (partition_num_to_first_row st) 0))]
          else map (fun p => mkBlockWithPartition
                               (selected_block block (indices_of p sel))
                               (row_at pcols (nth p (partition_num_to_first_row st) 0)))
                   (seq 0 (partitions_count st))).
Proof.
  intros Hrows Hwf Hcheck Hkey Hbuild Hinv.
  pose proof Hinv as (I1 & I2 & I3 & I4 & I5 & I6 & I7 & I8).
  assert (Hnull : is_null block = false) by (by destruct block).
  assert (Hlt : forall key p, partitions_map st !! key = Some p -> p < partitions_count st).
  { intros key p H. apply I2 in H as (j & H & _). apply lookup_lt_Some in H. lia. }
  set (sel := map (fun j => default 0 (partitions_map st !! key_of j)) (seq 0 (rows block))).
  assert (Hsel_len : length sel = rows block) by (unfold sel; by rewrite length_map, length_seq).
  assert (Hsel_nth : forall j, j < rows block ->
            partitions_map st !! key_of j = Some (nth j sel 0)).
  { intros j Hj. unfold sel. rewrite nth_map_seq by done.
    destruct (I4 j Hj) as [p Hp]. by rewrite Hp. }
  exists sel. split; [done|]. split; [done|].
  unfold splitBlockIntoParts. rewrite Hnull. simpl.
  assert ((rows block =? 0) = false) as -> by (by apply Nat.eqb_neq).
  rewrite Hcheck, Hkey. simpl. rewrite Hbuild. simpl. rewrite <- I1.
  destruct (partitions_count st =? 1) eqn:C1; [done|].
  apply Nat.eqb_neq in C1.
  assert (Hpos : 1 < partitions_count st).
  { destruct (I4 0) as [p Hp]; [lia|]. apply Hlt in Hp. lia. }
  assert (C : (1 <? partitions_count st) = true) by (by apply Nat.ltb_lt).
  rewrite C in I5. destruct I5 as [Hlen Hsel].
  assert (Hselector : selector st = Some <$> sel).
  { apply list_eq. intros j. destruct (decide (j < rows block)) as [Hj|Hj].
    - pose proof (Hsel j (nth j sel 0) Hj (Hsel_nth j Hj)) as ->.
      rewrite list_lookup_fmap.
      assert (Hx : is_Some (sel !! j)) by (apply lookup_lt_is_Some; lia).
      destruct Hx as [x Hx]. rewrite Hx. simpl. do 2 f_equal.
      by apply nth_lookup_Some.
    - rewrite !lookup_ge_None_2; [done|rewrite length_fmap; lia|lia]. }
  assert (HmapM : mapM id (selector st) = Some sel).
  { rewrite Hselector. by apply mapM_fmap_Some. }
  assert (Hall : forallb (fun s => s <? partitions_count st) sel = true).
  { apply forallb_forall. intros s Hs. apply Nat.ltb_lt.
    apply (In_nth _ _ 0) in Hs as (j & Hj & <-). rewrite Hsel_len in Hj.
    eapply Hlt, Hsel_nth, Hj. }
  set (G := fun c : ColumnWithTypeAndName =>
              map (fun p => map (fun i => nth i (column c) 0%Z) (indices_of p sel))
                  (seq 0 (partitions_count st))).
  rewrite (mapR_ok _ G).
  2:{ intros c Hc. unfold scatter.
      unfold block_wf in Hwf. rewrite Forall_forall in Hwf.
      rewrite (Hwf c) by (by apply list_elem_of_In).
      rewrite Hlen, Nat.eqb_refl. simpl. by rewrite HmapM, Hall. }
  simpl. f_equal. apply map_ext_in. intros p Hp. apply in_seq in Hp. f_equal.
  rewrite map_map.
  rewrite (map_ext _ (fun c => map (fun i => nth i (column c) 0%Z) (indices_of p sel))).
  2:{ intros c. unfold G. rewrite nth_map_seq by lia. done. }
  by rewrite cloneWithColumns_map.
Qed.

(** The three ways a call on a block with rows can go. *)
Lemma split_cases max_parts :
  rows block <> 0 -> block_wf block ->
  (exists e, check m block = Some e /\
             splitBlockIntoParts hash128 block max_parts m = Throw e) \/
  (check m block = None /\ hasPartitionKey m = false /\
   splitBlockIntoParts hash128 block max_parts m = Ok [mkBlockWithPartition block []]) \/
  (check m block = None /\ hasPartitionKey m = true /\ max_parts <> 0 /\
   splitBlockIntoParts hash128 block max_parts m = Throw TOO_MANY_PARTS) \/
  (check m block = None /\ hasPartitionKey m = true /\
   exists st sel,
     buildScatterSelector hash128 pcols max_parts = Ok st /\
     scatter_inv key_of max_parts (rows block) (rows block) st /\
     first_rows_inv key_of st /\
     length sel = rows block /\
     (forall j, j < rows block -> partitions_map st !! key_of j = Some (nth j sel 0)) /\
     splitBlockIntoParts hash128 block max_parts m =
       Ok (if partitions_count st =? 1
           then [mkBlockWithPartition block
                   (row_at pcols (nth 0 (partition_num_to_first_row st) 0))]
           else map (fun p => mkBlockWithPartition
                                (selected_block block (indices_of p sel))
                                (row_at pcols (nth p (partition_num_to_first_row st) 0)))
                    (seq 0 (partitions_count st)))).
Proof.
  intros Hrows Hwf.
  assert (Hnull : is_null block = false) by (by destruct block).
  assert (Hunfold : splitBlockIntoParts hash128 block max_parts m =
            match check m block with
            | Some e => Throw e
            | None =>
                if negb (hasPartitionKey m) then Ok [mkBlockWithPartition block []]
                else bindR (buildScatterSelector hash128 pcols max_parts) (fun st =>
                  let first_row := partition_num_to_first_row st in
                  let partitions_count := length first_row in
                  let get_partition := fun num => row_at pcols (nth num first_row 0) in
                  if partitions_count =? 1
                  then Ok [mkBlockWithPartition block (get_partition 0)]
                  else
                    bindR (mapR (fun c => scatter partitions_count (selector st) (column c))
                                block) (fun scattered =>
                    Ok (map (fun i =>
                               mkBlockWithPartition
                                 (cloneWithColumns block
                                    (map (fun cols => nth i cols []) scattered))
                                 (get_partition i))
                            (seq 0 partitions_count))))
            end).
  { unfold splitBlockIntoParts. rewrite Hnull. simpl.
    by assert ((rows block =? 0) = false) as -> by (by apply Nat.eqb_neq). }
  destruct (check m block) as [e|] eqn:Hcheck.
  { left. by exists e. }
  right. destruct (hasPartitionKey m) eqn:Hkey.
  2:{ left. by rewrite Hunfold. }
  right.
  destruct (build_cases hash128 m block max_parts Hkey)
    as [(st & Hst & Hinv)|(Hthrow & i & st & Hi & Hst & Hinv & Hrow)].
  - right. split; [done|]. split; [done|].
    destruct (split_shape max_parts st) as (sel & Hlen & Hsel & Hres); try done.
    exists st, sel. split; [done|]. split; [done|]. split; [|done].
    apply buildScatterSelector_Ok in Hst as [_ Hfirst]. exact Hfirst.
  - left. split; [done|]. split; [done|]. split.
    + by apply scatter_row_throw in Hrow as (_ & _ & Hm & _).
    + rewrite Hunfold, Hthrow. done.
Qed.

End SplitShape.

(** X4: on a block whose columns have equal length [splitBlockIntoParts]
    returns or throws, and reads no selector slot that was not written.  It
    throws only the error of the schema check or, for a partitioned table and
    a non-zero [max_parts], TOO_MANY_PARTS.  The result is empty exactly for
    a block without rows, and a non-zero [max_parts] bounds its length. *)
Theorem splitBlockIntoParts_outcomes (hash128 : Row -> Z) (block : Block)
    (max_parts : nat) (m : PartitionMetadata) :
  block_wf block ->
  match splitBlockIntoParts hash128 block max_parts m with
  | Ok parts =>
      (parts = [] <-> rows block = 0) /\ (max_parts <> 0 -> length parts <= max_parts)
  | Throw e =>
      rows block <> 0 /\
      (check m block = Some e \/
       (check m block = None /\ hasPartitionKey m = true /\ max_parts <> 0 /\
        e = TOO_MANY_PARTS))
  | Undefined => False
  end.
Proof.
  intros Hwf. destruct (decide (rows block = 0)) as [Hrows|Hrows].
  { assert (splitBlockIntoParts hash128 block max_parts m = Ok []) as ->.
    { unfold splitBlockIntoParts. rewrite Hrows. by rewrite orb_true_r. }
    split; [done|]. simpl. lia. }
  destruct (split_cases hash128 m block max_parts Hrows Hwf)
    as [(e & Hcheck & ->)|[(Hcheck & Hkey & ->)|[(Hcheck & Hkey & Hm & ->)|
        (Hcheck & Hkey & st & sel & Hst & Hinv & _ & _ & _ & ->)]]].
  - split; [done|]. by left.
  - split; [done|]. simpl. lia.
  - split; [done|]. right. done.
  - destruct Hinv as (I1 & I2 & I3 & I4 & _ & _ & _ & I8).
    destruct (partitions_count st =? 1) eqn:C1.
    + split; [done|]. apply Nat.eqb_eq in C1. simpl. intros Hm. specialize (I8 Hm). lia.
    + rewrite length_map, length_seq. split; [|done].
      split; [|done]. intros Hnil.
      destruct (I4 0) as [p Hp]; [lia|]. apply I2 in Hp as (j & Hj & _).
      apply lookup_lt_Some in Hj. rewrite <- I1 in Hj.
      destruct (partitions_count st); [lia|]. by rewrite seq_S, map_app in Hnil;
        apply app_eq_nil in Hnil as [_ Hnil].
Qed.

(** X5: whatever the hash does, the sub-blocks [splitBlockIntoParts] returns
    hold the rows of the block, each as often as the block has it; every
    sub-block has the column names of the block, columns of equal length and
    at least one row, and its rows are in the order they have in the
    block. *)
Theorem splitBlockIntoParts_sub_blocks (hash128 : Row -> Z) (block : Block)
    (max_parts : nat) (m : PartitionMetadata) (parts : list BlockWithPartition) :
  block_wf block ->
  splitBlockIntoParts hash128 block max_parts m = Ok parts ->
  Permutation (concat (map (fun bp => block_rows (bwp_block bp)) parts)) (block_rows block) /\
  Forall (fun bp =>
            getNames (bwp_block bp) = getNames block /\
            block_wf (bwp_block bp) /\
            rows (bwp_block bp) <> 0 /\
            sublist (block_rows (bwp_block bp)) (block_rows block)) parts.
Proof.
  intros Hwf Hsplit. destruct (decide (rows block = 0)) as [Hrows|Hrows].
  { assert (splitBlockIntoParts hash128 block max_parts m = Ok []) as E.
    { unfold splitBlockIntoParts. rewrite Hrows. by rewrite orb_true_r. }
    rewrite E in Hsplit. injection Hsplit as <-. simpl. split; [|done].
    unfold block_rows. by rewrite Hrows. }
  assert (Hne : block <> []) by (by destruct block).
  assert (Hself : getNames block = getNames block /\ block_wf block /\ rows block <> 0 /\
                  sublist (block_rows block) (block_rows block)) by done.
  destruct (split_cases hash128 m block max_parts Hrows Hwf)
    as [(e & Hcheck & E)|[(Hcheck & Hkey & E)|[(Hcheck & Hkey & Hm & E)|
        (Hcheck & Hkey & st & sel & Hst & Hinv & _ & Hlen & Hsel & E)]]];
    rewrite E in Hsplit; try done; injection Hsplit as <-.
  - simpl. rewrite app_nil_r. split; [done|]. by constructor.
  - destruct (partitions_count st =? 1) eqn:C1.
    { simpl. rewrite app_nil_r. split; [done|]. by constructor. }
    destruct Hinv as (I1 & I2 & I3 & I4 & _).
    assert (Hlt : forall key p, partitions_map st !! key = Some p -> p < partitions_count st).
    { intros key p H. apply I2 in H as (j & H & _). apply lookup_lt_Some in H. lia. }
    split.
    + rewrite map_map. simpl.
      rewrite (map_ext _ (fun p => map (row_at (getColumns block)) (indices_of p sel))).
      2:{ intros p. by apply block_rows_select. }
      rewrite <- (map_map (fun p => indices_of p sel) (map (row_at (getColumns block)))),
        <- concat_map.
      unfold block_rows. apply Permutation_map.
      unfold indices_of. rewrite Hlen.
      apply (group_Permutation (fun j => nth j sel 0)).
      intros j Hj. apply in_seq in Hj. eapply Hlt, Hsel. lia.
    + apply Forall_forall. intros bp Hbp.
      apply list_elem_of_In, in_map_iff in Hbp as (p & <- & Hp). apply in_seq in Hp.
      cbn [bwp_block]. split; [apply selected_block_names|].
      split; [by apply selected_block_wf|]. split.
      * rewrite selected_block_rows by done.
        assert (Hfirst : is_Some (partition_num_to_first_row st !! p))
          by (apply lookup_lt_is_Some; lia).
        destruct Hfirst as [j Hj]. pose proof (I3 _ _ Hj) as Hjn.
        assert (Hin : In j (indices_of p sel)).
        { unfold indices_of. apply filter_In. split; [apply in_seq; lia|].
          apply Nat.eqb_eq.
          assert (Hmap : partitions_map st
                           !! hash128 (row_at (executePartitionByExpression m block) j)
                         = Some p)
            by (apply I2; by exists j).
          rewrite Hsel in Hmap by done. by injection Hmap. }
        destruct (indices_of p sel); [done|]. done.
      * unfold selected_block. rewrite block_rows_select by done.
        unfold block_rows. apply (fmap_sublist (row_at (getColumns block))).
        unfold indices_of. rewrite Hlen. apply sublist_List_filter.
Qed.

(** X6: rows are grouped by the hash of their partition tuple.  The tuples
    paired with the sub-blocks have distinct hashes, the tuple of a sub-block
    is the partition tuple of its first row, and every row of the sub-block
    has a partition tuple with the same hash. *)
Theorem splitBlockIntoParts_by_hash (hash128 : Row -> Z) (block : Block)
    (max_parts : nat) (m : PartitionMetadata) (parts : list BlockWithPartition) :
  block_wf block ->
  splitBlockIntoParts hash128 block max_parts m = Ok parts ->
  NoDup (map (fun bp => hash128 (bwp_partition bp)) parts) /\
  Forall (fun bp =>
            (exists r0, head (block_rows (bwp_block bp)) = Some r0 /\
                        bwp_partition bp = partition_tuple m r0) /\
            Forall (fun r => hash128 (partition_tuple m r) = hash128 (bwp_partition bp))
                   (block_rows (bwp_block bp))) parts.
Proof.
  intros Hwf Hsplit. destruct (decide (rows block = 0)) as [Hrows|Hrows].
  { assert (splitBlockIntoParts hash128 block max_parts m = Ok []) as E.
    { unfold splitBlockIntoParts. rewrite Hrows. by rewrite orb_true_r. }
    rewrite E in Hsplit. injection Hsplit as <-. simpl. split; constructor. }
  assert (Hne : block <> []) by (by destruct block).
  assert (Hhead : head (block_rows block) = Some (row_at (getColumns block) 0)).
  { unfold block_rows. destruct (rows block); [done|]. done. }
  destruct (split_cases hash128 m block max_parts Hrows Hwf)
    as [(e & Hcheck & E)|[(Hcheck & Hkey & E)|[(Hcheck & Hkey & Hm & E)|
        (Hcheck & Hkey & st & sel & Hst & Hinv & [F1 F2] & Hlen & Hsel & E)]]];
    rewrite E in Hsplit; try done; injection Hsplit as <-.
  - (* not partitioned *)
    assert (Htuple : forall r, partition_tuple m r = []).
    { intros r. unfold partition_tuple. unfold hasPartitionKey in Hkey.
      by destruct (partition_key_exprs m). }
    split; [repeat constructor; set_solver|].
    constructor; [|done]. cbn [bwp_block bwp_partition]. split.
    + eexists. split; [done|]. by rewrite Htuple.
    + apply Forall_forall. intros r _. by rewrite Htuple.
  - destruct Hinv as (I1 & I2 & I3 & I4 & _).
    assert (Hlt : forall key p, partitions_map st !! key = Some p -> p < partitions_count st).
    { intros key p H. apply I2 in H as (j & H & _). apply lookup_lt_Some in H. lia. }
    (* the first row of partition [p] and what the selector has for it *)
    assert (Hfirst : forall p, p < partitions_count st ->
              exists j, partition_num_to_first_row st !! p = Some j /\ j < rows block /\
                        nth p (partition_num_to_first_row st) 0 = j /\
                        nth j sel 0 = p /\
                        (forall i, i < j -> nth i sel 0 <> p)).
    { intros p Hp.
      assert (Hx : is_Some (partition_num_to_first_row st !! p))
        by (apply lookup_lt_is_Some; lia).
      destruct Hx as [j Hj]. pose proof (I3 _ _ Hj) as Hjn. exists j.
      split; [done|]. split; [done|]. split; [by apply nth_lookup_Some|].
      assert (Hmap : partitions_map st
                       !! hash128 (row_at (executePartitionByExpression m block) j)
                     = Some p)
        by (apply I2; by exists j).
      split.
      - rewrite Hsel in Hmap by done. by injection Hmap.
      - intros i Hi Heq. pose proof (Hsel i ltac:(lia)) as Hmi. rewrite Heq in Hmi.
        apply I2 in Hmi as (j' & Hj' & Hkey'). rewrite Hj in Hj'. injection Hj' as <-.
        by apply (F2 p j Hj i). }
    assert (Hrow_tuple : forall j, j < rows block ->
              row_at (executePartitionByExpression m block) j
              = partition_tuple m (row_at (getColumns block) j)).
    { intros j Hj. by apply row_at_partition_columns. }
    destruct (partitions_count st =? 1) eqn:C1.
    + apply Nat.eqb_eq in C1. split; [repeat constructor; set_solver|].
      constructor; [|done]. cbn [bwp_block bwp_partition].
      destruct (Hfirst 0) as (j & Hj & Hjn & Hnth & Hselj & Hleast); [lia|].
      rewrite Hnth.
      assert (j = 0) as ->.
      { destruct (decide (j = 0)) as [|Hn]; [done|]. exfalso.
        destruct (I4 0) as [p Hp]; [lia|]. pose proof (Hlt _ _ Hp).
        assert (p = 0) as -> by lia. pose proof (Hsel 0 ltac:(lia)) as H0.
        rewrite Hp in H0. injection H0 as H0. apply (Hleast 0); [lia|done]. }
      split.
      * eexists. split; [done|]. by apply Hrow_tuple.
      * apply Forall_forall. intros r Hr. unfold block_rows in Hr.
        apply list_elem_of_In, in_map_iff in Hr as (i & <- & Hi). apply in_seq in Hi.
        rewrite Hrow_tuple by lia.
        destruct (I4 i) as [p Hp]; [lia|]. pose proof (Hlt _ _ Hp).
        assert (p = 0) as -> by lia.
        apply I2 in Hp as (j' & Hj' & Hkey'). rewrite Hj in Hj'. injection Hj' as <-.
        cbv beta in Hkey'. rewrite !Hrow_tuple in Hkey' by lia. done.
    + split.
      * rewrite map_map. cbn [bwp_partition].
        apply NoDup_fmap_2_strong; [|apply NoDup_seq].
        intros p q Hp Hq Heq.
        apply elem_of_seq in Hp, Hq.
        destruct (Hfirst p) as (j & Hj & _ & Hnth & _); [lia|].
        destruct (Hfirst q) as (j' & Hj' & _ & Hnth' & _); [lia|].
        rewrite Hnth, Hnth' in Heq.
        assert (Hp' : partitions_map st
                        !! hash128 (row_at (executePartitionByExpression m block) j)
                      = Some p)
          by (apply I2; by exists j).
        assert (Hq' : partitions_map st
                        !! hash128 (row_at (executePartitionByExpression m block) j')
                      = Some q)
          by (apply I2; by exists j').
        rewrite Heq in Hp'. congruence.
      * apply Forall_forall. intros bp Hbp.
        apply list_elem_of_In, in_map_iff in Hbp as (p & <- & Hp). apply in_seq in Hp.
        cbn [bwp_block bwp_partition].
        destruct (Hfirst p) as (j & Hj & Hjn & Hnth & Hselj & Hleast); [lia|].
        rewrite Hnth. unfold selected_block. rewrite block_rows_select by done. split.
        -- exists (row_at (getColumns block) j). split; [|by apply Hrow_tuple].
           unfold indices_of. rewrite Hlen.
           assert (Hh : head (List.filter (fun i => nth i sel 0 =? p) (seq 0 (rows block)))
                        = Some j).
           { apply head_filter_seq; [done|by apply Nat.eqb_eq|].
             intros i Hi. apply Nat.eqb_neq. by apply Hleast. }
           destruct (List.filter _ _) as [|j0 rest]; [done|]. by injection Hh as ->.
        -- apply Forall_forall. intros r Hr.
           apply list_elem_of_In, in_map_iff in Hr as (i & <- & Hi).
           unfold indices_of in Hi. apply filter_In in Hi as [Hi Hip].
           apply in_seq in Hi. rewrite Hlen in Hi. apply Nat.eqb_eq in Hip.
           rewrite Hrow_tuple by done.
           pose proof (Hsel i ltac:(lia)) as Hmi. rewrite Hip in Hmi.
           apply I2 in Hmi as (j' & Hj' & Hkey'). rewrite Hj in Hj'. injection Hj' as <-.
           cbv beta in Hkey'. rewrite !Hrow_tuple in Hkey' by lia. done.
Qed.

(** ** [updateTTL]: what it leaves alone, and what it refuses *)

Section TTLOutcome.

Variable date_lut : DateLUTImpl.

Lemma updateTTL_outcome ttl_entry infos slot block flag :
  if supported_ttl_column (expression ttl_entry block)
  then exists infos1, updateTTL date_lut ttl_entry infos slot block flag = Ok infos1
  else updateTTL date_lut ttl_entry infos slot block flag = Throw LOGICAL_ERROR.
Proof.
  unfold updateTTL.
  destruct (expression ttl_entry block) as [data|data|inner size|]; simpl;
    [by eexists|by eexists| |done].
  destruct inner; simpl; by try eexists.
Qed.

Lemma updateTTL_Ok_supported ttl_entry infos slot block flag infos1 :
  updateTTL date_lut ttl_entry infos slot block flag = Ok infos1 ->
  supported_ttl_column (expression ttl_entry block) = true.
Proof.
  intros H. pose proof (updateTTL_outcome ttl_entry infos slot block flag) as Ho.
  destruct (supported_ttl_column _); [done|congruence].
Qed.

(** X7: a call of [updateTTL] that returns changes one member of the TTL
    infos, the one its third argument refers to, and with the flag set the
    part-wide interval; every other member, and every other entry of the map
    the member is in, is as before. *)
Theorem updateTTL_other_members ttl_entry infos0 slot block flag infos1 :
  updateTTL date_lut ttl_entry infos0 slot block flag = Ok infos1 ->
  (forall s, s <> slot -> get_slot infos1 s = get_slot infos0 s) /\
  infos1 = (if flag
            then updatePartMinMaxTTL (set_slot infos0 slot (get_slot infos1 slot))
                   (ttl_min (get_slot infos1 slot)) (ttl_max (get_slot infos1 slot))
            else set_slot infos0 slot (get_slot infos1 slot)).
Proof.
  intros H. split.
  - by apply updateTTL_spec in H as (_ & _ & Hother & _).
  - apply updateTTL_shape in H as [info' ->].
    destruct flag; by rewrite ?get_slot_updatePartMinMaxTTL, get_set_slot_eq.
Qed.

End TTLOutcome.

Section TTLLoop.

Variable env : Collaborators.

Lemma updateTTLs_Ok_supported entries infos0 block flag infos1 :
  updateTTLs env entries infos0 block flag = Ok infos1 ->
  forall s e, In (s, e) entries -> supported_ttl_column (expression e block) = true.
Proof.
  revert infos0. induction entries as [|[slot e0] entries IH]; intros infos0; simpl; [done|].
  destruct (updateTTL (date_lut env) e0 infos0 slot block flag) as [infos'| |] eqn:E;
    simpl; try done.
  intros H s e [[= <- <-]|Hin].
  - by eapply updateTTL_Ok_supported.
  - by eapply IH.
Qed.

Lemma updateTTLs_unsupported entries infos0 block flag s e :
  In (s, e) entries -> supported_ttl_column (expression e block) = false ->
  updateTTLs env entries infos0 block flag = Throw LOGICAL_ERROR.
Proof.
  revert infos0. induction entries as [|[slot e0] entries IH]; intros infos0; simpl; [done|].
  intros Hin Hno.
  pose proof (updateTTL_outcome (date_lut env) e0 infos0 slot block flag) as Ho.
  destruct (supported_ttl_column (expression e0 block)) eqn:S0.
  - destruct Ho as [infos' ->]. simpl. destruct Hin as [[= <- <-]|Hin]; [congruence|].
    by apply IH.
  - by rewrite Ho.
Qed.

Lemma part_ttl_stage_Ok_supported md block mv infos :
  part_ttl_stage env md block mv = Ok infos ->
  forall s e, In (s, e) (rows_category_ttls md ++
                         by_result_column slot_recompression_ttl (recompression_ttls md)) ->
              supported_ttl_column (expression e block) = true.
Proof.
  rewrite part_ttl_stage_unfold.
  destruct (updateTTLs env (rows_category_ttls md) TTLInfos_default block true)
    as [i4| |] eqn:E4; cbn [bindR]; try done.
  destruct (updateTTLs env (by_result_column slot_recompression_ttl (recompression_ttls md))
              i4 block false) as [i5| |] eqn:E5; cbn [bindR]; try done.
  intros _ s e Hin. apply in_app_iff in Hin as [Hin|Hin].
  - by eapply (updateTTLs_Ok_supported _ _ _ _ _ E4).
  - by eapply (updateTTLs_Ok_supported _ _ _ _ _ E5).
Qed.

End TTLLoop.

(** ** The writer: events, part descriptor, disk *)

Lemma increment_other event amount w e :
  e <> event -> profile_events (snd (increment event amount w)) e = profile_events w e.
Proof. intros H. cbn [increment snd profile_events]. by rewrite decide_False. Qed.

Lemma increment_same event amount w :
  profile_events (snd (increment event amount w)) event = profile_events w event + amount.
Proof. cbn [increment snd profile_events]. by rewrite decide_True. Qed.

Lemma increment_Ok event amount w a w' :
  increment event amount w = (Ok a, w') -> w' = snd (increment event amount w).
Proof. by intros [= _ <-]. Qed.

Section WriterExtras.

Variable env : Collaborators.

(** A component of the world that the disk, the merge steps and the
    projection events do not change is left alone by the projection
    writers. *)
Section ProjectionFrame.

Context {F : Type} (proj : World -> F).
Hypothesis proj_disk : forall f w, proj (snd (set_disk f w)) = proj w.
Hypothesis proj_tick : forall w, proj (snd (tick_merge w)) = proj w.
Hypothesis proj_increment :
  forall event amount w, is_projection_event event = true ->
                         proj (snd (increment event amount w)) = proj w.

Lemma writeProjectionPartImpl_frame name type rel builder is_temp parent data block
    projection :
  preserves proj
    (writeProjectionPartImpl env name type rel builder is_temp parent data block projection).
Proof.
  unfold writeProjectionPartImpl. solve_preserves;
    try (intros ?; by apply proj_increment);
    try (by apply prepare_directory_preserves);
    try (apply sort_block_preserves; intros ?; by apply proj_increment);
    try (by apply mergeBlock_preserves).
  all: intros ?; apply proj_disk.
Qed.

Lemma writeProjectionPart_frame data block projection builder parent :
  preserves proj (writeProjectionPart env data block projection builder parent).
Proof.
  unfold writeProjectionPart. solve_preserves; apply writeProjectionPartImpl_frame.
Qed.

Lemma writeTempProjectionPart_frame data block projection builder parent block_num :
  preserves proj (writeTempProjectionPart env data block projection builder parent block_num).
Proof.
  unfold writeTempProjectionPart. solve_preserves; apply writeProjectionPartImpl_frame.
Qed.

Lemma write_projections_frame data builder parent block todo done :
  preserves proj (write_projections env data builder parent block todo done).
Proof.
  revert done. induction todo as [|projection todo IH]; intros done; simpl.
  - solve_preserves.
  - solve_preserves; try apply IH. apply writeProjectionPart_frame.
Qed.

End ProjectionFrame.

Lemma writer_event_frame e :
  is_projection_event e = false ->
  forall event amount w, is_projection_event event = true ->
    profile_events (snd (increment event amount w)) e = profile_events w e.
Proof.
  intros He event amount w Hev. apply increment_other. intros ->. congruence.
Qed.

(** The profile events after the lines of [writeTempPart] up to the call of
    [mergeBlock]. *)
Lemma writeTempPart_prepare_events data bwp md ctx w prepared w1 e :
  writeTempPart_prepare env data bwp md ctx w = (Ok prepared, w1) ->
  e <> MergeTreeDataWriterBlocksAlreadySorted ->
  profile_events w1 e
  = profile_events w e + (if decide (e = MergeTreeDataWriterBlocks) then 1 else 0).
Proof.
  intros H He.
  apply writeTempPart_prepare_Ok in H
    as (_ & _ & _ & _ & _ & perm0 & w_sorted & Hsort & Hmerge).
  assert (E2 : profile_events w1 e = profile_events w_sorted e).
  { destruct (optimize_on_insert ctx).
    - pose proof (mergeBlock_preserves env (fun w => profile_events w e)
                    (if hasSortingKey md || hasSecondaryIndices md
                     then sorting_key_and_skip_indices_expression md (bwp_block bwp)
                     else bwp_block bwp)
                    (make_sort_description (sorting_key_columns md))
                    (partition_key_column_names md) perm0 (merging_params data)
                    (fun _ => eq_refl) w_sorted) as E.
      by rewrite Hmerge in E.
    - by destruct Hmerge as (_ & _ & ->). }
  rewrite E2.
  pose proof (sort_block_preserves (fun w => profile_events w e)
                MergeTreeDataWriterBlocksAlreadySorted
                (if hasSortingKey md || hasSecondaryIndices md
                 then sorting_key_and_skip_indices_expression md (bwp_block bwp)
                 else bwp_block bwp)
                (make_sort_description (sorting_key_columns md))) as E1.
  specialize (E1 ltac:(intros w0; by apply increment_other)
                (snd (increment MergeTreeDataWriterBlocks 1 (snd (insert_increment_get w))))).
  rewrite Hsort in E1. cbn [snd] in E1. rewrite E1.
  cbn [snd increment insert_increment_get profile_events].
  destruct (decide (e = MergeTreeDataWriterBlocks)); lia.
Qed.

(** The profile events after the lines of [writeTempPart] from the move TTLs
    on: the three counts of the block written are added, and the counts of
    the projections are the only other events that change. *)
Lemma writeTempPart_write_events data md prepared size w tp w' :
  writeTempPart_write env data md prepared size w = (Ok tp, w') ->
  exists p,
    part tp = Some p /\
    forall e, is_projection_event e = false ->
      profile_events w' e
      = profile_events w e
        + match e with
          | MergeTreeDataWriterRows => rows (prepared_block prepared)
          | MergeTreeDataWriterUncompressedBytes => bytes (prepared_block prepared)
          | MergeTreeDataWriterCompressedBytes =>
              getBytesOnDisk env (part_type p) (part_path p) (prepared_block prepared)
          | _ => 0
          end.
Proof.
  unfold writeTempPart_write. intros H.
  apply bindW_Ok in H as (mv & w1 & Hmv & H). apply liftW_Ok in Hmv as [Hmv ->].
  apply bindW_Ok in H as (now & w2 & Hnow & H). injection Hnow as _ <-.
  apply bindW_Ok in H as (volume & w3 & Hvol & H).
  assert (w3 = w) as ->.
  { destruct (reserve data size mv now); [by apply retW_Ok in Hvol as [_ ->]|done]. }
  apply bindW_Ok in H as ([] & w4 & Hdir & H).
  apply bindW_Ok in H as (infos & w5 & Hinfos & H). apply liftW_Ok in Hinfos as [Hinfos ->].
  apply bindW_Ok in H as ([] & w6 & Hser & H).
  apply bindW_Ok in H as ([pparts pstreams] & w7 & Hproj & H).
  apply bindW_Ok in H as ([] & w8 & H8 & H). apply increment_Ok in H8.
  apply bindW_Ok in H as ([] & w9 & H9 & H). apply increment_Ok in H9.
  apply bindW_Ok in H as ([] & w10 & H10 & H). apply increment_Ok in H10.
  apply retW_Ok in H as [-> ->].
  eexists. split; [done|]. cbn [part_type part_path].
  intros e He.
  assert (E4 : profile_events w4 e = profile_events w e).
  { destruct (isStoredOnDisk _).
    - pose proof (prepare_directory_preserves (fun w => profile_events w e)
                    (volume +:+ relative_data_path data +:+ TMP_PREFIX +:+
                     prepared_part_name prepared) (fun _ _ => eq_refl) w) as E.
      by rewrite Hdir in E.
    - by apply retW_Ok in Hdir as [_ ->]. }
  assert (E6 : profile_events w6 e = profile_events w4 e) by (by injection Hser as <-).
  assert (E7 : profile_events w7 e = profile_events w6 e).
  { match type of Hproj with write_projections _ _ ?b ?pt ?blk _ _ _ = _ =>
      pose proof (write_projections_frame (fun w => profile_events w e)
                    (fun _ _ => eq_refl) (fun _ => eq_refl) (writer_event_frame e He)
                    data b pt blk (projections md) ([], []) w6) as E end.
    by rewrite Hproj in E. }
  subst w10 w9 w8.
  destruct e; try done;
    rewrite ?increment_same, ?increment_other by done;
    rewrite ?increment_same, ?increment_other by done;
    rewrite ?increment_same, ?increment_other by done; lia.
Qed.

Lemma writeTempPart_cases data bwp md ctx w tp w' :
  writeTempPart env data bwp md ctx w = (Ok tp, w') ->
  exists prepared w1,
    writeTempPart_prepare env data bwp md ctx w = (Ok prepared, w1) /\
    ((bytes (prepared_block prepared) = 0 /\ w' = w1 /\
      tp = mkTemporaryPart None None [] (Some (TMP_PREFIX +:+ prepared_part_name prepared))) \/
     (bytes (prepared_block prepared) <> 0 /\
      writeTempPart_write env data md prepared (bytes (prepared_block prepared)) w1
        = (Ok tp, w'))).
Proof.
  unfold writeTempPart. intros H.
  apply bindW_Ok in H as (prepared & w1 & Hprep & H).
  exists prepared, w1. split; [done|].
  destruct (bytes (prepared_block prepared) =? 0) eqn:E.
  - left. apply Nat.eqb_eq in E. by apply retW_Ok in H as [-> ->].
  - right. apply Nat.eqb_neq in E. done.
Qed.



(** X9: the part [writeTempPart] returns describes what was written: it is
    temporary, has the partition handed in, the row count of the block
    written, which has bytes, and the type chosen from the size of that
    block; its directory is [tmp_insert_] followed by its name under the
    relative data path of the reserved volume, which is also the directory of
    the builder and of the main stream, and the lock is on that directory
    name.  Its columns are those of the main stream: the physical columns of
    the table that the block handed in carries, in the order of the table,
    so without the columns the sorting key expression adds. *)
Theorem writeTempPart_part_descriptor (data : MergeTreeData) (bwp : BlockWithPartition)
    (md : StorageMetadata) (ctx : Context) (w : World) (tp : TemporaryPart DataPart)
    (w' : World) (p : DataPart) :
  writeTempPart env data bwp md ctx w = (Ok tp, w') -> part tp = Some p ->
  exists main volume,
    last (streams tp) = Some main /\
    bytes (written_block main) <> 0 /\
    rows_count p = rows (written_block main) /\
    part_type p = choosePartType data (bytes (written_block main)) (rows (written_block main)) /\
    is_temp p = true /\
    partition p = bwp_partition bwp /\
    part_path p = volume +:+ relative_data_path data +:+ TMP_PREFIX +:+ part_name p /\
    builder tp = Some (part_path p) /\
    stream_path main = part_path p /\
    temporary_directory_lock tp = Some (TMP_PREFIX +:+ part_name p) /\
    stream_columns main = part_columns p /\
    sublist (part_columns p) (physical_columns md) /\
    (forall n, In n (part_columns p) <->
               In n (physical_columns md) /\ In n (getNames (bwp_block bwp))) /\
    fsync_after_insert_flag main = fsync_after_insert data.
Proof.
  intros Hrun Hp.
  destruct (writeTempPart_Ok _ _ _ _ _ _ _ _ _ Hrun Hp)
    as (prepared & w1 & Hprep & Hbytes & Hwrite).
  apply writeTempPart_prepare_Ok in Hprep as (_ & Hpartition & _ & Hcolumns & _).
  apply writeTempPart_write_Ok in Hwrite
    as (mv & volume & infos & pparts & pstreams & wa & wb & _ & _ & _ & ->).
  cbn [part] in Hp. injection Hp as <-.
  cbn [streams builder temporary_directory_lock part_path part_name part_type rows_count
       is_temp partition part_columns].
  eexists _, volume. split; [apply last_snoc|].
  cbn [written_block stream_path stream_columns fsync_after_insert_flag].
  rewrite Hcolumns.
  destruct (filter_names_spec (physical_columns md) (getNames (bwp_block bwp))) as [Hs Hi].
  repeat (split; [done|]). done.
Qed.

(** The order the sort stage settles on lists every row once. *)
Lemma sort_block_Permutation event block names w perm0 w1 :
  sort_block event block (make_sort_description names) w = (Ok perm0, w1) ->
  Permutation (emission_order block perm0) (seq 0 (rows block)).
Proof.
  intros Hsort.
  destruct (sort_block_columns _ _ _ _ _ _ Hsort) as [columns Hcolumns].
  assert (Hkeys : key_columns block (make_sort_description names) = Ok (map fst columns)).
  { unfold key_columns. by rewrite Hcolumns. }
  assert (Hsorted : exists sorted,
            isAlreadySorted block (make_sort_description names) = Ok sorted).
  { unfold isAlreadySorted. rewrite Hcolumns. by eexists. }
  destruct Hsorted as [sorted Hsorted].
  destruct (sort_block_spec event _ _ _ _ w Hkeys Hsorted) as (perm_ptr & Heq & _ & Horder).
  rewrite Hsort in Heq. injection Heq as <- _. by destruct Horder.
Qed.

(** X10: without a reduction (optimize_on_insert off, or the mode Ordinary)
    the main stream of [writeTempPart] emits the rows of the block, after the
    sorting key expression, each as often as the block has it, and the row
    count of the part is the number of rows of that block. *)
Theorem writeTempPart_rows_kept (data : MergeTreeData) (bwp : BlockWithPartition)
    (md : StorageMetadata) (ctx : Context) (w : World) (tp : TemporaryPart DataPart)
    (w' : World) (p : DataPart) :
  writeTempPart env data bwp md ctx w = (Ok tp, w') -> part tp = Some p ->
  optimize_on_insert ctx = false \/ mode (merging_params data) = Ordinary ->
  let block1 :=
    if hasSortingKey md || hasSecondaryIndices md
    then sorting_key_and_skip_indices_expression md (bwp_block bwp) else bwp_block bwp in
  exists main,
    last (streams tp) = Some main /\
    written_block main = block1 /\
    Permutation (emitted_rows main) (block_rows block1) /\
    rows_count p = rows block1.
Proof.
  intros Hrun Hp Hno. cbv zeta.
  destruct (writeTempPart_Ok _ _ _ _ _ _ _ _ _ Hrun Hp) as (prepared & w1 & Hprep & _ & Hwrite).
  apply writeTempPart_prepare_Ok in Hprep
    as (_ & _ & _ & _ & _ & perm0 & w_sorted & Hsort & Hmerge).
  assert (Hsame : prepared_block prepared =
            (if hasSortingKey md || hasSecondaryIndices md
             then sorting_key_and_skip_indices_expression md (bwp_block bwp)
             else bwp_block bwp) /\ prepared_perm_ptr prepared = perm0).
  { destruct (optimize_on_insert ctx) eqn:O.
    - destruct Hno as [Hno|Hno]; [done|].
      rewrite mergeBlock_Ordinary in Hmerge by done. by injection Hmerge as <- <- _.
    - by destruct Hmerge as (-> & -> & _). }
  destruct Hsame as [Hblock Hperm].
  apply writeTempPart_write_Ok in Hwrite
    as (mv & volume & infos & pparts & pstreams & wa & wb & _ & _ & _ & ->).
  cbn [part] in Hp. injection Hp as <-. cbn [streams rows_count].
  eexists. split; [apply last_snoc|]. cbn [written_block emitted_rows written_permutation].
  rewrite Hblock, Hperm. split; [done|]. split; [|done].
  apply sort_block_Permutation in Hsort.
  assert (Hrows : forall b perm,
            permuted_rows b perm = map (row_at (getColumns b)) (emission_order b perm)).
  { intros b perm. by destruct perm. }
  unfold emitted_rows. cbn [written_block written_permutation].
  rewrite Hrows. unfold block_rows. by apply Permutation_map.
Qed.


(** X12: the move TTLs and the reservation come before the directory of the
    part.  When the block left by the reduction has bytes, a move TTL whose
    expression is of another type makes [writeTempPart] throw LOGICAL_ERROR,
    and a reservation that fails makes it throw NOT_ENOUGH_SPACE; in both
    cases the world is as the lines before left it, the disk as it was before
    the call. *)
Theorem writeTempPart_fails_before_directory (data : MergeTreeData)
    (bwp : BlockWithPartition) (md : StorageMetadata) (ctx : Context) (w : World)
    (prepared : PreparedPart) (w1 : World) :
  writeTempPart_prepare env data bwp md ctx w = (Ok prepared, w1) ->
  bytes (prepared_block prepared) <> 0 ->
  let block := prepared_block prepared in
  let move_entries := by_result_column slot_moves_ttl (move_ttls md) in
  disk w1 = disk w /\
  ((exists s e, In (s, e) move_entries /\ supported_ttl_column (expression e block) = false) ->
     writeTempPart env data bwp md ctx w = (Throw LOGICAL_ERROR, w1)) /\
  (forall mv,
     updateTTLs env move_entries TTLInfos_default block false = Ok mv ->
     reserve data (bytes block) mv (clock w1) = None ->
     writeTempPart env data bwp md ctx w = (Throw NOT_ENOUGH_SPACE, w1)).
Proof.
  intros Hprep Hbytes. cbv zeta.
  assert (Hrun : writeTempPart env data bwp md ctx w
                 = writeTempPart_write env data md prepared (bytes (prepared_block prepared)) w1).
  { unfold writeTempPart, bindW. rewrite Hprep.
    by assert ((bytes (prepared_block prepared) =? 0) = false) as ->
      by (by apply Nat.eqb_neq). }
  rewrite Hrun. split; [|split].
  - pose proof (writeTempPart_prepare_disk env data bwp md ctx w) as H.
    by rewrite Hprep in H.
  - intros (s & e & Hin & Hno).
    unfold writeTempPart_write, bindW, liftW.
    by rewrite (updateTTLs_unsupported env _ _ _ _ s e Hin Hno).
  - intros mv Hmv Hnone.
    unfold writeTempPart_write, bindW, liftW, time_now. by rewrite Hmv, Hnone.
Qed.

(** *** The disk *)

Lemma keeps_preserves {A} (x : string) (m : W A) : preserves disk m -> keeps x m.
Proof. intros H w Hx. by rewrite H. Qed.

Lemma keeps_bindW {A B} (x : string) (m : W A) (k : A -> W B) :
  keeps x m -> (forall a, keeps x (k a)) -> keeps x (bindW m k).
Proof.
  intros Hm Hk w Hx. unfold bindW. specialize (Hm w Hx).
  destruct (m w) as [[a|e|] w1]; simpl in *; [|done|done].
  by apply Hk.
Qed.

Lemma keeps_union {A : Type} (x : string) (files : gset string) :
  keeps x (set_disk (fun d => files ∪ d)).
Proof. intros w Hx. cbn [set_disk snd disk]. set_solver. Qed.

(** [prepare_directory] keeps what is not under the directory, and the
    directory is there afterwards. *)
Lemma keeps_prepare_directory (x path : string) :
  String.prefix path x = false \/ x = path -> keeps x (prepare_directory path).
Proof.
  intros Hx w Hin. unfold prepare_directory, bindW, disk_exists, removeRecursive,
    createDirectories.
  destruct Hx as [Hx| ->].
  - destruct (bool_decide (path ∈ disk w)); cbn [set_disk retW snd disk].
    + apply elem_of_union_r, elem_of_filter. by rewrite Hx.
    + by apply elem_of_union_r.
  - destruct (bool_decide (path ∈ disk w)); cbn [set_disk retW snd disk]; set_solver.
Qed.

Lemma prepare_directory_exists (path : string) (w : World) :
  path ∈ disk (snd (prepare_directory path w)).
Proof.
  unfold prepare_directory, bindW, disk_exists, removeRecursive, createDirectories.
  destruct (bool_decide (path ∈ disk w)); cbn [set_disk retW snd disk]; set_solver.
Qed.

Lemma keeps_writeProjectionPartImpl x name type rel builder is_temp parent data block
    projection :
  isStoredOnDisk type = false \/
  String.prefix (part_path parent +:+ "/" +:+ rel) x = false ->
  keeps x
    (writeProjectionPartImpl env name type rel builder is_temp parent data block projection).
Proof.
  intros Hx. unfold writeProjectionPartImpl.
  apply keeps_bindW.
  { destruct (isStoredOnDisk type) eqn:T.
    - apply keeps_prepare_directory. left. by destruct Hx.
    - by apply keeps_preserves. }
  intros _. apply keeps_bindW; [by apply keeps_preserves|]. intros _.
  apply keeps_bindW; [by apply keeps_preserves, sort_block_preserves|]. intros perm_ptr.
  apply keeps_bindW.
  { apply keeps_preserves. destruct (projection_type projection); [done|].
    by apply mergeBlock_preserves. }
  intros [block2 perm2].
  apply keeps_bindW; [apply (keeps_union (A := unit))|]. intros _.
  repeat (apply keeps_bindW; [by apply keeps_preserves|]; intros _).
  by apply keeps_preserves.
Qed.

Lemma outside_projection (dir rel x : string) :
  String.prefix dir x = false \/ x = dir ->
  String.prefix (dir +:+ "/" +:+ rel) x = false.
Proof. intros [H| ->]; [by apply prefix_outside|apply prefix_below]. Qed.

Lemma keeps_writeProjectionPart x data block projection builder parent :
  part_type parent = InMemory \/
  String.prefix (part_path parent) x = false \/ x = part_path parent ->
  keeps x (writeProjectionPart env data block projection builder parent).
Proof.
  intros Hx. unfold writeProjectionPart.
  destruct (part_type parent) eqn:T.
  1,2: destruct Hx as [Hx|Hx]; [done|];
       (apply keeps_bindW; [apply keeps_preserves; solve_preserves|]);
       intros type; apply keeps_writeProjectionPartImpl; right;
       by apply outside_projection.
  intros w Hin. unfold bindW, retW.
  apply keeps_writeProjectionPartImpl; [by left|done].
Qed.

Lemma keeps_write_projections x data builder parent block todo done :
  part_type parent = InMemory \/
  String.prefix (part_path parent) x = false \/ x = part_path parent ->
  keeps x (write_projections env data builder parent block todo done).
Proof.
  intros Hx. revert done. induction todo as [|projection todo IH]; intros done; simpl.
  - by apply keeps_preserves.
  - destruct (negb _); [|apply IH].
    apply keeps_bindW; [by apply keeps_writeProjectionPart|]. intros r. apply IH.
Qed.


(** *** The projection writers *)

(** The part, the builder and the stream [writeProjectionPartImpl] returns. *)
Lemma writeProjectionPartImpl_shape name type rel storage_builder is_temp parent data block
    projection w r w' :
  writeProjectionPartImpl env name type rel storage_builder is_temp parent data block
    projection w = (Ok r, w') ->
  exists s,
    streams r = [s] /\
    part r = Some (mkProjectionPart name type (mkPartInfo "all" 0 0 0)
                     (part_path parent +:+ "/" +:+ rel) is_temp (stream_columns s)) /\
    builder r = Some (storage_builder +:+ "/" +:+ rel) /\
    temporary_directory_lock r = None /\
    stream_path s = part_path parent +:+ "/" +:+ rel /\
    fsync_after_insert_flag s = false.
Proof.
  unfold writeProjectionPartImpl. intros H.
  apply bindW_Ok in H as ([] & w1 & _ & H).
  apply bindW_Ok in H as ([] & w2 & _ & H).
  apply bindW_Ok in H as (perm0 & w3 & _ & H).
  apply bindW_Ok in H as ([block2 perm2] & w4 & _ & H).
  apply bindW_Ok in H as ([] & w5 & _ & H).
  apply bindW_Ok in H as ([] & w6 & _ & H).
  apply bindW_Ok in H as ([] & w7 & _ & H).
  apply bindW_Ok in H as ([] & w8 & _ & H).
  apply retW_Ok in H as [-> ->]. by eexists.
Qed.


Lemma writeTempProjectionPart_Ok data block projection storage_builder parent block_num
    w r w' :
  writeTempProjectionPart env data block projection storage_builder parent block_num w
    = (Ok r, w') ->
  let part_name := projection_name projection +:+ "_" +:+ pretty block_num in
  exists type wa,
    type = match part_type parent with
           | InMemory => InMemory
           | _ => choosePartTypeOnDisk data (bytes block) (rows block)
           end /\
    (part_type parent <> InMemory -> reserveSpace data (bytes block) storage_builder = true) /\
    writeProjectionPartImpl env part_name type (part_name +:+ ".tmp_proj") storage_builder true
      parent data block projection wa = (Ok r, w').
Proof.
  unfold writeTempProjectionPart. intros H. cbv zeta.
  apply bindW_Ok in H as (type & wa & Htype & H). exists type, wa.
  destruct (part_type parent).
  1,2: destruct (reserveSpace data (bytes block) storage_builder); [|done];
       by apply retW_Ok in Htype as [-> ->].
  by apply retW_Ok in Htype as [-> ->].
Qed.

Lemma writeProjectionPart_Ok_type data block projection storage_builder parent w r w' :
  writeProjectionPart env data block projection storage_builder parent w = (Ok r, w') ->
  exists type wa,
    type = match part_type parent with
           | InMemory => InMemory
           | _ => choosePartTypeOnDisk data (bytes block) (rows block)
           end /\
    (part_type parent <> InMemory -> reserveSpace data (bytes block) storage_builder = true) /\
    writeProjectionPartImpl env (projection_name projection) type
      (projection_name projection +:+ ".proj") storage_builder false
      parent data block projection wa = (Ok r, w').
Proof.
  unfold writeProjectionPart. intros H.
  apply bindW_Ok in H as (type & wa & Htype & H). exists type, wa.
  destruct (part_type parent).
  1,2: destruct (reserveSpace data (bytes block) storage_builder); [|done];
       by apply retW_Ok in Htype as [-> ->].
  by apply retW_Ok in Htype as [-> ->].
Qed.

(** X15: [writeProjectionPart] and [writeTempProjectionPart] write an
    in-memory part for an in-memory parent, without a reservation, and for
    such a parent [writeProjectionPart] is [writeInMemoryProjectionPart].  For
    another parent they reserve space for the bytes of the block first: when
    that fails they throw NOT_ENOUGH_SPACE and the world is unchanged, and
    otherwise the type of the part is chosen from the size of the block. *)
Theorem projection_writers_reservation (data : MergeTreeData) (block : Block)
    (projection : ProjectionDescription) (storage_builder : string) (parent : DataPart)
    (block_num : nat) (w : World) :
  (part_type parent = InMemory ->
     writeProjectionPart env data block projection storage_builder parent w
     = writeInMemoryProjectionPart env data block projection storage_builder parent w) /\
  (part_type parent <> InMemory ->
     reserveSpace data (bytes block) storage_builder = false ->
     writeProjectionPart env data block projection storage_builder parent w
       = (Throw NOT_ENOUGH_SPACE, w) /\
     writeTempProjectionPart env data block projection storage_builder parent block_num w
       = (Throw NOT_ENOUGH_SPACE, w)) /\
  (forall r w',
     writeProjectionPart env data block projection storage_builder parent w = (Ok r, w') \/
     writeTempProjectionPart env data block projection storage_builder parent block_num w
       = (Ok r, w') ->
     exists pp,
       part r = Some pp /\
       pp_type pp = match part_type parent with
                    | InMemory => InMemory
                    | _ => choosePartTypeOnDisk data (bytes block) (rows block)
                    end /\
       (part_type parent <> InMemory ->
          reserveSpace data (bytes block) storage_builder = true)).
Proof.
  split; [|split].
  - intros T. unfold writeProjectionPart, writeInMemoryProjectionPart, bindW. by rewrite T.
  - intros T Hno. unfold writeProjectionPart, writeTempProjectionPart, bindW.
    destruct (part_type parent); [| |done]; by rewrite Hno.
  - intros r w' [H|H].
    + apply writeProjectionPart_Ok_type in H as (type & wa & -> & Hres & H).
      apply writeProjectionPartImpl_Ok in H as (s & _ & Hpart & _).
      eexists. split; [exact Hpart|]. done.
    + apply writeTempProjectionPart_Ok in H as (type & wa & -> & Hres & H).
      apply writeProjectionPartImpl_Ok in H as (s & _ & Hpart & _).
      eexists. split; [exact Hpart|]. done.
Qed.


(** X17: the part [writeTempProjectionPart] returns is temporary, is named
    [<projection>_<block_num>] with the number in decimal, and lies in the
    directory of that name with the suffix [.tmp_proj] under the parent.  For
    one projection and one parent, other block numbers give other names,
    directories and builders; and the directory and the builder differ from
    those of every part that [writeProjectionPart] or
    [writeInMemoryProjectionPart] writes under the same parent, which is not
    temporary. *)
Theorem projection_part_directories (data : MergeTreeData) (parent : DataPart)
    (storage_builder : string) (projection : ProjectionDescription)
    (block : Block) (block_num : nat) (w : World) (r : TemporaryPart ProjectionPart)
    (w' : World) (pp : ProjectionPart) :
  writeTempProjectionPart env data block projection storage_builder parent block_num w
    = (Ok r, w') ->
  part r = Some pp ->
  pp_is_temp pp = true /\
  pp_name pp = projection_name projection +:+ "_" +:+ pretty block_num /\
  pp_path pp = part_path parent +:+ "/" +:+ pp_name pp +:+ ".tmp_proj" /\
  builder r = Some (storage_builder +:+ "/" +:+ pp_name pp +:+ ".tmp_proj") /\
  (forall block2 block_num2 w2 r2 w2' pp2,
     writeTempProjectionPart env data block2 projection storage_builder parent block_num2 w2
       = (Ok r2, w2') ->
     part r2 = Some pp2 -> block_num2 <> block_num ->
     pp_name pp2 <> pp_name pp /\ pp_path pp2 <> pp_path pp /\ builder r2 <> builder r) /\
  (forall projection2 block2 w2 r2 w2' pp2,
     writeProjectionPart env data block2 projection2 storage_builder parent w2 = (Ok r2, w2') \/
     writeInMemoryProjectionPart env data block2 projection2 storage_builder parent w2
       = (Ok r2, w2') ->
     part r2 = Some pp2 ->
     pp_is_temp pp2 = false /\ pp_path pp2 <> pp_path pp /\ builder r2 <> builder r).
Proof.
  intros Hrun Hpp.
  apply writeTempProjectionPart_Ok in Hrun as (type & wa & _ & _ & Hrun).
  apply writeProjectionPartImpl_shape in Hrun
    as (s & _ & Hpart & Hbuilder & _). rewrite Hpart in Hpp. injection Hpp as <-.
  cbn [pp_is_temp pp_name pp_path]. rewrite Hbuilder.
  repeat (split; [done|]). split.
  - intros block2 block_num2 w2 r2 w2' pp2 Hrun2 Hpp2 Hne.
    apply writeTempProjectionPart_Ok in Hrun2 as (type2 & wa2 & _ & _ & Hrun2).
    apply writeProjectionPartImpl_shape in Hrun2
      as (s2 & _ & Hpart2 & Hbuilder2 & _). rewrite Hpart2 in Hpp2. injection Hpp2 as <-.
    cbn [pp_name pp_path]. rewrite Hbuilder2.
    assert (Hname : projection_name projection +:+ "_" +:+ pretty block_num2
                    <> projection_name projection +:+ "_" +:+ pretty block_num).
    { intros E. apply String.app_inj in E. apply (String.app_inj "_") in E.
      by apply pretty_nat_inj in E. }
    split; [done|]. split.
    + intros E. apply String.app_inj in E. apply (String.app_inj "/") in E.
      by apply app_inj_r in E.
    + intros [= E]. apply String.app_inj in E. apply (String.app_inj "/") in E.
      by apply app_inj_r in E.
  - intros projection2 block2 w2 r2 w2' pp2 Hrun2 Hpp2.
    assert (Himpl : exists type2 wa2,
              writeProjectionPartImpl env (projection_name projection2) type2
                (projection_name projection2 +:+ ".proj") storage_builder false
                parent data block2 projection2 wa2 = (Ok r2, w2')).
    { destruct Hrun2 as [H|H].
      - apply writeProjectionPart_Ok_type in H as (type2 & wa2 & _ & _ & H). by eexists _, _.
      - by eexists _, _. }
    destruct Himpl as (type2 & wa2 & Hrun2').
    apply writeProjectionPartImpl_shape in Hrun2'
      as (s2 & _ & Hpart2 & Hbuilder2 & _). rewrite Hpart2 in Hpp2. injection Hpp2 as <-.
    cbn [pp_is_temp pp_path]. rewrite Hbuilder2. split; [done|]. split.
    + intros E. apply String.app_inj in E. apply (String.app_inj "/") in E.
      by apply proj_ne_tmp_proj in E.
    + intros [= E]. apply String.app_inj in E. apply (String.app_inj "/") in E.
      by apply proj_ne_tmp_proj in E.
Qed.

(** *** [finalize] *)

Lemma finish_streams_snoc (finish : Stream -> W unit) (l : list Stream) (s : Stream)
    (w : World) :
  finish_streams finish (l ++ [s]) w
  = bindW (finish_streams finish l) (fun _ => finish s) w.
Proof.
  revert w. induction l as [|a l IH]; intros w; simpl.
  - unfold bindW, retW. destruct (finish s w) as [[[]|e|] w1]; done.
  - unfold bindW. destruct (finish a w) as [[[]|e|] w1]; [|done|done].
    rewrite IH. done.
Qed.

(** The streams of the projection parts, in the order of the parts. *)
Lemma projection_streams_paths data storage_builder parent block
    (todo : list ProjectionDescription)
    (results : list (TemporaryPart ProjectionPart))
    (new_parts : list (string * ProjectionPart)) :
  Forall2 (fun projection r =>
             exists wa wb,
               writeProjectionPart env data (calculate projection block) projection
                                   storage_builder parent wa = (Ok r, wb))
          todo results ->
  Forall2 (fun np r => part r = Some (snd np)) new_parts results ->
  map stream_path (concat (map (fun r => streams r) results))
  = map (fun np => pp_path (snd np)) new_parts.
Proof.
  intros H. revert new_parts. induction H as [|projection r todo results Hr _ IH];
    intros new_parts Hparts.
  - by inversion Hparts.
  - inversion Hparts as [|np r0 new_parts' results0 Hnp Hparts']; subst.
    destruct Hr as (wa & wb & Hr).
    apply writeProjectionPart_Ok in Hr as (type & wc & Hr).
    apply writeProjectionPartImpl_shape in Hr as (s & Hs & Hpart & _ & _ & Hpath & _).
    rewrite Hpart in Hnp. injection Hnp as Hnp.
    simpl. rewrite Hs. simpl. rewrite (IH new_parts') by done.
    by rewrite <- Hnp, Hpath.
Qed.

(** X18: the streams of the temporary part [writeTempPart] returns are those
    of the projection parts, in the order of the parts, followed by the
    stream of the part itself.  [finalize] finishes them in this order, the
    main stream last and only when no projection stream threw; on a
    temporary part without a part it does nothing. *)
Theorem finalize_writeTempPart (data : MergeTreeData) (bwp : BlockWithPartition)
    (md : StorageMetadata) (ctx : Context) (w : World) (tp : TemporaryPart DataPart)
    (w' : World) :
  writeTempPart env data bwp md ctx w = (Ok tp, w') ->
  match part tp with
  | None => forall finish w0, finalize finish tp w0 = (Ok tt, w0)
  | Some p =>
      map stream_path (streams tp)
      = map (fun np => pp_path (snd np)) (projection_parts p) ++ [part_path p] /\
      exists projection_streams main,
        streams tp = projection_streams ++ [main] /\
        forall finish w0,
          finalize finish tp w0
          = bindW (finish_streams finish projection_streams) (fun _ => finish main) w0
  end.
Proof.
  intros H.
  apply writeTempPart_cases in H
    as (prepared & w1 & Hprep & [(Hbytes & -> & ->)|(Hbytes & Hwrite)]).
  - cbn [part]. done.
  - apply writeTempPart_write_Ok in Hwrite
      as (mv & volume & infos & pparts & pstreams & wa & wb & _ & _ & Hproj & ->).
    cbn [part streams projection_parts part_path].
    apply write_projections_Ok in Hproj
      as (results & new_parts & Hall & Hparts & _ & -> & ->).
    cbn [fst snd]. rewrite !app_nil_l. split.
    + rewrite map_app. cbn [map stream_path].
      by rewrite (projection_streams_paths _ _ _ _ _ _ _ Hall Hparts).
    + eexists _, _. split; [done|]. intros finish w0.
      unfold finalize. cbn [streams]. apply finish_streams_snoc.
Qed.

(** *** The projection parts of a part *)

Lemma projection_parts_shape data storage_builder parent block
    (todo : list ProjectionDescription)
    (results : list (TemporaryPart ProjectionPart))
    (new_parts : list (string * ProjectionPart)) :
  Forall2 (fun projection r =>
             exists wa wb,
               writeProjectionPart env data (calculate projection block) projection
                                   storage_builder parent wa = (Ok r, wb))
          todo results ->
  Forall2 (fun np r => part r = Some (snd np)) new_parts results ->
  map fst new_parts = map projection_name todo ->
  Forall2 (fun projection np =>
             fst np = projection_name projection /\
             snd np = mkProjectionPart (projection_name projection)
                        (match part_type parent with
                         | InMemory => InMemory
                         | _ => choosePartTypeOnDisk data (bytes (calculate projection block))
                                                     (rows (calculate projection block))
                         end)
                        (mkPartInfo "all" 0 0 0)
                        (part_path parent +:+ "/" +:+ projection_name projection +:+ ".proj")
                        false
                        (filter_names (projection_physical_columns projection)
                                      (getNames (calculate projection block))))
          todo new_parts.
Proof.
  intros H. revert new_parts. induction H as [|projection r todo results Hr _ IH];
    intros new_parts Hparts Hnames.
  - inversion Hparts. constructor.
  - inversion Hparts as [|np r0 new_parts' results0 Hnp Hparts']; subst.
    simpl in Hnames. injection Hnames as Hname Hnames.
    constructor; [|by apply IH]. split; [done|].
    destruct Hr as (wa & wb & Hr).
    apply writeProjectionPart_Ok_type in Hr as (type & wc & -> & _ & Hr).
    apply writeProjectionPartImpl_Ok in Hr as (s & _ & Hpart & _).
    rewrite Hpart in Hnp. by injection Hnp as <-.
Qed.

(** X19: every projection part of the part [writeTempPart] returns belongs
    to a projection of the table whose block, calculated from the block
    written, has rows.  It has the name of the projection and the part info
    [("all", 0, 0, 0)], is not temporary, lies in the directory [<name>.proj]
    under the directory of the part, is in memory when the part is and
    otherwise of the type chosen from the size of the calculated block, and
    lists the physical columns of the projection that the calculated block
    carries.  The temporary part has one stream more than the part has
    projection parts. *)
Theorem writeTempPart_projection_parts (data : MergeTreeData) (bwp : BlockWithPartition)
    (md : StorageMetadata) (ctx : Context) (w : World) (tp : TemporaryPart DataPart)
    (w' : World) (p : DataPart) :
  writeTempPart env data bwp md ctx w = (Ok tp, w') -> part tp = Some p ->
  exists main,
    last (streams tp) = Some main /\
    length (streams tp) = S (length (projection_parts p)) /\
    Forall (fun np =>
              exists projection,
                In projection (projections md) /\
                let block := calculate projection (written_block main) in
                rows block <> 0 /\
                fst np = projection_name projection /\
                pp_name (snd np) = projection_name projection /\
                pp_path (snd np)
                = part_path p +:+ "/" +:+ projection_name projection +:+ ".proj" /\
                pp_is_temp (snd np) = false /\
                pp_info (snd np) = mkPartInfo "all" 0 0 0 /\
                pp_type (snd np)
                = match part_type p with
                  | InMemory => InMemory
                  | _ => choosePartTypeOnDisk data (bytes block) (rows block)
                  end /\
                forall n, In n (pp_columns (snd np)) <->
                          In n (projection_physical_columns projection) /\
                          In n (getNames block))
           (projection_parts p).
Proof.
  intros Hrun Hp.
  destruct (writeTempPart_Ok _ _ _ _ _ _ _ _ _ Hrun Hp) as (prepared & w1 & _ & _ & Hwrite).
  apply writeTempPart_write_Ok in Hwrite
    as (mv & volume & infos & pparts & pstreams & wa & wb & _ & _ & Hproj & ->).
  cbn [part] in Hp. injection Hp as <-.
  cbn [streams projection_parts part_path part_type].
  apply write_projections_Ok in Hproj
    as (results & new_parts & Hall & Hparts & Hnames & -> & ->).
  cbn [fst snd]. rewrite !app_nil_l.
  eexists. split; [apply last_snoc|]. cbn [written_block]. split.
  { rewrite length_app. cbn [length].
    pose proof (projection_streams_paths _ _ _ _ _ _ _ Hall Hparts) as Hlen.
    apply (f_equal (@length _)) in Hlen. rewrite !length_map in Hlen. lia. }
  pose proof (projection_parts_shape _ _ _ _ _ _ _ Hall Hparts Hnames) as Hshape.
  cbn [part_type part_path] in Hshape.
  apply Forall_forall. intros np Hnp.
  apply list_elem_of_In in Hnp.
  destruct (Forall2_In_r _ _ _ _ Hshape Hnp) as (projection & Hin & Hfst & Hsnd).
  apply filter_In in Hin as [Hin Hrows].
  exists projection. split; [done|]. cbv zeta.
  split; [by apply negb_true_iff, Nat.eqb_neq in Hrows|].
  rewrite Hsnd. cbn [pp_name pp_path pp_is_temp pp_info pp_type pp_columns].
  repeat (split; [done|]).
  apply filter_names_spec.
Qed.

End WriterExtras.

(** * Worked examples *)

Ltac solve_collision_free :=
  let a := fresh "a" in let b := fresh "b" in
  let Ha := fresh "Ha" in let Hb := fresh "Hb" in let Heq := fresh "Heq" in
  intros a b Ha Hb Heq; vm_compute in Ha, Hb;
  repeat (destruct Ha as [<-|Ha]; [|]); try contradiction;
  repeat (destruct Hb as [<-|Hb]; [|]); try contradiction;
  first [reflexivity | discriminate Heq].

Lemma splitBlockIntoParts_empty_input_witness :
  splitBlockIntoParts example_hash example_empty_block 1 example_unpartitioned_strict = Ok [] /\
  splitBlockIntoParts example_hash example_empty_block 1 example_unpartitioned_strict
    <> Ok [mkBlockWithPartition example_empty_block []].
Proof. apply splitBlockIntoParts_empty_input. right. reflexivity. Defined.

Lemma splitBlockIntoParts_too_many_parts_witness :
  splitBlockIntoParts example_hash example_kv_block 2 example_partition_by_mod3
  = Throw TOO_MANY_PARTS.
Proof.
  destruct (splitBlockIntoParts_too_many_parts example_hash example_kv_block 2
              example_partition_by_mod3) as [_ H].
  - vm_compute. discriminate.
  - repeat constructor.
  - reflexivity.
  - solve_collision_free.
  - apply H; vm_compute; lia.
Defined.

Lemma splitBlockIntoParts_partitions_witness :
  exists parts,
    splitBlockIntoParts example_hash example_kv_block 3 example_partition_by_mod3 = Ok parts /\
    Permutation (concat (map (fun bp => block_rows (bwp_block bp)) parts))
                (block_rows example_kv_block) /\
    Forall (fun bp => Forall (fun r => partition_tuple example_partition_by_mod3 r
                                       = bwp_partition bp)
                             (block_rows (bwp_block bp))) parts.
Proof.
  eexists. split; [vm_compute; reflexivity|].
  apply (splitBlockIntoParts_partitions example_hash example_kv_block 3
           example_partition_by_mod3).
  - vm_compute. discriminate.
  - repeat constructor.
  - solve_collision_free.
  - vm_compute. reflexivity.
Defined.

Lemma run_eq {A} (r : Result A * World) (a : A) : fst r = Ok a -> r = (Ok a, snd r).
Proof. destruct r as [x w]. simpl. by intros ->. Qed.

Lemma mergeBlock_protocol_witness :
  exists merging_algorithm,
    get_merging_algorithm example_algorithms example_block (rows example_block)
      (make_sort_description ["k"%string]) ["d"%string] (mkMergingParams Replacing "" [] "v" [])
      (clock example_world) = Some merging_algorithm /\
    let input := mkInput (mkChunk (getColumns example_block) (rows example_block)) None in
    let first :=
      merge merging_algorithm
            (initialize merging_algorithm (alg_new merging_algorithm) [input]) in
    let second := merge merging_algorithm (snd first) in
    let result :=
      mergeBlock example_algorithms example_block (make_sort_description ["k"%string])
                 ["d"%string] None (mkMergingParams Replacing "" [] "v" []) example_world in
    (required_source (fst first) <> 0%Z ->
       fst result = Throw LOGICAL_ERROR /\
       merge_steps (snd result) = merge_steps example_world + 1) /\
    (required_source (fst first) = 0%Z ->
       merge_steps (snd result) = merge_steps example_world + 2 /\
       (is_finished (fst second) = false -> fst result = Throw LOGICAL_ERROR) /\
       (is_finished (fst second) = true ->
          fst result =
            Ok (cloneWithColumns example_block
                  (chunk_columns (status_chunk (fst second))),
                None))).
Proof.
  apply (mergeBlock_protocol example_env example_block (make_sort_description ["k"%string])
           ["d"%string] None (mkMergingParams Replacing "" [] "v" []) example_world).
  simpl. discriminate.
Defined.

Lemma writeTempPart_empty_block_witness :
  exists prepared w1 tp w',
    writeTempPart_prepare example_env example_collapsing_data example_cancelling_bwp
      example_collapsing_metadata (mkContext true) example_world = (Ok prepared, w1) /\
    bytes (prepared_block prepared) = 0 /\
    writeTempPart example_env example_collapsing_data example_cancelling_bwp
      example_collapsing_metadata (mkContext true) example_world = (Ok tp, w') /\
    part tp = None /\ builder tp = None /\ streams tp = [] /\
    disk w' = disk example_world.
Proof.
  set (r := writeTempPart_prepare example_env example_collapsing_data
              example_cancelling_bwp example_collapsing_metadata (mkContext true)
              example_world).
  assert (Hfst : exists prepared, fst r = Ok prepared /\ bytes (prepared_block prepared) = 0).
  { eexists. split; vm_compute; reflexivity. }
  destruct Hfst as (prepared & Hfst & Hbytes). apply run_eq in Hfst.
  destruct (writeTempPart_empty_block example_env example_collapsing_data
              example_cancelling_bwp example_collapsing_metadata (mkContext true)
              example_world prepared (snd r) Hfst Hbytes) as (tp & w' & H).
  exists prepared, (snd r), tp, w'. split; [exact Hfst|]. split; [exact Hbytes|]. exact H.
Defined.

Ltac run_example r :=
  let H := fresh "H" in
  assert (H : exists tp p, fst r = Ok tp /\ part tp = Some p)
    by (eexists _, _; split; [vm_compute; reflexivity|reflexivity]);
  let tp := fresh "tp" in let p := fresh "p" in
  let Hfst := fresh "Hfst" in let Hp := fresh "Hp" in
  destruct H as (tp & p & Hfst & Hp); apply run_eq in Hfst;
  exists tp, (snd r), p; split; [exact Hfst|]; split; [exact Hp|].





Lemma writeTempPart_part_name_witness :
  exists tp p range,
    fst (writeTempPart example_env example_v0_data example_bwp example_metadata
           (mkContext true) example_world) = Ok tp /\
    part tp = Some p /\
    part_info p = mkPartInfo "p" 42 42 0 /\
    hyperrectangle (minmax_idx p) !! minmax_idx_date_column_pos example_v0_data
      = Some range /\
    part_name p = getPartNameV0 example_env (mkPartInfo "p" 42 42 0)
                    (DayNum (range_left range)) (DayNum (range_right range)).
Proof.
  set (r := writeTempPart example_env example_v0_data example_bwp example_metadata
              (mkContext true) example_world).
  assert (H : exists tp p, fst r = Ok tp /\ part tp = Some p)
    by (eexists _, _; split; [vm_compute; reflexivity|reflexivity]).
  destruct H as (tp & p & Hfst & Hp).
  destruct (writeTempPart_part_name example_env example_v0_data example_bwp
              example_metadata (mkContext true) example_world) as (_ & _ & H).
  destruct (H tp p Hfst Hp) as (Hinfo & _ & _ & _ & range & Hrange & Hname).
  exists tp, p, range. split; [exact Hfst|]. split; [exact Hp|].
  split; [exact Hinfo|]. split; [exact Hrange|exact Hname].
Defined.

Lemma writeTempPart_projections_witness :
  exists tp w' p,
    writeTempPart example_env (example_data Replacing) example_bwp
      example_projection_metadata (mkContext true) example_world = (Ok tp, w') /\
    part tp = Some p /\
    exists prepared w1 main results,
      writeTempPart_prepare example_env (example_data Replacing) example_bwp
        example_projection_metadata (mkContext true) example_world = (Ok prepared, w1) /\
      written_block main = prepared_block prepared /\
      streams tp = concat (map (fun r => streams r) results) ++ [main] /\
      let block := written_block main in
      let computed :=
        List.filter (fun projection => negb (rows (calculate projection block) =? 0))
                    (projections example_projection_metadata) in
      map fst (projection_parts p) = map projection_name computed /\
      Forall2
        (fun projection r =>
           (exists parent wa wb,
              forall params,
                writeProjectionPart example_env
                  (with_merging_params (example_data Replacing) params)
                  (calculate projection block) projection (part_path p) parent wa
                = (Ok r, wb)) /\
           exists s block1 sd perm0 wc wd,
             streams r = [s] /\
             block1 = (if negb (bool_decide
                                  (projection_sorting_key_columns projection = []))
                          || projection_hasSecondaryIndices projection
                       then projection_key_expression projection
                              (calculate projection block)
                       else calculate projection block) /\
             sd = make_sort_description (projection_sorting_key_columns projection) /\
             match projection_type projection with
             | Aggregate =>
                 mergeBlock (algorithms example_env) block1 sd [] perm0
                            (mkMergingParams Aggregating "" [] "" []) wc
                 = (Ok (written_block s, written_permutation s), wd)
             | Normal => written_block s = block1
             end)
        computed results.
Proof.
  set (r := writeTempPart example_env (example_data Replacing) example_bwp
              example_projection_metadata (mkContext true) example_world).
  run_example r.
  exact (writeTempPart_projections example_env (example_data Replacing) example_bwp
           example_projection_metadata (mkContext true) example_world tp (snd r) p Hfst Hp).
Defined.

(** The scenarios of the specification, evaluated. *)

Example split_by_parity :
  splitBlockIntoParts example_hash example_kv_block 0
    (mkPartitionMetadata (fun _ => None) [fun r => (nth 0 r 0 mod 2)%Z])
  = Ok [mkBlockWithPartition [mkColumn [0; 2]%Z "k"; mkColumn [10; 12]%Z "v"] [0%Z];
        mkBlockWithPartition [mkColumn [1; 3]%Z "k"; mkColumn [11; 13]%Z "v"] [1%Z]].
Proof. reflexivity. Qed.

Example split_single_partition :
  splitBlockIntoParts example_hash example_kv_block 1
    (mkPartitionMetadata (fun _ => None) [fun r => (nth 0 r 0 / 10)%Z])
  = Ok [mkBlockWithPartition example_kv_block [0%Z]].
Proof. reflexivity. Qed.

Example replacing_with_version :
  match fst (writeTempPart example_env (example_data Replacing) example_bwp
               example_metadata (mkContext true) example_world) with
  | Ok tp => map emitted_rows (streams tp)
  | _ => []
  end = [[[1; 20; 110]; [2; 5; 105]]%Z].
Proof. vm_compute. reflexivity. Qed.

Example collapsing_imbalance :
  match fst (writeTempPart example_env example_collapsing_data
               (mkBlockWithPartition
                  [mkColumn [1; 1; 1]%Z "k"; mkColumn [1; 1; -1]%Z "s";
                   mkColumn [100; 101; 102]%Z "d"] [0%Z])
               example_collapsing_metadata (mkContext true) example_world) with
  | Ok tp => map emitted_rows (streams tp)
  | _ => []
  end = [[[1; 1; 101]]%Z].
Proof. vm_compute. reflexivity. Qed.

Example unsorted_block_is_permuted :
  match fst (writeTempPart example_env (example_data Ordinary) example_unsorted_bwp
               example_metadata (mkContext false) example_world) with
  | Ok tp => map (fun s => (written_permutation s, emitted_rows s)) (streams tp)
  | _ => []
  end = [(Some [1; 3; 2; 0],
          [[1; 20; 110]; [1; 6; 107]; [2; 5; 105]; [3; 10; 100]]%Z)].
Proof. vm_compute. reflexivity. Qed.

Example v0_month_split :
  fst (writeTempPart example_env example_v0_data
         (mkBlockWithPartition
            [mkColumn [1; 2]%Z "k"; mkColumn [10; 20]%Z "v"; mkColumn [59; 60]%Z "d"]
            [0%Z])
         example_metadata (mkContext true) example_world)
  = Throw LOGICAL_ERROR.
Proof. vm_compute. reflexivity. Qed.

(** ** Instances of the further properties *)

(** The outcome of a run, evaluated. *)
Ltac evaluated run :=
  let v := eval vm_compute in run in
  lazymatch v with
  | Ok ?a => exists a; vm_compute; reflexivity
  end.

(** A run that returns a part: the part and the world it leaves. *)
Ltac evaluate_run r :=
  let H := fresh "H" in
  assert (H : exists tp p, fst r = Ok tp /\ part tp = Some p)
    by (let v := eval vm_compute in (fst r) in
        lazymatch v with
        | Ok ?tp =>
            let q := eval vm_compute in (part tp) in
            lazymatch q with
            | Some ?p => exists tp, p; split; [vm_compute; reflexivity|reflexivity]
            end
        end);
  let tp := fresh "tp" in let p := fresh "p" in
  let Hfst := fresh "Hfst" in let Hp := fresh "Hp" in
  destruct H as (tp & p & Hfst & Hp); apply run_eq in Hfst;
  exists tp, (snd r), p; split; [exact Hfst|]; split; [exact Hp|].

Lemma buildScatterSelector_first_rows_witness :
  exists st,
    buildScatterSelector example_hash example_key_columns 0 = Ok st /\
    let key_of := fun i => example_hash (row_at example_key_columns i) in
    let num_rows := length (hd [] example_key_columns) in
    let first_row := partition_num_to_first_row st in
    partitions_count st = length first_row /\
    StronglySorted lt first_row /\
    (forall p j, first_row !! p = Some j ->
       j < num_rows /\ partitions_map st !! key_of j = Some p /\
       forall i, i < j -> key_of i <> key_of j) /\
    (forall i, i < num_rows ->
       exists p j, first_row !! p = Some j /\ j <= i /\ key_of j = key_of i).
Proof.
  assert (H : exists st, buildScatterSelector example_hash example_key_columns 0 = Ok st)
    by evaluated (buildScatterSelector example_hash example_key_columns 0).
  destruct H as [st H]. exists st. split; [exact H|].
  exact (buildScatterSelector_first_rows example_hash example_key_columns 0 st H).
Defined.

Lemma buildScatterSelector_selector_witness :
  exists st,
    buildScatterSelector example_hash example_key_columns 3 = Ok st /\
    let key_of := fun i => example_hash (row_at example_key_columns i) in
    let num_rows := length (hd [] example_key_columns) in
    let first_row := partition_num_to_first_row st in
    if 1 <? partitions_count st
    then length (selector st) = num_rows /\
         (forall i, i < num_rows ->
            exists p j, selector st !! i = Some (Some p) /\ p < partitions_count st /\
                        first_row !! p = Some j /\ key_of j = key_of i) /\
         (forall i i', i < num_rows -> i' < num_rows ->
            (selector st !! i = selector st !! i' <-> key_of i = key_of i'))
    else selector st = [] /\ (num_rows <> 0 -> first_row = [0]).
Proof.
  assert (H : exists st, buildScatterSelector example_hash example_key_columns 3 = Ok st)
    by evaluated (buildScatterSelector example_hash example_key_columns 3).
  destruct H as [st H]. exists st. split; [exact H|].
  exact (buildScatterSelector_selector example_hash example_key_columns 3 st H).
Defined.

Lemma buildScatterSelector_limit_witness :
  example_key_columns <> [] /\
  let key_of := fun i => example_hash (row_at example_key_columns i) in
  let keys := keys_upto key_of (length (hd [] example_key_columns)) in
  (2 = 0 \/ size keys <= 2 ->
     exists st, buildScatterSelector example_hash example_key_columns 2 = Ok st /\
                partitions_count st = size keys /\
                dom (partitions_map st) = keys) /\
  (2 <> 0 -> 2 < size keys ->
     buildScatterSelector example_hash example_key_columns 2 = Throw TOO_MANY_PARTS).
Proof.
  split; [discriminate|].
  apply (buildScatterSelector_limit example_hash example_key_columns 2). discriminate.
Defined.

Lemma splitBlockIntoParts_outcomes_witness :
  block_wf example_kv_block /\
  match splitBlockIntoParts example_hash example_kv_block 3 example_partition_by_mod3 with
  | Ok parts =>
      (parts = [] <-> rows example_kv_block = 0) /\ (3 <> 0 -> length parts <= 3)
  | Throw e =>
      rows example_kv_block <> 0 /\
      (check example_partition_by_mod3 example_kv_block = Some e \/
       (check example_partition_by_mod3 example_kv_block = None /\
        hasPartitionKey example_partition_by_mod3 = true /\ 3 <> 0 /\
        e = TOO_MANY_PARTS))
  | Undefined => False
  end.
Proof.
  split; [repeat constructor|].
  apply (splitBlockIntoParts_outcomes example_hash example_kv_block 3
           example_partition_by_mod3).
  repeat constructor.
Defined.

Lemma splitBlockIntoParts_sub_blocks_witness :
  exists parts,
    block_wf example_kv_block /\
    splitBlockIntoParts example_hash example_kv_block 3 example_partition_by_mod3 = Ok parts /\
    Permutation (concat (map (fun bp => block_rows (bwp_block bp)) parts))
                (block_rows example_kv_block) /\
    Forall (fun bp =>
              getNames (bwp_block bp) = getNames example_kv_block /\
              block_wf (bwp_block bp) /\
              rows (bwp_block bp) <> 0 /\
              sublist (block_rows (bwp_block bp)) (block_rows example_kv_block)) parts.
Proof.
  assert (H : exists parts,
            splitBlockIntoParts example_hash example_kv_block 3 example_partition_by_mod3
            = Ok parts)
    by evaluated (splitBlockIntoParts example_hash example_kv_block 3
                    example_partition_by_mod3).
  destruct H as [parts H].
  assert (Hwf : block_wf example_kv_block) by repeat constructor.
  exists parts. split; [exact Hwf|]. split; [exact H|].
  exact (splitBlockIntoParts_sub_blocks example_hash example_kv_block 3
           example_partition_by_mod3 parts Hwf H).
Defined.

Lemma splitBlockIntoParts_by_hash_witness :
  exists parts,
    block_wf example_kv_block /\
    splitBlockIntoParts example_hash example_kv_block 3 example_partition_by_mod3 = Ok parts /\
    NoDup (map (fun bp => example_hash (bwp_partition bp)) parts) /\
    Forall (fun bp =>
              (exists r0, head (block_rows (bwp_block bp)) = Some r0 /\
                          bwp_partition bp = partition_tuple example_partition_by_mod3 r0) /\
              Forall (fun r => example_hash (partition_tuple example_partition_by_mod3 r)
                               = example_hash (bwp_partition bp))
                     (block_rows (bwp_block bp))) parts.
Proof.
  assert (H : exists parts,
            splitBlockIntoParts example_hash example_kv_block 3 example_partition_by_mod3
            = Ok parts)
    by evaluated (splitBlockIntoParts example_hash example_kv_block 3
                    example_partition_by_mod3).
  destruct H as [parts H].
  assert (Hwf : block_wf example_kv_block) by repeat constructor.
  exists parts. split; [exact Hwf|]. split; [exact H|].
  exact (splitBlockIntoParts_by_hash example_hash example_kv_block 3
           example_partition_by_mod3 parts Hwf H).
Defined.

Lemma updateTTL_other_members_witness :
  exists infos1,
    updateTTL example_date_lut
      (mkTTLDescription "d" (fun b => ColumnUInt16 (column_values b "d")))
      TTLInfos_default slot_table_ttl example_block true = Ok infos1 /\
    (forall s, s <> slot_table_ttl -> get_slot infos1 s = get_slot TTLInfos_default s) /\
    infos1 = (if true
              then updatePartMinMaxTTL
                     (set_slot TTLInfos_default slot_table_ttl (get_slot infos1 slot_table_ttl))
                     (ttl_min (get_slot infos1 slot_table_ttl))
                     (ttl_max (get_slot infos1 slot_table_ttl))
              else set_slot TTLInfos_default slot_table_ttl (get_slot infos1 slot_table_ttl)).
Proof.
  assert (H : exists infos1,
            updateTTL example_date_lut
              (mkTTLDescription "d" (fun b => ColumnUInt16 (column_values b "d")))
              TTLInfos_default slot_table_ttl example_block true = Ok infos1)
    by evaluated (updateTTL example_date_lut
                    (mkTTLDescription "d" (fun b => ColumnUInt16 (column_values b "d")))
                    TTLInfos_default slot_table_ttl example_block true).
  destruct H as [infos1 H]. exists infos1. split; [exact H|].
  exact (updateTTL_other_members example_date_lut _ _ _ _ _ _ H).
Defined.


Lemma writeTempPart_part_descriptor_witness :
  exists tp w' p,
    writeTempPart example_env (example_data Replacing) example_bwp example_projection_metadata
        (mkContext true) example_world = (Ok tp, w') /\
    part tp = Some p /\
    exists main volume,
      last (streams tp) = Some main /\
      bytes (written_block main) <> 0 /\
      rows_count p = rows (written_block main) /\
      part_type p = choosePartType (example_data Replacing) (bytes (written_block main))
          (rows (written_block main)) /\
      is_temp p = true /\
      partition p = bwp_partition example_bwp /\
      part_path p = volume +:+ relative_data_path (example_data Replacing) +:+ TMP_PREFIX +:+
          part_name p /\
      builder tp = Some (part_path p) /\
      stream_path main = part_path p /\
      temporary_directory_lock tp = Some (TMP_PREFIX +:+ part_name p) /\
      stream_columns main = part_columns p /\
      sublist (part_columns p) (physical_columns example_projection_metadata) /\
      (forall n, In n (part_columns p) <->
                 In n (physical_columns example_projection_metadata) /\
                 In n (getNames (bwp_block example_bwp))) /\
      fsync_after_insert_flag main = fsync_after_insert (example_data Replacing).
Proof.
  set (r := writeTempPart example_env (example_data Replacing) example_bwp
              example_projection_metadata (mkContext true) example_world).
  evaluate_run r.
  exact (writeTempPart_part_descriptor example_env (example_data Replacing) example_bwp
           example_projection_metadata (mkContext true) example_world tp (snd r) p Hfst Hp).
Defined.

Lemma writeTempPart_rows_kept_witness :
  exists tp w' p,
    writeTempPart example_env (example_data Ordinary) example_unsorted_bwp example_metadata
        (mkContext true) example_world = (Ok tp, w') /\
    part tp = Some p /\
    (optimize_on_insert (mkContext true) = false \/
     mode (merging_params (example_data Ordinary)) = Ordinary) /\
    let block1 :=
      if hasSortingKey example_metadata || hasSecondaryIndices example_metadata
      then sorting_key_and_skip_indices_expression example_metadata
             (bwp_block example_unsorted_bwp)
      else bwp_block example_unsorted_bwp in
    exists main,
      last (streams tp) = Some main /\
      written_block main = block1 /\
      Permutation (emitted_rows main) (block_rows block1) /\
      rows_count p = rows block1.
Proof.
  set (r := writeTempPart example_env (example_data Ordinary) example_unsorted_bwp
              example_metadata (mkContext true) example_world).
  evaluate_run r.
  split; [right; reflexivity|].
  exact (writeTempPart_rows_kept example_env (example_data Ordinary) example_unsorted_bwp
           example_metadata (mkContext true) example_world tp (snd r) p Hfst Hp
           (or_intror eq_refl)).
Defined.


Lemma writeTempPart_fails_before_directory_witness :
  exists prepared w1,
    writeTempPart_prepare example_env (example_data Ordinary) example_bwp
        example_bad_move_ttl_metadata (mkContext true) example_world = (Ok prepared, w1) /\
    bytes (prepared_block prepared) <> 0 /\
    let block := prepared_block prepared in
    let move_entries :=
      by_result_column slot_moves_ttl (move_ttls example_bad_move_ttl_metadata) in
    disk w1 = disk example_world /\
    ((exists s e, In (s, e) move_entries /\
                  supported_ttl_column (expression e block) = false) ->
       writeTempPart example_env (example_data Ordinary) example_bwp
         example_bad_move_ttl_metadata (mkContext true) example_world
       = (Throw LOGICAL_ERROR, w1)) /\
    (forall mv,
       updateTTLs example_env move_entries TTLInfos_default block false = Ok mv ->
       reserve (example_data Ordinary) (bytes block) mv (clock w1) = None ->
       writeTempPart example_env (example_data Ordinary) example_bwp
         example_bad_move_ttl_metadata (mkContext true) example_world
       = (Throw NOT_ENOUGH_SPACE, w1)).
Proof.
  set (r := writeTempPart_prepare example_env (example_data Ordinary) example_bwp
              example_bad_move_ttl_metadata (mkContext true) example_world).
  assert (H : exists prepared, fst r = Ok prepared) by evaluated (fst r).
  destruct H as (prepared & Hfst).
  assert (Hbytes : bytes (prepared_block prepared) <> 0).
  { intros E. rewrite <- (f_equal (fun x => match x with
                                             | Ok a => bytes (prepared_block a)
                                             | _ => 0
                                             end) Hfst) in E.
    vm_compute in E. discriminate E. }
  apply run_eq in Hfst.
  exists prepared, (snd r). split; [exact Hfst|]. split; [exact Hbytes|].
  exact (writeTempPart_fails_before_directory example_env (example_data Ordinary) example_bwp
           example_bad_move_ttl_metadata (mkContext true) example_world prepared (snd r)
           Hfst Hbytes).
Defined.



Lemma projection_writers_reservation_witness :
  (part_type example_parent = InMemory ->
     writeProjectionPart example_env example_full_data example_block example_projection
         "/builder" example_parent example_world
     = writeInMemoryProjectionPart example_env example_full_data example_block
         example_projection "/builder" example_parent example_world) /\
  (part_type example_parent <> InMemory ->
     reserveSpace example_full_data (bytes example_block) "/builder" = false ->
     writeProjectionPart example_env example_full_data example_block example_projection
         "/builder" example_parent example_world
       = (Throw NOT_ENOUGH_SPACE, example_world) /\
     writeTempProjectionPart example_env example_full_data example_block example_projection
         "/builder" example_parent 7 example_world
       = (Throw NOT_ENOUGH_SPACE, example_world)) /\
  (forall r w',
     writeProjectionPart example_env example_full_data example_block example_projection
         "/builder" example_parent example_world = (Ok r, w') \/
     writeTempProjectionPart example_env example_full_data example_block example_projection
         "/builder" example_parent 7 example_world
       = (Ok r, w') ->
     exists pp,
       part r = Some pp /\
       pp_type pp = match part_type example_parent with
                    | InMemory => InMemory
                    | _ => choosePartTypeOnDisk example_full_data (bytes example_block)
                             (rows example_block)
                    end /\
       (part_type example_parent <> InMemory ->
          reserveSpace example_full_data (bytes example_block) "/builder" = true)).
Proof.
  exact (projection_writers_reservation example_env example_full_data example_block
           example_projection "/builder" example_parent 7 example_world).
Defined.


Lemma projection_part_directories_witness :
  exists tp w' p,
    writeTempProjectionPart example_env (example_data Ordinary) example_block
        example_projection "/builder" example_parent 7 example_world
      = (Ok tp, w') /\
    part tp = Some p /\
    pp_is_temp p = true /\
    pp_name p = projection_name example_projection +:+ "_" +:+ pretty 7 /\
    pp_path p = part_path example_parent +:+ "/" +:+ pp_name p +:+ ".tmp_proj" /\
    builder tp = Some ("/builder" +:+ "/" +:+ pp_name p +:+ ".tmp_proj") /\
    (forall block2 block_num2 w2 r2 w2' pp2,
       writeTempProjectionPart example_env (example_data Ordinary) block2 example_projection
           "/builder" example_parent block_num2 w2
         = (Ok r2, w2') ->
       part r2 = Some pp2 -> block_num2 <> 7 ->
       pp_name pp2 <> pp_name p /\ pp_path pp2 <> pp_path p /\ builder r2 <> builder tp) /\
    (forall projection2 block2 w2 r2 w2' pp2,
       writeProjectionPart example_env (example_data Ordinary) block2 projection2 "/builder"
           example_parent w2 = (Ok r2, w2') \/
       writeInMemoryProjectionPart example_env (example_data Ordinary) block2 projection2
           "/builder" example_parent w2
         = (Ok r2, w2') ->
       part r2 = Some pp2 ->
       pp_is_temp pp2 = false /\ pp_path pp2 <> pp_path p /\ builder r2 <> builder tp).
Proof.
  set (run := writeTempProjectionPart example_env (example_data Ordinary) example_block
                example_projection "/builder" example_parent 7 example_world).
  evaluate_run run.
  exact (projection_part_directories example_env (example_data Ordinary) example_parent
           "/builder" example_projection example_block 7 example_world tp (snd run) p
           Hfst Hp).
Defined.

Lemma finalize_writeTempPart_witness :
  exists tp w',
    writeTempPart example_env (example_data Replacing) example_bwp example_projection_metadata
        (mkContext true) example_world = (Ok tp, w') /\
    match part tp with
    | None => forall finish w0, finalize finish tp w0 = (Ok tt, w0)
    | Some p =>
        map stream_path (streams tp)
        = map (fun np => pp_path (snd np)) (projection_parts p) ++ [part_path p] /\
        exists projection_streams main,
          streams tp = projection_streams ++ [main] /\
          forall finish w0,
            finalize finish tp w0
            = bindW (finish_streams finish projection_streams) (fun _ => finish main) w0
    end.
Proof.
  set (r := writeTempPart example_env (example_data Replacing) example_bwp
              example_projection_metadata (mkContext true) example_world).
  assert (H : exists tp, fst r = Ok tp) by evaluated (fst r).
  destruct H as (tp & Hfst). apply run_eq in Hfst.
  exists tp, (snd r). split; [exact Hfst|].
  exact (finalize_writeTempPart example_env (example_data Replacing) example_bwp
           example_projection_metadata (mkContext true) example_world tp (snd r) Hfst).
Defined.

Lemma writeTempPart_projection_parts_witness :
  exists tp w' p,
    writeTempPart example_env (example_data Replacing) example_bwp example_projection_metadata
        (mkContext true) example_world = (Ok tp, w') /\
    part tp = Some p /\
    exists main,
      last (streams tp) = Some main /\
      length (streams tp) = S (length (projection_parts p)) /\
      Forall (fun np =>
                exists projection,
                  In projection (projections example_projection_metadata) /\
                  let block := calculate projection (written_block main) in
                  rows block <> 0 /\
                  fst np = projection_name projection /\
                  pp_name (snd np) = projection_name projection /\
                  pp_path (snd np)
                  = part_path p +:+ "/" +:+ projection_name projection +:+ ".proj" /\
                  pp_is_temp (snd np) = false /\
                  pp_info (snd np) = mkPartInfo "all" 0 0 0 /\
                  pp_type (snd np)
                  = match part_type p with
                    | InMemory => InMemory
                    | _ => choosePartTypeOnDisk (example_data Replacing) (bytes block)
                             (rows block)
                    end /\
                  forall n, In n (pp_columns (snd np)) <->
                            In n (projection_physical_columns projection) /\
                            In n (getNames block))
             (projection_parts p).
Proof.
  set (r := writeTempPart example_env (example_data Replacing) example_bwp
              example_projection_metadata (mkContext true) example_world).
  evaluate_run r.
  exact (writeTempPart_projection_parts example_env (example_data Replacing) example_bwp
           example_projection_metadata (mkContext true) example_world tp (snd r) p Hfst Hp).
Defined.
